(** * Product-quantization codebook training (src/clustering.cpp)

    A shallow embedding of the k-means training code of [clustering.cpp]
    and the properties of its specification.

    - Buffers ([coord_t*], [idx_t*], [std::vector]) are flat row-major lists;
      every read and write is bounds-checked and an access outside the
      buffer (undefined behaviour in C++) is the error [OutOfBounds].
    - [coord_t] and [dist_t] are [float], the objective is a [double]; the
      arithmetic is an interface ([Arith], [Special]) so that the program
      text is the same for IEEE-754 (module [IEEE], on the Standard
      Library's [SpecFloat]) and for exact rational arithmetic (module
      [Exact]).
    - The collaborators that live outside [clustering.cpp] (distance
      dispatch, random permutation, random floats, PCA) are the interface
      [Extern].
    - The sequential build is modelled (no [USE_OMP]). *)

From Stdlib Require Import ZArith QArith Qabs Qpower SpecFloat Lia Lqa.
From stdpp Require Import base list.

Local Open Scope nat_scope.

(** ** Outcomes of a run *)

Inductive error : Type :=
  | OutOfBounds        (* access outside a buffer *)
  | AssertionFailed    (* [assert(ci < k)] *)
  | OutOfFuel.         (* the donor loop of [split_clusters] did not accept *)

Inductive result (A : Type) : Type :=
  | Ok (a : A)
  | Err (e : error).
Arguments Ok {A} a.
Arguments Err {A} e.

#[global] Instance result_ret : MRet result := λ A a, Ok a.
#[global] Instance result_bind : MBind result := λ A B f m,
  match m with Ok a => f a | Err e => Err e end.

(** ** Buffers *)

Section Buffers.
Context {A : Type}.

(** [buf[i]] *)
Definition rd (buf : list A) (i : nat) : result A :=
  match buf !! i with Some v => Ok v | None => Err OutOfBounds end.

(** [buf[i] = v] *)
Definition wr (buf : list A) (i : nat) (v : A) : result (list A) :=
  if decide (i < length buf) then Ok (<[i:=v]> buf) else Err OutOfBounds.

(** the [n] elements at [buf + off] *)
Definition rd_block (buf : list A) (off n : nat) : result (list A) :=
  if decide (off + n ≤ length buf) then Ok (take n (drop off buf))
  else Err OutOfBounds.

(** overwrite [buf + off ..] with [blk] *)
Definition wr_block (buf : list A) (off : nat) (blk : list A) : result (list A) :=
  if decide (off + length blk ≤ length buf)
  then Ok (take off buf ++ blk ++ drop (off + length blk) buf)
  else Err OutOfBounds.

(** [memcpy(dst + doff, src + soff, n * sizeof(A))] *)
Definition memcpy (dst : list A) (doff : nat) (src : list A) (soff n : nat)
  : result (list A) :=
  blk ← rd_block src soff n; wr_block dst doff blk.

(** row [i] of a row-major buffer of row length [d] *)
Definition row (d i : nat) (buf : list A) : list A := take d (drop (i * d) buf).
End Buffers.

(** [for (i = lo; i < lo + n; i++) body] threading the state [s] *)
Fixpoint for_range {St : Type} (lo n : nat) (body : nat → St → result St)
    (s : St) : result St :=
  match n with
  | 0 => Ok s
  | S n' => s' ← body lo s; for_range (S lo) n' body s'
  end.

(** ** Arithmetic interface

    [C] is [float] ([coord_t], [dist_t]), [D] is [double]. *)

Class Arith (C D : Type) : Type := {
  c_of_Z : Z → C;            (* int or size_t converted to float *)
  cadd : C → C → C;
  csub : C → C → C;
  cmul : C → C → C;
  cdiv : C → C → C;
  clt : C → C → bool;
  ceqb : C → C → bool;
  cabs : C → C;              (* fabs *)
  d_of_Z : Z → D;            (* int converted to double, double literals 1.0 *)
  EPS : D;                   (* 1 / 1024. *)
  min_improvement : D;       (* 0.0001 *)
  dadd : D → D → D;
  dsub : D → D → D;
  dmul : D → D → D;
  ddiv : D → D → D;
  dlt : D → D → bool;
  c2d : C → D;               (* promotion float -> double *)
  d2c : D → C;               (* conversion double -> float *)
}.

(** what is not rational arithmetic: the infinities and the square root *)
Class Special (C D : Type) : Type := {
  HUGE_VALF : C;
  HUGE_VAL : D;
  dsqrt : D → D;             (* sqrt *)
}.

(** ** Collaborators outside clustering.cpp *)

Record PCAMatrix (C : Type) : Type := {
  pca_mean : list C;
  pca_eigenvalues : list C;
  pca_PCAMat : list C;
}.
Arguments pca_mean {C} _.
Arguments pca_eigenvalues {C} _.
Arguments pca_PCAMat {C} _.

Class Extern (C : Type) : Type := {
  DistFunc : Type;
  (* hnsw_dist_func(selector, a, b, d) on the two rows of length d *)
  hnsw_dist_func : DistFunc → list C → list C → nat → C;
  (* contents of perm after rand_perm(perm, n, seed) *)
  rand_perm : nat → Z → list nat;
  (* the t-th value of rand_float() of a RandomGenerator(seed) *)
  rand_float : Z → nat → C;
  (* PCAMatrix pca(d, nbits); pca.train(n, x) *)
  pca_train : nat → nat → nat → list C → PCAMatrix C;
}.

Record HnswMetadata `{Extern C} : Type := {
  pqSubdim : nat;
  pqBits : nat;
  dist_func : DistFunc;
}.

(** ** Constants *)

Definition min_points_per_centroid : nat := 39.
Definition max_points_per_centroid : nat := 256.
Definition seed : Z := 1234.
Definition max_iterations : nat := 25.

Inductive TrainType : Type := TT_DEFAULT | TT_HYPERCUBE | TT_HYPERCUBE_PCA.

(** [n - k] on [size_t] *)
Definition size_sub (n k : nat) : Z := ((Z.of_nat n - Z.of_nat k) mod 2 ^ 64)%Z.

(** the lines written to stderr *)
Inductive event (D : Type) : Type :=
  | LogSubsample (nx : nat)
  | LogIteration (i : nat) (obj : D).
Arguments LogSubsample {D} nx.
Arguments LogIteration {D} i obj.

(** ** The program *)

Section Program.
Context {C D : Type} `{Arith C D} `{Special C D} `{Extern C}.

Definition czero : C := c_of_Z 0.

(** [k = 1 << meta->pqBits] (the shift is on [int]: defined for
    [pqBits <= 30]) *)
Definition pq_k (meta : HnswMetadata) : nat := 2 ^ pqBits meta.

(** *** subsample_training_set *)

Definition subsample_training_set (d k nx : nat) (x : list C)
  : result (nat * list C) :=
  let perm := rand_perm nx seed in
  let nx := k * max_points_per_centroid in
  let x_new := replicate (nx * d) czero in
  x_new ← for_range 0 nx (λ i x_new,
    p ← rd perm i;
    memcpy x_new (i * d) x (p * d) d) x_new;
  mret (nx, x_new).

(** *** compute_centroids *)

(** [h += 1.0] *)
Definition incr (h : C) : C := d2c (dadd (c2d h) (d_of_Z 1)).

(** the accumulation loop (lines 85-98) *)
Definition accumulate (d k n : nat) (x : list C) (assign : list nat)
    (hassign centroids : list C) : result (list C * list C) :=
  for_range 0 n (λ i '(hassign, centroids),
    ci ← rd assign i;
    if decide (ci < k) then
      h ← rd hassign ci;
      hassign ← wr hassign ci (incr h);
      centroids ← for_range 0 d (λ j centroids,
        cv ← rd centroids (ci * d + j);
        xv ← rd x (i * d + j);
        wr centroids (ci * d + j) (cadd cv xv)) centroids;
      mret (hassign, centroids)
    else Err AssertionFailed) (hassign, centroids).

(** the normalisation loop (lines 103-112) *)
Definition normalize (d k : nat) (hassign centroids : list C) : result (list C) :=
  for_range 0 k (λ ci centroids,
    h ← rd hassign ci;
    if ceqb h czero then mret centroids
    else
      let norm := cdiv (c_of_Z 1) h in
      for_range 0 d (λ j centroids,
        cv ← rd centroids (ci * d + j);
        wr centroids (ci * d + j) (cmul cv norm)) centroids) centroids.

Definition compute_centroids (d k n : nat) (x : list C) (assign : list nat)
    (hassign centroids : list C) : result (list C * list C) :=
  centroids ← wr_block centroids 0 (replicate (d * k) czero);
  '(hassign, centroids) ← accumulate d k n x assign hassign centroids;
  centroids ← normalize d k hassign centroids;
  mret (hassign, centroids).

(** *** split_clusters *)

(** [c * (1 + EPS)] and [c * (1 - EPS)], computed in double *)
Definition scale_up (c : C) : C := d2c (dmul (c2d c) (dadd (d_of_Z 1) EPS)).
Definition scale_down (c : C) : C := d2c (dmul (c2d c) (dsub (d_of_Z 1) EPS)).

(** [float p = (hassign[cj] - 1.0) / (float)(n - k)] *)
Definition split_prob (h : C) (n k : nat) : C :=
  d2c (ddiv (dsub (c2d h) (d_of_Z 1)) (c2d (c_of_Z (size_sub n k)))).

(** [for (cj = 0; 1; cj = (cj + 1) % k)]: [t] counts the draws made from
    the generator, [fuel] bounds the number of rounds *)
Fixpoint find_donor (fuel k n : nat) (hassign : list C) (cj t : nat)
  : result (nat * nat) :=
  match fuel with
  | 0 => Err OutOfFuel
  | S fuel =>
    h ← rd hassign cj;
    let p := split_prob h n k in
    let r := rand_float seed t in
    if clt r p then mret (cj, S t)
    else find_donor fuel k n hassign ((cj + 1) mod k) (S t)
  end.

(** the perturbation loop (lines 152-160) *)
Definition perturb (d ci cj : nat) (centroids : list C) : result (list C) :=
  for_range 0 d (λ j centroids,
    a ← rd centroids (ci * d + j);
    centroids ← wr centroids (ci * d + j)
                   (if Nat.even j then scale_up a else scale_down a);
    b ← rd centroids (cj * d + j);
    wr centroids (cj * d + j)
       (if Nat.even j then scale_down b else scale_up b)) centroids.

(** the body of [if (hassign[ci] == 0)]; [t] is the number of draws made
    so far from the generator *)
Definition split_one (fuel d k n ci t : nat) (hassign centroids : list C)
  : result (nat * list C * list C) :=
  '(cj, t) ← find_donor fuel k n hassign 0 t;
  centroids ← memcpy centroids (ci * d) centroids (cj * d) d;
  centroids ← perturb d ci cj centroids;
  hj ← rd hassign cj;
  hassign ← wr hassign ci (cdiv hj (c_of_Z 2));
  hj ← rd hassign cj;
  hi ← rd hassign ci;
  hassign ← wr hassign cj (csub hj hi);
  mret (t, hassign, centroids).

(** one round of the loop over [ci] (lines 136-167); the state is the
    number of splits, the number of draws, the histogram and the table *)
Definition split_step (fuel d k n ci : nat) (st : nat * nat * list C * list C)
  : result (nat * nat * list C * list C) :=
  let '(nsplit, t, hassign, centroids) := st in
  h ← rd hassign ci;
  if ceqb h czero then
    '(t, hassign, centroids) ← split_one fuel d k n ci t hassign centroids;
    mret (S nsplit, t, hassign, centroids)
  else mret (nsplit, t, hassign, centroids).

Definition split_clusters (fuel d k n : nat) (hassign centroids : list C)
  : result (nat * list C * list C) :=
  '(nsplit, _, hassign, centroids) ← for_range 0 k (split_step fuel d k n)
                                      (0, 0, hassign, centroids);
  mret (nsplit, hassign, centroids).

(** *** calculate_distances *)

(** the scan of the [k] centroids for one training vector (lines 186-195) *)
Definition nearest (meta : HnswMetadata) (centroids x_i : list C)
  : result (C * nat) :=
  let d := pqSubdim meta in
  for_range 0 (pq_k meta) (λ j '(min_dist, min_idx),
    y_j ← rd_block centroids (j * d) d;
    let ip := hnsw_dist_func (dist_func meta) x_i y_j d in
    mret (if clt ip min_dist then (ip, j) else (min_dist, min_idx)))
    (HUGE_VALF, 0).

Definition calculate_distances (meta : HnswMetadata) (centroids : list C)
    (nx : nat) (x : list C) (dis : list C) (assign : list nat)
  : result (list C * list nat) :=
  let d := pqSubdim meta in
  for_range 0 nx (λ i '(dis, assign),
    x_i ← rd_block x (i * d) d;
    '(min_dist, min_idx) ← nearest meta centroids x_i;
    dis ← wr dis i min_dist;
    assign ← wr assign i min_idx;
    mret (dis, assign)) (dis, assign).

(** *** init_hypercube *)

Definition corner_sign (i j : nat) : Z := if Nat.testbit i j then 1%Z else (-1)%Z.

Definition init_hypercube (d nbits n : nat) (x centroids : list C)
  : result (list C) :=
  let mean := replicate d czero in
  let n_centroids := 2 ^ nbits in
  mean ← for_range 0 n (λ i mean,
    for_range 0 d (λ j mean,
      m ← rd mean j;
      v ← rd x (i * d + j);
      wr mean j (cadd m v)) mean) mean;
  '(mean, maxm) ← for_range 0 d (λ j '(mean, maxm),
    m ← rd mean j;
    let m := cdiv m (c_of_Z (Z.of_nat n)) in
    mean ← wr mean j m;
    mret (mean, if clt maxm (cabs m) then cabs m else maxm)) (mean, czero);
  for_range 0 n_centroids (λ i centroids,
    centroids ← for_range 0 nbits (λ j centroids,
      m ← rd mean j;
      wr centroids (i * d + j) (cadd m (cmul (c_of_Z (corner_sign i j)) maxm)))
      centroids;
    for_range nbits (d - nbits) (λ j centroids,
      m ← rd mean j;
      wr centroids (i * d + j) m) centroids) centroids.

(** *** init_hypercube_pca *)

(** [cent += f * sqrt(ev) * sign * pm] with [float f = 1.0] *)
Definition pca_accum (cent ev pm : C) (sign : Z) : C :=
  d2c (dadd (c2d cent)
         (dmul (dmul (dmul (c2d (c_of_Z 1)) (dsqrt (c2d ev))) (d_of_Z sign))
               (c2d pm))).

Definition init_hypercube_pca (d nbits n : nat) (x centroids : list C)
  : result (list C) :=
  let n_centroids := 2 ^ nbits in
  let pca := pca_train d nbits n x in
  for_range 0 n_centroids (λ i centroids,
    for_range 0 d (λ j centroids,
      m ← rd (pca_mean pca) j;
      centroids ← wr centroids (i * d + j) m;
      for_range 0 nbits (λ k centroids,
        cent ← rd centroids (i * d + j);
        ev ← rd (pca_eigenvalues pca) k;
        pm ← rd (pca_PCAMat pca) (j + k * d);
        wr centroids (i * d + j) (pca_accum cent ev pm (corner_sign i k)))
        centroids) centroids) centroids.

(** *** pq_train *)

(** the [switch (trainType)] *)
Definition initialize_centroids (trainType : TrainType) (d nbits k nx : nat)
    (x centroids : list C) : result (list C) :=
  match trainType with
  | TT_HYPERCUBE => init_hypercube d nbits nx x centroids
  | TT_HYPERCUBE_PCA => init_hypercube_pca d nbits nx x centroids
  | TT_DEFAULT =>
    let perm := rand_perm nx (seed + 1) in
    for_range 0 k (λ i centroids,
      p ← rd perm i;
      memcpy centroids (i * d) x (p * d) d) centroids
  end.

(** the objective (lines 311-314) *)
Definition objective (nx : nat) (dis : list C) : result D :=
  for_range 0 nx (λ j obj, dj ← rd dis j; mret (dadd obj (c2d dj))) (d_of_Z 0).

(** [(prev_obj - obj) / prev_obj < min_improvement] *)
Definition small_improvement (prev_obj obj : D) : bool :=
  dlt (ddiv (dsub prev_obj obj) prev_obj) min_improvement.

(** the k-means iterations, from iteration [i] with [iters] left *)
Fixpoint kmeans_iterations (fuel iters i : nat) (meta : HnswMetadata)
    (nx : nat) (x : list C) (prev_obj : D) (centroids dis : list C)
    (assign : list nat) (log : list (event D))
  : result (list C * list (event D)) :=
  match iters with
  | 0 => mret (centroids, log)
  | S iters =>
    let d := pqSubdim meta in
    let k := pq_k meta in
    '(dis, assign) ← calculate_distances meta centroids nx x dis assign;
    obj ← objective nx dis;
    let log := log ++ [LogIteration i obj] in
    if small_improvement prev_obj obj then mret (centroids, log)
    else
      let hassign := replicate k czero in
      '(hassign, centroids) ← compute_centroids d k nx x assign hassign centroids;
      '(_, hassign, centroids) ← split_clusters fuel d k nx hassign centroids;
      kmeans_iterations fuel iters (S i) meta nx x obj centroids dis assign log
  end.

(** lines 298-334: the corner case and the iterations *)
Definition pq_train_clustering (fuel : nat) (meta : HnswMetadata) (nx : nat)
    (x centroids dis : list C) (assign : list nat) (log : list (event D))
  : result (bool * list C * list (event D)) :=
  let d := pqSubdim meta in
  let k := pq_k meta in
  if decide (nx = k) then
    centroids ← memcpy centroids 0 x 0 (d * k);
    mret (true, centroids, log)
  else
    '(centroids, log) ← kmeans_iterations fuel max_iterations 0 meta nx x
                          HUGE_VAL centroids dis assign log;
    mret (true, centroids, log).

(** [trainType] is a global of the translation unit: a parameter here.
    The result is the returned flag, the centroid table and the log. The
    arrays [assign] and [dis] come from [new[]] without initialisation;
    [calculate_distances] writes their first [nx] entries before anything
    reads them, and they start zero-filled here (as does the buffer of the
    subsampler, which is written in full). *)
Definition pq_train (fuel : nat) (trainType : TrainType) (meta : HnswMetadata)
    (slice_len : nat) (slice centroids : list C)
  : result (bool * list C * list (event D)) :=
  let d := pqSubdim meta in
  let k := pq_k meta in
  let x := slice in
  let nx := slice_len in
  let assign := replicate nx 0 in
  let dis := replicate nx czero in
  centroids ← initialize_centroids trainType d (pqBits meta) k nx x centroids;
  if decide (k * max_points_per_centroid < nx) then
    '(nx, x_new) ← subsample_training_set d k nx x;
    pq_train_clustering fuel meta nx x_new centroids dis assign [LogSubsample nx]
  else if decide (nx < k * min_points_per_centroid) then
    mret (false, centroids, [])
  else
    pq_train_clustering fuel meta nx x centroids dis assign [].
End Program.

(** ** Specification-side notions for [compute_centroids] *)

Section MeanSpec.
Context {C D : Type} `{Arith C D}.

(** the training vectors assigned to centroid [c] among the first [n], in
    index order *)
Definition members (c n : nat) (assign : list nat) : list nat :=
  filter (λ i, assign !! i = Some c) (seq 0 n).

(** coordinate-wise sum, accumulated from zero in the given order *)
Definition vadd (u v : list C) : list C := zip_with cadd u v.
Definition vsum (d : nat) (rows : list (list C)) : list C :=
  foldl vadd (replicate d czero) rows.

Definition assigned_rows (d c n : nat) (x : list C) (assign : list nat)
  : list (list C) :=
  (λ i, row d i x) <$> members c n assign.
(** a centroid row after normalisation by the histogram entry [h] *)
Definition normalized_row (h : C) (r : list C) : list C :=
  if ceqb h czero then r else (λ v, cmul v (cdiv (c_of_Z 1) h)) <$> r.
End MeanSpec.

(** ** Notions for [split_clusters] *)

Section SplitSpec.
Context {C D : Type} `{Arith C D}.

(** the two rows that the perturbation loop leaves, written with the
    program's [scale_up] and [scale_down]; for IEEE arithmetic they are
    [row_up_down] and [row_down_up] below, which spell the factors out *)
Definition perturbed_copy (r : list C) : list C :=
  imap (λ j a, if Nat.even j then scale_up a else scale_down a) r.
Definition perturbed_donor (r : list C) : list C :=
  imap (λ j b, if Nat.even j then scale_down b else scale_up b) r.

(** the total of a histogram, given the rational value of its entries *)
Definition total (value : C → Q) (hassign : list C) : Q :=
  foldr Qplus 0%Q (value <$> hassign).
End SplitSpec.

(** *** The repairs under the sign rules of the arithmetic

    The facts of IEEE-754 arithmetic that the repair relies on: a draw of
    the generator is not negative; a count [h] accepted by a draw that is
    not negative, [r < (h - 1.0) / (float)(n - k)], is above one, so that
    [h] is not zero, [h / 2] is positive and [h - h / 2] is not zero
    ([n - k] is a [size_t], never negative); a positive value is not
    zero. *)

Section SplitLaws.
Context {C D : Type} `{Arith C D} `{Extern C}.

Definition half (h : C) : C := cdiv h (c_of_Z 2).

Definition draws_not_negative : Prop :=
  ∀ t, clt (rand_float seed t) czero = false.
Definition accepted_above_one : Prop :=
  ∀ r h n k, clt r czero = false → clt r (split_prob h n k) = true →
    ceqb h czero = false ∧ clt czero (half h) = true ∧
    ceqb (csub h (half h)) czero = false.
Definition positive_not_zero : Prop :=
  ∀ h, clt czero h = true → ceqb h czero = false.

(** what holds of the state after the rounds [0 .. ci) *)
Definition split_inv (k : nat) (hassign centroids : list C) (ci : nat)
    (st : nat * nat * list C * list C) : Prop :=
  let '(_, _, h, c) := st in
  length h = k ∧ length c = length centroids ∧
  (∀ r, r < k → ∃ h1, h !! r = Some h1 ∧
     (ceqb h1 czero = true → ci ≤ r ∧ hassign !! r = Some h1)) ∧
  (∀ r h0, ci ≤ r → hassign !! r = Some h0 → ceqb h0 czero = true →
     h !! r = Some h0).
End SplitLaws.

(** ** Specification-side notions for the iterations *)

Section Trace.
Context {C D : Type} `{Arith C D}.

(** the objectives that a run logged, in order *)
Definition objectives (log : list (event D)) : list D :=
  omap (λ e, match e with LogIteration _ obj => Some obj | LogSubsample _ => None end)
       log.

(** [objs] are the objectives of a loop started with [iters] iterations
    left and the previous objective [prev]: every objective passed the
    improvement test against its predecessor, except that the loop stops
    at the first one that fails it; else it runs out of iterations *)
Fixpoint objective_trace (prev : D) (objs : list D) (iters : nat) : Prop :=
  match iters, objs with
  | 0, [] => True
  | S iters, obj :: objs =>
    if small_improvement prev obj then objs = []
    else objective_trace obj objs iters
  | _, _ => False
  end.
End Trace.

(** ** The orchestrator as the specification words it

    Section 4.6 and the state machine of the specification: subsample
    first, then initialise the centroids (on the subsampled set), then the
    low-data abort, the corner case or the iterations. *)

Section SpecOrder.
Context {C D : Type} `{Arith C D} `{Special C D} `{Extern C}.

Definition pq_train_subsample_first (fuel : nat) (trainType : TrainType)
    (meta : HnswMetadata) (slice_len : nat) (slice centroids : list C)
  : result (bool * list C * list (event D)) :=
  let d := pqSubdim meta in
  let k := pq_k meta in
  let assign := replicate slice_len 0 in
  let dis := replicate slice_len czero in
  if decide (k * max_points_per_centroid < slice_len) then
    '(nx, x_new) ← subsample_training_set d k slice_len slice;
    centroids ← initialize_centroids trainType d (pqBits meta) k nx x_new centroids;
    pq_train_clustering fuel meta nx x_new centroids dis assign [LogSubsample nx]
  else
    centroids ← initialize_centroids trainType d (pqBits meta) k slice_len slice
                  centroids;
    if decide (slice_len < k * min_points_per_centroid) then
      mret (false, centroids, [])
    else
      pq_train_clustering fuel meta slice_len slice centroids dis assign [].
End SpecOrder.

(** ** Output buffers that differ only where nothing was written yet *)

Section Agree.
Context {A : Type}.

(** two tables of [len] elements that hold the same values below [m] *)
Definition agree (len m : nat) (c1 c2 : list A) : Prop :=
  length c1 = len ∧ length c2 = len ∧ ∀ idx, idx < m → c1 !! idx = c2 !! idx.
End Agree.
(** ** Specification-side notions for [calculate_distances] *)

Section NearestSpec.
Context {C D : Type} `{Arith C D} `{Special C D} `{Extern C}.

(** the distance from [x_i] to the centroid [j], as the scan computes it *)
Definition centroid_dist (meta : HnswMetadata) (centroids x_i : list C) (j : nat) : C :=
  hnsw_dist_func (dist_func meta) x_i (row (pqSubdim meta) j centroids) (pqSubdim meta).

(** the facts of [<] on floats that the scan relies on: nothing is below
    itself; what is not below [b] is not below anything below [b]; and
    what is below [b] is below every number (a value equal to itself) that
    is not below [b] *)
Definition lt_irreflexive : Prop := ∀ a, clt a a = false.
Definition lt_not_below : Prop :=
  ∀ a b c, clt a b = false → clt c b = true → clt a c = false.
Definition lt_below_rest : Prop :=
  ∀ a b c, clt c b = true → clt a b = false → ceqb a a = true → clt c a = true.
End NearestSpec.

(** ** Specification-side notions for the hypercube initialisations *)

Section HypercubeSpec.
Context {C D : Type} `{Arith C D}.

(** the mean of the first [n] rows of [x]: the column sums, accumulated
    from zero in row order, each divided by [(float) n] *)
Definition column_mean (d n : nat) (x : list C) : list C :=
  (λ s, cdiv s (c_of_Z (Z.of_nat n))) <$> vsum d ((λ i, row d i x) <$> seq 0 n).

(** the largest absolute value of a coordinate, scanned from zero *)
Definition max_abs (mean : list C) : C :=
  foldl (λ maxm m, if clt maxm (cabs m) then cabs m else maxm) czero mean.

(** corner [i] of the hypercube around [mean]: on the first [nbits]
    coordinates the mean moved by [max_abs mean], up where bit [j] of [i]
    is set and down where it is not *)
Definition hypercube_corner (nbits i : nat) (mean : list C) : list C :=
  imap (λ j m, if decide (j < nbits)
               then cadd m (cmul (c_of_Z (if Nat.testbit i j then 1 else -1))
                                 (max_abs mean))
               else m) mean.
End HypercubeSpec.

Section PcaSpec.
Context {C D : Type} `{Arith C D} `{Special C D}.

(** [c + 1 * sqrt ev * sign * pm], computed in double and rounded to
    float *)
Definition along_axis (c ev pm : C) (sign : Z) : C :=
  d2c (dadd (c2d c)
         (dmul (dmul (dmul (c2d (c_of_Z 1)) (dsqrt (c2d ev))) (d_of_Z sign)) (c2d pm))).

(** corner [i] of the hypercube spanned by the first [nbits] principal
    axes: the mean, moved along axis [k] (row [k] of [PCAMat]) by the
    square root of eigenvalue [k], forward where bit [k] of [i] is set and
    backward where it is not, one axis after the other *)
Definition pca_corner (d nbits i : nat) (pca : PCAMatrix C) : list C :=
  foldl (λ cent '(k, ev),
           zip_with (λ c pm, along_axis c ev pm (if Nat.testbit i k then 1 else -1))
                    cent (row d k (pca_PCAMat pca)))
        (take d (pca_mean pca))
        (imap pair (take nbits (pca_eigenvalues pca))).
End PcaSpec.

(** ** Specification-side notions for the repair count *)

Section SplitCountSpec.
Context {C D : Type} `{Arith C D}.

(** the number of clusters that a histogram shows as empty *)
Definition empty_clusters (hassign : list C) : nat :=
  length (filter (λ h, ceqb h czero = true) hassign).
End SplitCountSpec.


(** Modelled from the spec: a deterministic permutation of [0, n) for the
    collaborator [rand_perm], the rotation by the seed. *)
Definition rotation (n : nat) (s : Z) : list nat :=
  (λ i, (i + Z.to_nat s) mod n) <$> seq 0 n.

(** ** IEEE-754 arithmetic: binary32 for [float], binary64 for [double] *)

Module IEEE.
Definition prec32 : Z := 24.
Definition emax32 : Z := 128.
Definition prec64 : Z := 53.
Definition emax64 : Z := 1024.

Definition f32_of_Z (z : Z) : spec_float := binary_normalize prec32 emax32 z 0 false.
Definition f64_of_Z (z : Z) : spec_float := binary_normalize prec64 emax64 z 0 false.

(** rounding a value of one format to another (round to nearest even) *)
Definition convert (prec emax : Z) (x : spec_float) : spec_float :=
  match x with
  | S754_finite s m e => binary_normalize prec emax (cond_Zopp s (Zpos m)) e s
  | _ => x
  end.

#[export] Instance arith : Arith spec_float spec_float := {|
  c_of_Z := f32_of_Z;
  cadd := SFadd prec32 emax32;
  csub := SFsub prec32 emax32;
  cmul := SFmul prec32 emax32;
  cdiv := SFdiv prec32 emax32;
  clt := SFltb;
  ceqb := SFeqb;
  cabs := SFabs;
  d_of_Z := f64_of_Z;
  EPS := SFdiv prec64 emax64 (f64_of_Z 1) (f64_of_Z 1024);
  min_improvement := SFdiv prec64 emax64 (f64_of_Z 1) (f64_of_Z 10000);
  dadd := SFadd prec64 emax64;
  dsub := SFsub prec64 emax64;
  dmul := SFmul prec64 emax64;
  ddiv := SFdiv prec64 emax64;
  dlt := SFltb;
  c2d := convert prec64 emax64;
  d2c := convert prec32 emax32;
|}.

#[export] Instance special : Special spec_float spec_float := {|
  HUGE_VALF := S754_infinity false;
  HUGE_VAL := S754_infinity false;
  dsqrt := SFsqrt prec64 emax64;
|}.

(** Modelled from the spec: the collaborators of section 6, which are not
    in clustering.cpp. The metric is the squared Euclidean distance, the
    permutation of [0, n) is the rotation by the seed, the random floats
    are the multiples of 1/16 in [0, 1) visited with stride 7, and the PCA
    returns a zero mean, unit eigenvalues and the unit axes. *)
Definition l2sqr (a b : list spec_float) : spec_float :=
  foldl (SFadd prec32 emax32) (f32_of_Z 0)
    (zip_with (λ u v, let e := SFsub prec32 emax32 u v in SFmul prec32 emax32 e e) a b).

#[export] Instance extern : Extern spec_float := {|
  DistFunc := unit;
  hnsw_dist_func := λ _ a b _, l2sqr a b;
  rand_perm := rotation;
  rand_float := λ s t,
    SFdiv prec32 emax32 (f32_of_Z ((s + 7 * Z.of_nat t) mod 16)) (f32_of_Z 16);
  pca_train := λ d nbits n x,
    {| pca_mean := replicate d (f32_of_Z 0);
       pca_eigenvalues := replicate nbits (f32_of_Z 1);
       pca_PCAMat := mjoin ((λ k, (λ j, f32_of_Z (if decide (j = k) then 1 else 0))
                                   <$> seq 0 d) <$> seq 0 nbits) |};
|}.
End IEEE.
(** ** The order of [SFcompare]

    [SFcompare] orders the numbers by sign, then exponent, then mantissa:
    the key of a number, compared lexicographically. *)

Definition sf_key (x : spec_float) : option (Z * Z * Z) :=
  match x with
  | S754_nan => None
  | S754_infinity true => Some (-2, 0, 0)%Z
  | S754_finite true m e => Some (-1, - e, Z.neg m)%Z
  | S754_zero _ => Some (0, 0, 0)%Z
  | S754_finite false m e => Some (1, e, Z.pos m)%Z
  | S754_infinity false => Some (2, 0, 0)%Z
  end.

Definition key_lt (a b : Z * Z * Z) : Prop :=
  (a.1.1 < b.1.1 ∨ (a.1.1 = b.1.1 ∧ (a.1.2 < b.1.2 ∨ (a.1.2 = b.1.2 ∧ a.2 < b.2))))%Z.


(** the sign bit of a float, if it is a number *)
Definition sf_sign (x : spec_float) : option bool :=
  match x with
  | S754_nan => None
  | S754_zero s | S754_infinity s | S754_finite s _ _ => Some s
  end.


(** ** Exact rational arithmetic: [float] and [double] are both [Q] *)

Module Exact.
Definition qlt (a b : Q) : bool :=
  match (a ?= b)%Q with Lt => true | _ => false end.

#[export] Instance arith : Arith Q Q := {|
  c_of_Z := inject_Z;
  cadd := Qplus;
  csub := Qminus;
  cmul := Qmult;
  cdiv := Qdiv;
  clt := qlt;
  ceqb := Qeq_bool;
  cabs := Qabs;
  d_of_Z := inject_Z;
  EPS := (1 # 1024)%Q;
  min_improvement := (1 # 10000)%Q;
  dadd := Qplus;
  dsub := Qminus;
  dmul := Qmult;
  ddiv := Qdiv;
  dlt := qlt;
  c2d := id;
  d2c := id;
|}.

(** Modelled from the spec: the collaborators of section 6 over the
    rationals, as in [IEEE.extern]. *)
Definition l2sqr (a b : list Q) : Q :=
  foldl Qplus 0%Q (zip_with (λ u v, ((u - v) * (u - v))%Q) a b).

#[export] Instance extern : Extern Q := {|
  DistFunc := unit;
  hnsw_dist_func := λ _ a b _, l2sqr a b;
  rand_perm := rotation;
  rand_float := λ s t, (inject_Z ((s + 7 * Z.of_nat t) mod 16) / 16)%Q;
  pca_train := λ d nbits n x,
    {| pca_mean := replicate d 0%Q;
       pca_eigenvalues := replicate nbits 1%Q;
       pca_PCAMat := mjoin ((λ k, (λ j, if decide (j = k) then 1%Q else 0%Q)
                                   <$> seq 0 d) <$> seq 0 nbits) |};
|}.
End Exact.

(** ** Notions of binary32 and binary64 numbers

    What the properties of the IEEE-754 instance are stated with. None of
    these is defined from a function of the program. *)

(** a mantissa shifted left by [z] bits *)
Definition pshl (m : positive) (z : Z) : positive :=
  match z with Zpos p => Pos.iter xO m p | _ => m end.

(** a float above zero: a positive finite number or plus infinity *)
Definition sf_positive (x : spec_float) : bool :=
  match x with
  | S754_finite false _ _ | S754_infinity false => true
  | _ => false
  end.

(** a float that is a finite number or a zero *)
Definition sf_finite (x : spec_float) : bool :=
  match x with
  | S754_finite _ _ _ | S754_zero _ => true
  | _ => false
  end.

(** the rational value of a float: [m * 2 ^ e] with its sign; zero for
    what is not a finite number *)
Definition sf_value (x : spec_float) : Q :=
  match x with
  | S754_finite s m e => (inject_Z (cond_Zopp s (Zpos m)) * 2 ^ e)%Q
  | _ => 0%Q
  end.

(** a histogram entry that is [+0] or a positive normal number of binary32
    (a mantissa of 24 bits), as [compute_centroids] leaves them *)
Definition valid_count (h : spec_float) : bool :=
  match h with
  | S754_zero false => true
  | S754_finite false m e =>
    (Zdigits2 (Zpos m) =? 24)%Z && (-149 <=? e)%Z && (e <=? 104)%Z
  | _ => false
  end.

Definition valid_counts (hassign : list spec_float) : Prop :=
  Forall (λ h, valid_count h = true) hassign.

(** a histogram of binary32 values ([spec_float] also has finite values
    with mantissas that no binary32 number has), and one of finite
    numbers *)
Definition binary32s (hassign : list spec_float) : Prop :=
  Forall (λ h, valid_binary 24 128 h = true) hassign.
Definition finite_counts (hassign : list spec_float) : Prop :=
  Forall (λ h, sf_finite h = true) hassign.

(** the number [m] of training vectors of a cluster as a float holds it:
    [m] itself up to [2 ^ 24 = 16777216], the largest float that counting
    by one reaches *)
Definition float_count (m : nat) : spec_float :=
  IEEE.f32_of_Z (Z.min (Z.of_nat m) (2 ^ 24)).

(** [a * num / 1024]: the product with the double [num / 1024], rounded to
    float *)
Definition times_1024th (num : Z) (a : spec_float) : spec_float :=
  IEEE.convert 24 128
    (SFmul 53 1024 (IEEE.convert 53 1024 a)
       (SFdiv 53 1024 (IEEE.f64_of_Z num) (IEEE.f64_of_Z 1024))).

(** the symmetric perturbation of a row by [1/1024]: the even coordinates
    times [1025/1024] and the odd ones times [1023/1024], and the other
    way round *)
Definition row_up_down (r : list spec_float) : list spec_float :=
  imap (λ j a, times_1024th (if Nat.even j then 1025 else 1023) a) r.
Definition row_down_up (r : list spec_float) : list spec_float :=
  imap (λ j a, times_1024th (if Nat.even j then 1023 else 1025) a) r.

Section FloatSpec.
#[local] Existing Instance IEEE.arith.

(** the mean as float arithmetic gives it: the sum of the rows in the
    given order, times the reciprocal of their number *)
Definition float_mean (d : nat) (rows : list (list spec_float)) : list spec_float :=
  (λ s, SFmul 24 128 s (SFdiv 24 128 (IEEE.f32_of_Z 1) (float_count (length rows))))
    <$> vsum d rows.

(** what holds of the state of [split_clusters] after the rounds
    [0 .. ci) in IEEE arithmetic: the entries of the histogram are binary32
    values; if they were finite numbers on entry they still are, with the
    same total; if they were counts on entry they still are *)
Definition ieee_split_inv (k : nat) (hassign centroids : list spec_float) (ci : nat)
    (st : nat * nat * list spec_float * list spec_float) : Prop :=
  split_inv k hassign centroids ci st ∧ binary32s st.1.2 ∧
  (finite_counts hassign →
   finite_counts st.1.2 ∧ (total sf_value st.1.2 == total sf_value hassign)%Q) ∧
  (valid_counts hassign → valid_counts st.1.2).
End FloatSpec.

(** ** Concrete inputs *)

Section IEEEInputs.
Import IEEE.

(** three training vectors in dimension two, and an assignment *)
Definition x_3x2 : list spec_float := f32_of_Z <$> [1; 2; 5; 8; 3; 4]%Z.
Definition assign_101 : list nat := [1; 0; 1].


(** two centroids in dimension two *)
Definition meta_2_1 : HnswMetadata := {| pqSubdim := 2; pqBits := 1; dist_func := tt |}.
Definition centroids_2x2 : list spec_float := f32_of_Z <$> [0; 0; 10; 10]%Z.
Definition y_3x2 : list spec_float := f32_of_Z <$> [1; 2; 9; 8; 3; 4]%Z.

(** two centroids in dimension one *)
Definition meta_1_1 : HnswMetadata := {| pqSubdim := 1; pqBits := 1; dist_func := tt |}.

(** 513 training values, more than [2 * 256]: the value 100 at the index 0
    and at the indices from 257 on except 420, the value 0 elsewhere. With
    [rotation], the default initialisation picks the rows 209 and 210 of the
    513 (both 0); the subsample is made of the rows 208, ..., 512, 0, ...,
    206 (256 times 0 and 256 times 100), of which the default
    initialisation picks the rows 211 and 212, that is 419 and 420 of the
    original (100 and 0). *)
Definition slice_513 : list spec_float :=
  (λ i, f32_of_Z (if decide (i = 0 ∨ (257 ≤ i ∧ i ≠ 420)) then 100 else 0))
    <$> seq 0 513.
End IEEEInputs.

(** a histogram with two empty clusters, and its table, over the rationals *)
Definition hassign_0503 : list Q := [0; 5; 0; 3]%Q.
Definition centroids_4x2 : list Q := [0; 0; 1; 2; 0; 0; 7; 8]%Q.
Section MoreInputs.
Import IEEE.
(** a training vector with no number in it *)
Definition x_nan_1x2 : list spec_float := [S754_nan; S754_nan].

(** four centroids in dimension one: more bits than dimensions *)
Definition meta_1_2 : HnswMetadata := {| pqSubdim := 1; pqBits := 2; dist_func := tt |}.

(** a histogram of four clusters, two of them empty, and their table *)
Definition counts_0503 : list spec_float := f32_of_Z <$> [0; 5; 0; 3]%Z.
Definition table_4x2 : list spec_float :=
  f32_of_Z <$> [0; 0; 1024; 2048; 0; 0; 7; 8]%Z.

(** two training vectors in dimension two: the mean is (2, 4) *)
Definition x_2x2 : list spec_float := f32_of_Z <$> [1; 2; 3; 6]%Z.

(** 78 training values for two centroids: 39 times 100, a single 1 at the
    index 66, and 38 times 0. With [rotation], the default initialisation
    picks the rows 65 and 66: the centroids start as 0 and 1. *)
Definition x_78 : list spec_float :=
  (λ i, f32_of_Z (if decide (i < 39) then 100 else if decide (i = 66) then 1 else 0))
    <$> seq 0 78.
End MoreInputs.

(** Modelled from the spec: collaborators as in [IEEE.extern], but with a
    PCA that returns the mean (1, 2), the eigenvalues 4 and 9 and the axes
    (1, 1) and (-1, 1). *)
Definition fixed_pca : Extern spec_float := {|
  DistFunc := unit;
  hnsw_dist_func := λ _ a b _, IEEE.l2sqr a b;
  rand_perm := rotation;
  rand_float := λ s t, IEEE.f32_of_Z 0;
  pca_train := λ d nbits n x,
    {| pca_mean := IEEE.f32_of_Z <$> [1; 2]%Z;
       pca_eigenvalues := IEEE.f32_of_Z <$> [4; 9]%Z;
       pca_PCAMat := IEEE.f32_of_Z <$> [1; 1; -1; 1]%Z |};
|}.
(** ** Outcomes and logs of whole runs *)

(** a run that made no access outside a buffer and failed no assertion:
    it returned, or it is still in a donor loop when the fuel ends *)
Definition within_bounds {A : Type} (r : result A) : Prop :=
  match r with
  | Err OutOfBounds | Err AssertionFailed => False
  | Ok _ | Err OutOfFuel => True
  end.

(** two runs that fail alike or return related values *)
Definition result_rel {A B : Type} (R : A → B → Prop) (r1 : result A) (r2 : result B)
  : Prop :=
  match r1, r2 with
  | Ok a, Ok b => R a b
  | Err e1, Err e2 => e1 = e2
  | _, _ => False
  end.

Section LogSpec.
Context {C D : Type} `{Arith C D} `{Extern C}.

(** the lines that a training call leaves on stderr: the subsampling
    notice, if the set was subsampled, then one line per iteration,
    numbered from 0 *)
Definition training_log (meta : HnswMetadata) (slice_len : nat) (objs : list D)
  : list (event D) :=
  (if decide (pq_k meta * max_points_per_centroid < slice_len)
   then [LogSubsample (pq_k meta * max_points_per_centroid)] else [])
  ++ imap (λ j obj, LogIteration j obj) objs.
End LogSpec.


Section TableObjective.
Context {C D : Type} `{Arith C D} `{Special C D} `{Extern C}.

(** the training set that the iterations run on: the subsample, if the
    slice is subsampled, else the slice *)
Definition training_set (meta : HnswMetadata) (slice_len : nat) (slice : list C)
  : result (nat * list C) :=
  if decide (pq_k meta * max_points_per_centroid < slice_len)
  then subsample_training_set (pqSubdim meta) (pq_k meta) slice_len slice
  else mret (slice_len, slice).

(** the objective of a centroid table on a training set: the sum of the
    distances of the training vectors to their nearest centroids *)
Definition table_objective (meta : HnswMetadata) (nx : nat) (x centroids : list C)
  : result D :=
  '(dis, _) ← calculate_distances meta centroids nx x (replicate nx czero)
                (replicate nx 0);
  objective nx dis.
End TableObjective.


(** * Properties *)

(** ** The result monad, buffers and loops *)

Lemma bind_Ok {A B : Type} (m : result A) (f : A → result B) (b : B) :
  m ≫= f = Ok b ↔ ∃ a, m = Ok a ∧ f a = Ok b.
Proof.
  destruct m as [a|e]; simpl.
  - split; [intros Hf; by exists a | by intros (a' & [= <-] & Hf)].
  - split; [done | by intros (a' & [=] & _)].
Qed.

Lemma rd_Ok {A : Type} (buf : list A) (i : nat) (v : A) :
  rd buf i = Ok v ↔ buf !! i = Some v.
Proof. unfold rd. destruct (buf !! i); split; congruence. Qed.

Lemma rd_lt {A : Type} (buf : list A) (i : nat) :
  i < length buf → ∃ v, rd buf i = Ok v ∧ buf !! i = Some v.
Proof.
  intros Hi. destruct (lookup_lt_is_Some_2 buf i Hi) as [v Hv].
  exists v. by rewrite rd_Ok.
Qed.

Lemma rd_ge {A : Type} (buf : list A) (i : nat) :
  length buf ≤ i → rd buf i = Err OutOfBounds.
Proof. intros Hi. unfold rd. by rewrite lookup_ge_None_2. Qed.

Lemma wr_Ok {A : Type} (buf buf' : list A) (i : nat) (v : A) :
  wr buf i v = Ok buf' ↔ i < length buf ∧ buf' = <[i:=v]> buf.
Proof. unfold wr. case_decide; split; try intros [??]; naive_solver. Qed.

Lemma wr_lt {A : Type} (buf : list A) (i : nat) (v : A) :
  i < length buf → wr buf i v = Ok (<[i:=v]> buf).
Proof. intros Hi. by apply wr_Ok. Qed.

Lemma rd_block_Ok {A : Type} (buf blk : list A) (off n : nat) :
  rd_block buf off n = Ok blk ↔ off + n ≤ length buf ∧ blk = take n (drop off buf).
Proof. unfold rd_block. case_decide; split; try intros [??]; naive_solver. Qed.

Lemma rd_block_row {A : Type} (buf : list A) (d i : nat) :
  i * d + d ≤ length buf → rd_block buf (i * d) d = Ok (row d i buf).
Proof. intros Hi. by apply rd_block_Ok. Qed.

Lemma wr_block_Ok {A : Type} (buf buf' blk : list A) (off : nat) :
  wr_block buf off blk = Ok buf' ↔
  off + length blk ≤ length buf ∧
  buf' = take off buf ++ blk ++ drop (off + length blk) buf.
Proof. unfold wr_block. case_decide; split; try intros [??]; naive_solver. Qed.

Lemma length_wr_block {A : Type} (buf buf' blk : list A) (off : nat) :
  wr_block buf off blk = Ok buf' → length buf' = length buf.
Proof.
  intros (Hle & ->)%wr_block_Ok.
  rewrite !length_app, length_take, length_drop. lia.
Qed.

Lemma length_row {A : Type} (buf : list A) (d i : nat) :
  i * d + d ≤ length buf → length (row d i buf) = d.
Proof. intros Hi. unfold row. rewrite length_take, length_drop. lia. Qed.

(** A loop whose body keeps an invariant and cannot fail under it runs to
    its end. *)
Lemma for_range_total {St : Type} (Inv : nat → St → Prop) (lo n : nat)
    (body : nat → St → result St) (s : St) :
  Inv lo s →
  (∀ i s, lo ≤ i < lo + n → Inv i s → ∃ s', body i s = Ok s' ∧ Inv (S i) s') →
  ∃ s', for_range lo n body s = Ok s' ∧ Inv (lo + n) s'.
Proof.
  revert lo s. induction n as [|n IH]; intros lo s Hs Hbody; simpl.
  - exists s. by rewrite Nat.add_0_r.
  - destruct (Hbody lo s) as (s1 & -> & Hs1); [lia | done |]. simpl.
    destruct (IH (S lo) s1) as (s' & Hrun & Hs'); [done | |].
    + intros i s2 Hi. apply Hbody. lia.
    + exists s'. split; [done|]. by replace (lo + S n) with (S lo + n) by lia.
Qed.

(** A loop that ran to its end kept every invariant of its body. *)
Lemma for_range_Ok_inv {St : Type} (Inv : nat → St → Prop) (lo n : nat)
    (body : nat → St → result St) (s s' : St) :
  for_range lo n body s = Ok s' →
  Inv lo s →
  (∀ i s s', lo ≤ i < lo + n → body i s = Ok s' → Inv i s → Inv (S i) s') →
  Inv (lo + n) s'.
Proof.
  revert lo s. induction n as [|n IH]; intros lo s Hrun Hs Hbody; simpl in Hrun.
  - injection Hrun as <-. by rewrite Nat.add_0_r.
  - apply bind_Ok in Hrun as (s1 & Hb & Hrun).
    replace (lo + S n) with (S lo + n) by lia.
    apply (IH (S lo) s1); [done | |].
    + apply (Hbody lo s); [lia | done | done].
    + intros i s2 s3 Hi. apply Hbody. lia.
Qed.

(** Two loops with bodies that agree on the range are the same loop. *)
Lemma for_range_ext {St : Type} (lo n : nat) (f g : nat → St → result St) (s : St) :
  (∀ i s, lo ≤ i < lo + n → f i s = g i s) →
  for_range lo n f s = for_range lo n g s.
Proof.
  revert lo s. induction n as [|n IH]; intros lo s Hfg; simpl; [done|].
  rewrite Hfg by lia. destruct (g lo s) as [s1|e]; simpl; [|done].
  apply IH. intros i s2 Hi. apply Hfg. lia.
Qed.

(** ** The collaborators of the instances meet their contracts *)

(** the rotation by [s] is a permutation of [0, n) *)
Lemma rotation_perm (n : nat) (s : Z) : rotation n s ≡ₚ seq 0 n.
Proof.
  unfold rotation. set (r := Z.to_nat s). clearbody r.
  destruct (decide (n = 0)) as [->|Hn]; [done|].
  apply NoDup_Permutation.
  - apply NoDup_fmap_2_strong; [|apply NoDup_seq].
    intros i j Hi%elem_of_seq Hj%elem_of_seq Heq.
    assert (Hmod : ∀ i, i < n → (i + r) mod n =
              if decide (i + r mod n < n) then i + r mod n else i + r mod n - n).
    { intros a Ha. pose proof (Nat.mod_upper_bound r n Hn).
      rewrite <- Nat.Div0.add_mod_idemp_r.
      case_decide.
      - by rewrite Nat.mod_small.
      - replace (a + r mod n) with ((a + r mod n - n) + 1 * n) by lia.
        rewrite Nat.Div0.mod_add. rewrite Nat.mod_small; lia. }
    rewrite !Hmod in Heq by lia. pose proof (Nat.mod_upper_bound r n Hn).
    repeat case_decide; lia.
  - apply NoDup_seq.
  - intros p. rewrite list_elem_of_fmap, elem_of_seq. split.
    + intros (i & -> & Hi%elem_of_seq). pose proof (Nat.mod_upper_bound (i + r) n Hn).
      lia.
    + intros Hp. pose proof (Nat.mod_upper_bound r n Hn).
      exists (if decide (r mod n ≤ p) then p - r mod n else p + n - r mod n).
      rewrite elem_of_seq. split; [|case_decide; lia].
      rewrite <- Nat.Div0.add_mod_idemp_r. case_decide.
      * replace (p - r mod n + r mod n) with p by lia. by rewrite Nat.mod_small by lia.
      * replace (p + n - r mod n + r mod n) with (p + 1 * n) by lia.
        rewrite Nat.Div0.mod_add. by rewrite Nat.mod_small by lia.
Qed.

(** ** The sign rules hold in exact arithmetic *)

Section ExactLaws.
Import Exact.

Lemma qlt_true (a b : Q) : Exact.qlt a b = true ↔ (a < b)%Q.
Proof.
  unfold Exact.qlt. rewrite Qlt_alt. destruct (a ?= b)%Q; split; congruence.
Qed.

Lemma qlt_false (a b : Q) : Exact.qlt a b = false ↔ (b <= a)%Q.
Proof.
  pose proof (qlt_true a b) as Ht. destruct (Exact.qlt a b).
  - split; [done|]. intros Hle. apply Qle_not_lt in Hle. destruct Hle. by apply Ht.
  - split; [|done]. intros _. apply Qnot_lt_le. intros Hlt. apply Ht in Hlt. done.
Qed.

Lemma qeqb_false (a b : Q) : Qeq_bool a b = false ↔ ¬ (a == b)%Q.
Proof.
  pose proof (Qeq_bool_iff a b) as Ht. destruct (Qeq_bool a b).
  - split; [done|]. intros Hne. destruct Hne. by apply Ht.
  - split; [|done]. intros _ Heq. apply Ht in Heq. done.
Qed.

Lemma exact_draws_not_negative : @draws_not_negative Q Q Exact.arith Exact.extern.
Proof.
  intros t. apply qlt_false. simpl.
  pose proof (Z.mod_pos_bound (seed + 7 * Z.of_nat t) 16 ltac:(lia)) as [Hm _].
  apply Qle_shift_div_l; [reflexivity|]. rewrite Qmult_0_l.
  change 0%Q with (inject_Z 0). by rewrite <- Zle_Qle.
Qed.

Lemma exact_accepted_above_one : @accepted_above_one Q Q Exact.arith.
Proof.
  intros r h n k Hr%qlt_false Hacc%qlt_true.
  unfold split_prob, czero, half in *. simpl in *. unfold id in *.
  set (m := inject_Z (size_sub n k)) in *.
  assert (Hm : (0 <= m)%Q).
  { unfold m, size_sub. change 0%Q with (inject_Z 0). rewrite <- Zle_Qle.
    apply Z.mod_pos_bound. lia. }
  change (inject_Z 0) with 0%Q in *.
  assert (Hp : (0 < (h - inject_Z 1) / m)%Q) by (apply (Qle_lt_trans _ r); assumption).
  assert (Hm' : ¬ (m == 0)%Q).
  { intros Hm0. rewrite Hm0 in Hp. unfold Qdiv in Hp.
    change (/ 0)%Q with 0%Q in Hp. rewrite Qmult_0_r in Hp. by apply Qlt_irrefl in Hp. }
  assert (Hh : (1 < h)%Q).
  { assert (0 < (h - inject_Z 1) / m * m)%Q as Hpm.
    { apply Qmult_lt_0_compat; [done|]. apply Qle_lteq in Hm as [?|Hm]; [done|].
      by destruct Hm'. }
    rewrite Qmult_comm, Qmult_div_r in Hpm by done.
    change (inject_Z 1) with 1%Q in Hpm. lra. }
  rewrite qlt_true, !qeqb_false. change (inject_Z 0) with 0%Q.
  change (inject_Z 2) with 2%Q.
  assert (h / 2 == h * (1 # 2))%Q as -> by (unfold Qdiv; reflexivity).
  repeat split; lra.
Qed.

Lemma exact_positive_not_zero : @positive_not_zero Q Q Exact.arith.
Proof.
  intros h Hpos%qlt_true. apply qeqb_false. unfold czero in *. simpl in *.
  change (inject_Z 0) with 0%Q in *. lra.
Qed.

End ExactLaws.

(** ** Binary floating-point numbers: rounding, signs and values

    Facts about the operations of the Standard Library's [SpecFloat] that
    the properties of the IEEE-754 instance rest on. *)

Section FloatingPoint.
Local Open Scope Z_scope.

(** *** Signs *)

Lemma binary_round_aux_sign (prec emax : Z) (sx : bool) (mx ex : Z) (lx : location)
    (s : bool) :
  sf_sign (binary_round_aux prec emax sx mx ex lx) = Some s → s = sx.
Proof.
  unfold binary_round_aux.
  destruct (shr_fexp prec emax mx ex lx) as [mrs' e'].
  destruct (shr_fexp prec emax _ e' loc_Exact) as [mrs'' e''].
  destruct (shr_m mrs''); simpl; [congruence| |done].
  destruct (Z.leb _ _); simpl; congruence.
Qed.

Lemma binary_normalize_sign (prec emax m e : Z) (szero s : bool) :
  sf_sign (binary_normalize prec emax m e szero) = Some s →
  s = match m with Z0 => szero | Zpos _ => false | Zneg _ => true end.
Proof.
  destruct m as [|p|p]; simpl; [congruence|..];
    unfold binary_round; destruct (shl_align _ _ _); apply binary_round_aux_sign.
Qed.

Lemma convert_sign (prec emax : Z) (x : spec_float) (s : bool) :
  sf_sign (IEEE.convert prec emax x) = Some s → sf_sign x = Some s.
Proof.
  destruct x as [sx|sx| |sx m e]; simpl; try done.
  intros ->%binary_normalize_sign. by destruct sx.
Qed.

Lemma SFdiv_sign (prec emax : Z) (x y : spec_float) (s : bool) :
  sf_sign (SFdiv prec emax x y) = Some s →
  ∃ sx sy, sf_sign x = Some sx ∧ sf_sign y = Some sy ∧ s = xorb sx sy.
Proof.
  destruct x as [sx|sx| |sx mx ex], y as [sy|sy| |sy my ey]; simpl; try done;
    try (intros [= <-]; by exists sx, sy).
  destruct (SFdiv_core_binary _ _ _ _ _ _) as [[mz ez] lz].
  intros ->%binary_round_aux_sign. by exists sx, sy.
Qed.

Lemma f32_of_Z_sign (z : Z) (s : bool) :
  (0 ≤ z)%Z → sf_sign (IEEE.f32_of_Z z) = Some s → s = false.
Proof. intros Hz ->%binary_normalize_sign. by destruct z. Qed.

(** a number that is not below zero is not below a number with the sign
    bit set, nor below what is not a number *)
Lemma SFltb_negative (r p : spec_float) :
  SFltb r (IEEE.f32_of_Z 0) = false → sf_sign p ≠ Some false → SFltb r p = false.
Proof.
  destruct r as [[]|[]| |[] mr er], p as [[]|[]| |[] mp ep]; simpl; done.
Qed.

(** *** Exact rounding *)

Lemma Zpos_iter_xO (m p : positive) : Zpos (Pos.iter xO m p) = Zpos m * 2 ^ Zpos p.
Proof.
  induction p as [|p IH] using Pos.peano_ind.
  - simpl. lia.
  - rewrite Pos.iter_succ, Pos2Z.inj_xO, IH, Pos2Z.inj_succ, Z.pow_succ_r by lia. lia.
Qed.

Lemma Zpos_pshl (m : positive) (z : Z) : 0 ≤ z → Zpos (pshl m z) = Zpos m * 2 ^ z.
Proof.
  destruct z as [|p|p]; intros Hz; simpl; [lia| |lia]. apply Zpos_iter_xO.
Qed.

Lemma pshl_0 (m : positive) : pshl m 0 = m.
Proof. done. Qed.

Lemma pshl_pshl (m : positive) (a b : Z) :
  0 ≤ a → 0 ≤ b → pshl (pshl m a) b = pshl m (a + b).
Proof.
  intros Ha Hb. apply Pos2Z.inj. rewrite !Zpos_pshl by lia.
  rewrite Z.pow_add_r by lia. lia.
Qed.

Lemma digits2_pos_iter_xO (m p : positive) :
  digits2_pos (Pos.iter xO m p) = (digits2_pos m + p)%positive.
Proof.
  induction p as [|p IH] using Pos.peano_ind.
  - simpl. lia.
  - rewrite Pos.iter_succ. simpl. rewrite IH. lia.
Qed.

Lemma Zdigits2_pshl (m : positive) (z : Z) :
  0 ≤ z → Zdigits2 (Zpos (pshl m z)) = Zdigits2 (Zpos m) + z.
Proof.
  destruct z as [|p|p]; intros Hz; simpl; [lia| |lia].
  rewrite digits2_pos_iter_xO. lia.
Qed.

Lemma digits2_pos_size (m : positive) : digits2_pos m = Pos.size m.
Proof. induction m as [m IH|m IH|]; simpl; congruence. Qed.

Lemma Zdigits2_upper (m : positive) : Zpos m < 2 ^ Zdigits2 (Zpos m).
Proof.
  simpl. rewrite digits2_pos_size. pose proof (Pos.size_gt m) as Hgt.
  apply Pos2Z.pos_lt_pos in Hgt. by rewrite Pos2Z.inj_pow in Hgt.
Qed.

Lemma Zdigits2_lower (m : positive) : 2 ^ (Zdigits2 (Zpos m) - 1) ≤ Zpos m.
Proof.
  simpl. rewrite digits2_pos_size. pose proof (Pos.size_le m) as Hle.
  apply Pos2Z.pos_le_pos in Hle. rewrite Pos2Z.inj_pow in Hle.
  change (Zpos m~0) with (2 * Zpos m) in Hle.
  assert (Hp : 2 ^ Zpos (Pos.size m) = 2 * 2 ^ (Zpos (Pos.size m) - 1)).
  { rewrite <- Z.pow_succ_r by lia. f_equal. lia. }
  change (Zpos 2) with 2 in Hle. lia.
Qed.

(** the number of bits of a mantissa, from its bounds *)
Lemma Zdigits2_bounds (m : positive) (d : Z) :
  2 ^ (d - 1) ≤ Zpos m < 2 ^ d → Zdigits2 (Zpos m) = d.
Proof.
  intros [Hlo Hhi].
  pose proof (Zdigits2_upper m) as Hup. pose proof (Zdigits2_lower m) as Hdown.
  set (sz := Zdigits2 (Zpos m)) in *.
  assert (0 < sz) by (unfold sz; simpl; lia).
  destruct (Z.lt_trichotomy sz d) as [Hlt|[Heq|Hgt']]; [|done|].
  - assert (2 ^ sz ≤ 2 ^ (d - 1)) by (apply Z.pow_le_mono_r; lia). lia.
  - destruct (Z.le_gt_cases 0 d).
    + assert (2 ^ d ≤ 2 ^ (sz - 1)) by (apply Z.pow_le_mono_r; lia). lia.
    + rewrite (Z.pow_neg_r 2 d) in Hhi by lia. lia.
Qed.

(** SpecFloat's own iteration is [Pos.iter] *)
Lemma iter_pos_iter {A : Type} (f : A → A) (p : positive) (x : A) :
  @SpecFloat.iter_pos A f p x = Pos.iter f x p.
Proof.
  revert x. induction p as [p IH|p IH|]; intros x; simpl; [|by rewrite !IH|done].
  rewrite !IH. by rewrite <- !Pos.iter_swap.
Qed.

(** shifting right what was shifted left loses nothing *)
Lemma shr_1_exact (q : positive) :
  shr_1 (Build_shr_record (Zpos (xO q)) false false) = Build_shr_record (Zpos q) false false.
Proof. done. Qed.

Lemma iter_shr_1_exact (q p : positive) :
  SpecFloat.iter_pos shr_1 p (Build_shr_record (Zpos (Pos.iter xO q p)) false false)
  = Build_shr_record (Zpos q) false false.
Proof.
  rewrite iter_pos_iter. induction p as [|p IH] using Pos.peano_ind.
  - done.
  - rewrite Pos.iter_succ_r, (Pos.iter_succ _ _ xO). simpl. exact IH.
Qed.

(** rounding a mantissa that fits leaves it as it is *)
Lemma binary_round_aux_fits (prec emax : Z) (s : bool) (m : positive) (e : Z) :
  fexp prec emax (Zdigits2 (Zpos m) + e) ≤ e → e ≤ emax - prec →
  binary_round_aux prec emax s (Zpos m) e loc_Exact = S754_finite s m e.
Proof.
  intros Hf He. unfold binary_round_aux, shr_fexp, shr.
  cbn [shr_record_of_loc].
  destruct (fexp prec emax (Zdigits2 (Zpos m) + e) - e) as [|p|p] eqn:Hn; [|lia|];
    cbn [shr_m loc_of_shr_record round_nearest_even shr_record_of_loc];
    rewrite Hn; cbn [shr_m]; by rewrite (proj2 (Z.leb_le _ _) He).
Qed.

(** rounding a mantissa with [p] bits too many, all of them zero, drops
    them *)
Lemma binary_round_aux_drop (prec emax : Z) (s : bool) (q p : positive) (e : Z) :
  fexp prec emax (Zdigits2 (Zpos (Pos.iter xO q p)) + e) - e = Zpos p →
  e + Zpos p ≤ emax - prec →
  binary_round_aux prec emax s (Zpos (Pos.iter xO q p)) e loc_Exact
  = S754_finite s q (e + Zpos p).
Proof.
  intros Hn He. unfold binary_round_aux, shr_fexp, shr.
  cbn [shr_record_of_loc]. rewrite Hn, iter_shr_1_exact.
  cbn [shr_m loc_of_shr_record round_nearest_even shr_record_of_loc].
  assert (Hd : Zdigits2 (Zpos (Pos.iter xO q p)) = Zdigits2 (Zpos q) + Zpos p).
  { apply (Zdigits2_pshl q (Zpos p)). lia. }
  replace (fexp prec emax (Zdigits2 (Zpos q) + (e + Zpos p)) - (e + Zpos p)) with 0
    by (rewrite Hd in Hn; replace (Zdigits2 (Zpos q) + (e + Zpos p))
          with (Zdigits2 (Zpos q) + Zpos p + e) by lia; lia).
  cbn [shr_m]. by rewrite (proj2 (Z.leb_le _ _) He).
Qed.

(** rounding a value whose mantissa has no more than [prec] bits gives the
    value, with the mantissa moved to the exponent of the format; the
    value may come with its mantissa shifted left by any [t] *)
Lemma binary_round_exact (prec emax : Z) (s : bool) (m : positive) (e t : Z) :
  let f := fexp prec emax (Zdigits2 (Zpos m) + e) in
  0 ≤ t → f ≤ e → f ≤ emax - prec →
  binary_round prec emax s (pshl m t) (e - t) = S754_finite s (pshl m (e - f)) f.
Proof.
  intros f Ht Hfe Hfmax. unfold binary_round.
  change (Zpos (digits2_pos (pshl m t))) with (Zdigits2 (Zpos (pshl m t))).
  rewrite Zdigits2_pshl by done.
  replace (Zdigits2 (Zpos m) + t + (e - t)) with (Zdigits2 (Zpos m) + e) by lia.
  fold f. unfold shl_align.
  destruct (f - (e - t)) as [|p|p] eqn:Hd.
  - assert (t = e - f) as -> by lia.
    replace (e - (e - f)) with f by lia.
    apply binary_round_aux_fits; [|done].
    rewrite Zdigits2_pshl by lia.
    replace (Zdigits2 (Zpos m) + (e - f) + f) with (Zdigits2 (Zpos m) + e) by lia.
    fold f. lia.
  - assert (Hsplit : pshl m t = Pos.iter xO (pshl m (e - f)) p).
    { change (Pos.iter xO (pshl m (e - f)) p) with (pshl (pshl m (e - f)) (Zpos p)).
      rewrite pshl_pshl by lia. f_equal. lia. }
    rewrite Hsplit.
    replace f with (e - t + Zpos p) at 3 by lia.
    apply binary_round_aux_drop; [|lia].
    rewrite <- Hsplit. rewrite Zdigits2_pshl by done.
    replace (Zdigits2 (Zpos m) + t + (e - t)) with (Zdigits2 (Zpos m) + e) by lia.
    fold f. lia.
  - change (Pos.iter xO (pshl m t) p) with (pshl (pshl m t) (Zpos p)).
    rewrite pshl_pshl by lia.
    replace (t + Zpos p) with (e - f) by lia.
    apply binary_round_aux_fits; [|done].
    rewrite Zdigits2_pshl by lia.
    replace (Zdigits2 (Zpos m) + (e - f) + f) with (Zdigits2 (Zpos m) + e) by lia.
    fold f. lia.
Qed.

(** *** Integers as floats *)

Lemma fexp32 (e : Z) : -125 ≤ e → fexp 24 128 e = e - 24.
Proof. unfold fexp, emin. lia. Qed.

Lemma fexp64 (e : Z) : -1021 ≤ e → fexp 53 1024 e = e - 53.
Proof. unfold fexp, emin. lia. Qed.

Lemma Zdigits2_pos (m : positive) : 0 < Zdigits2 (Zpos m).
Proof. simpl. lia. Qed.

Lemma fst_shl_align (mx : positive) (ex ez : Z) :
  ez ≤ ex → fst (shl_align mx ex ez) = pshl mx (ex - ez).
Proof.
  intros He. unfold shl_align.
  destruct (ez - ex) as [|p|p] eqn:Hd; simpl.
  - by replace (ex - ez) with 0 by lia.
  - lia.
  - by replace (ex - ez) with (Zpos p) by lia.
Qed.

(** an integer with at most 24 bits, as a float and as a double *)
Lemma f32_of_Z_pos (m : positive) :
  Zdigits2 (Zpos m) ≤ 24 →
  IEEE.f32_of_Z (Zpos m)
  = S754_finite false (pshl m (24 - Zdigits2 (Zpos m))) (Zdigits2 (Zpos m) - 24).
Proof.
  intros Hd. pose proof (Zdigits2_pos m).
  unfold IEEE.f32_of_Z, IEEE.prec32, IEEE.emax32, binary_normalize.
  pose proof (binary_round_exact 24 128 false m 0 0) as Hr. cbv zeta in Hr.
  rewrite Z.add_0_r, fexp32 in Hr by lia.
  rewrite pshl_0, Z.sub_0_r in Hr. rewrite Hr by lia. repeat (f_equal; try lia).
Qed.

Lemma f64_of_Z_pos (m : positive) :
  Zdigits2 (Zpos m) ≤ 53 →
  IEEE.f64_of_Z (Zpos m)
  = S754_finite false (pshl m (53 - Zdigits2 (Zpos m))) (Zdigits2 (Zpos m) - 53).
Proof.
  intros Hd. pose proof (Zdigits2_pos m).
  unfold IEEE.f64_of_Z, IEEE.prec64, IEEE.emax64, binary_normalize.
  pose proof (binary_round_exact 53 1024 false m 0 0) as Hr. cbv zeta in Hr.
  rewrite Z.add_0_r, fexp64 in Hr by lia.
  rewrite pshl_0, Z.sub_0_r in Hr. rewrite Hr by lia. repeat (f_equal; try lia).
Qed.

(** the promotion of an integer float and the conversion back are exact *)
Lemma convert64_f32_of_Z (m : positive) :
  Zdigits2 (Zpos m) ≤ 24 →
  IEEE.convert 53 1024 (IEEE.f32_of_Z (Zpos m)) = IEEE.f64_of_Z (Zpos m).
Proof.
  intros Hd. pose proof (Zdigits2_pos m).
  rewrite f32_of_Z_pos, f64_of_Z_pos by lia.
  unfold IEEE.convert, binary_normalize. cbn [cond_Zopp].
  pose proof (binary_round_exact 53 1024 false m 0 (24 - Zdigits2 (Zpos m))) as Hr.
  cbv zeta in Hr. rewrite Z.add_0_r, fexp64 in Hr by lia.
  replace (Zdigits2 (Zpos m) - 24) with (0 - (24 - Zdigits2 (Zpos m))) by lia.
  rewrite Hr by lia. repeat (f_equal; try lia).
Qed.

Lemma convert32_f64_of_Z (m : positive) :
  Zdigits2 (Zpos m) ≤ 24 →
  IEEE.convert 24 128 (IEEE.f64_of_Z (Zpos m)) = IEEE.f32_of_Z (Zpos m).
Proof.
  intros Hd. pose proof (Zdigits2_pos m).
  rewrite f32_of_Z_pos, f64_of_Z_pos by lia.
  unfold IEEE.convert, binary_normalize. cbn [cond_Zopp].
  pose proof (binary_round_exact 24 128 false m 0 (53 - Zdigits2 (Zpos m))) as Hr.
  cbv zeta in Hr. rewrite Z.add_0_r, fexp32 in Hr by lia.
  replace (Zdigits2 (Zpos m) - 53) with (0 - (53 - Zdigits2 (Zpos m))) by lia.
  rewrite Hr by lia. repeat (f_equal; try lia).
Qed.

(** adding one to an integer double *)
Lemma SFadd64_one (m : positive) :
  Zdigits2 (Zpos (m + 1)) ≤ 53 →
  SFadd 53 1024 (IEEE.f64_of_Z (Zpos m)) (IEEE.f64_of_Z 1)
  = IEEE.f64_of_Z (Zpos (m + 1)).
Proof.
  intros Hd'. pose proof (Zdigits2_pos m) as Hd0.
  assert (Hd : Zdigits2 (Zpos m) ≤ 53).
  { pose proof (Zdigits2_lower m). pose proof (Zdigits2_upper (m + 1)).
    destruct (Z.le_gt_cases (Zdigits2 (Zpos m)) 53); [done|].
    assert (2 ^ 53 ≤ 2 ^ (Zdigits2 (Zpos m) - 1)) by (apply Z.pow_le_mono_r; lia).
    assert (2 ^ Zdigits2 (Zpos (m + 1)) ≤ 2 ^ 53) by (apply Z.pow_le_mono_r; lia).
    lia. }
  rewrite (f64_of_Z_pos m), (f64_of_Z_pos (m + 1)) by done.
  change (IEEE.f64_of_Z 1) with (S754_finite false (pshl 1 52) (-52)).
  unfold SFadd. cbn [cond_Zopp].
  replace (Z.min (Zdigits2 (Zpos m) - 53) (-52)) with (-52) by lia.
  rewrite !fst_shl_align by lia.
  rewrite pshl_pshl by lia.
  replace (53 - Zdigits2 (Zpos m) + (Zdigits2 (Zpos m) - 53 - -52)) with 52 by lia.
  replace (-52 - -52) with 0 by lia. rewrite pshl_0.
  assert (Hsum : Zpos (pshl m 52) + Zpos (pshl 1 52) = Zpos (pshl (m + 1) 52)).
  { rewrite !Zpos_pshl by lia. lia. }
  rewrite Hsum. unfold binary_normalize.
  pose proof (binary_round_exact 53 1024 false (m + 1) 0 52) as Hr.
  cbv zeta in Hr. rewrite Z.add_0_r, fexp64 in Hr by (pose proof (Zdigits2_pos (m + 1)); lia).
  change (-52) with (0 - 52) at 1. rewrite Hr by (pose proof (Zdigits2_pos (m + 1)); lia).
  repeat (f_equal; try lia).
Qed.

Lemma Zdigits2_le (m : positive) (d : Z) :
  0 ≤ d → Zpos m < 2 ^ d → Zdigits2 (Zpos m) ≤ d.
Proof.
  intros Hd Hm. pose proof (Zdigits2_lower m). pose proof (Zdigits2_pos m).
  destruct (Z.le_gt_cases (Zdigits2 (Zpos m)) d); [done|].
  assert (2 ^ d ≤ 2 ^ (Zdigits2 (Zpos m) - 1)) by (apply Z.pow_le_mono_r; lia). lia.
Qed.

(** [h += 1.0] on a float that holds the integer [z] *)
Lemma incr_f32_of_Z (z : Z) :
  0 ≤ z < 2 ^ 24 - 1 →
  IEEE.convert 24 128 (SFadd 53 1024 (IEEE.convert 53 1024 (IEEE.f32_of_Z z))
                         (IEEE.f64_of_Z 1))
  = IEEE.f32_of_Z (z + 1).
Proof.
  intros [Hz0 Hz]. destruct z as [|m|m]; [done| |lia].
  assert (Hd : Zdigits2 (Zpos m) ≤ 24) by (apply Zdigits2_le; lia).
  assert (Hd' : Zdigits2 (Zpos (m + 1)) ≤ 24) by (apply Zdigits2_le; lia).
  rewrite convert64_f32_of_Z, SFadd64_one, convert32_f64_of_Z by lia.
  f_equal.
Qed.

(** *** Halving a float, and floats above zero *)

(** halving a normal float *)
Lemma SFdiv32_two (m : positive) (e : Z) :
  Zdigits2 (Zpos m) = 24 → -147 ≤ e ≤ 105 →
  SFdiv 24 128 (S754_finite false m e) (IEEE.f32_of_Z 2) = S754_finite false m (e - 1).
Proof.
  intros Hd He.
  change (IEEE.f32_of_Z 2) with (S754_finite false 8388608 (-22)).
  unfold SFdiv, SFdiv_core_binary. rewrite Hd.
  change (Zdigits2 8388608) with 24.
  replace (24 + e - (24 + -22)) with (e + 22) by lia. rewrite fexp32 by lia.
  replace (Z.min (e + 22 - 24) (e - -22)) with (e - 2) by lia.
  replace (e - -22 - (e - 2)) with 24 by lia.
  rewrite Z.shiftl_mul_pow2 by lia.
  destruct (Z.div_eucl (Zpos m * 2 ^ 24) 8388608) as [q r] eqn:Hdiv.
  assert (Hq : q = Zpos (xO m) ∧ r = 0).
  { pose proof (Z_div_mod (Zpos m * 2 ^ 24) 8388608 ltac:(lia)) as Hdm.
    rewrite Hdiv in Hdm. destruct Hdm as [Heq Hr].
    change (2 ^ 24) with (2 * 8388608) in Heq.
    rewrite Pos2Z.inj_xO. lia. }
  destruct Hq as [-> ->]. cbn [xorb].
  change (new_location 8388608 0) with loc_Exact.
  change (xO m) with (Pos.iter xO m 1).
  replace (e - 1) with (e - 2 + 1) by lia.
  apply binary_round_aux_drop; [|lia].
  change (Pos.iter xO m 1) with (pshl m 1). rewrite Zdigits2_pshl, Hd by lia.
  rewrite fexp32 by lia. lia.
Qed.

(** taking the half away from a normal float *)
Lemma SFsub32_half (m : positive) (e : Z) :
  Zdigits2 (Zpos m) = 24 → -148 ≤ e ≤ 105 →
  SFsub 24 128 (S754_finite false m e) (S754_finite false m (e - 1))
  = S754_finite false m (e - 1).
Proof.
  intros Hd He. unfold SFsub. cbn [cond_Zopp].
  replace (Z.min e (e - 1)) with (e - 1) by lia.
  rewrite !fst_shl_align by lia.
  replace (e - (e - 1)) with 1 by lia. replace (e - 1 - (e - 1)) with 0 by lia.
  assert (Hdiff : Zpos (pshl m 1) - Zpos (pshl m 0) = Zpos m).
  { rewrite !Zpos_pshl by lia. lia. }
  rewrite Hdiff. unfold binary_normalize.
  pose proof (binary_round_exact 24 128 false m (e - 1) 0) as Hr. cbv zeta in Hr.
  rewrite Hd, fexp32 in Hr by lia. rewrite pshl_0, Z.sub_0_r in Hr.
  rewrite Hr by lia. replace (e - 1 - (24 + (e - 1) - 24)) with 0 by lia.
  rewrite pshl_0. f_equal. lia.
Qed.

Lemma sf_positive_sign (x : spec_float) : sf_positive x = true → sf_sign x = Some false.
Proof. by destruct x as [[]|[]| |[] m e]. Qed.

Lemma SFltb_positive (r p : spec_float) :
  SFltb r (IEEE.f32_of_Z 0) = false → SFltb r p = true → sf_positive p = true.
Proof. by destruct r as [[]|[]| |[] mr er], p as [[]|[]| |[] mp ep]. Qed.

Lemma binary_round_sign (prec emax : Z) (sx : bool) (m : positive) (e : Z) (s : bool) :
  sf_sign (binary_round prec emax sx m e) = Some s → s = sx.
Proof. unfold binary_round. destruct (shl_align _ _ _). apply binary_round_aux_sign. Qed.

Lemma binary_normalize_positive (prec emax z e : Z) (szero : bool) :
  sf_positive (binary_normalize prec emax z e szero) = true → 0 < z.
Proof.
  destruct z as [|p|p]; simpl; [by destruct szero|lia|].
  by intros Hp%sf_positive_sign%binary_round_sign.
Qed.

Lemma convert_positive (prec emax : Z) (x : spec_float) :
  sf_positive (IEEE.convert prec emax x) = true → sf_positive x = true.
Proof.
  destruct x as [[]|[]| |[] m e]; simpl; try done.
  by intros ?%sf_positive_sign%binary_round_sign.
Qed.

(** *** The counts of the histogram *)

Lemma valid_count_cases (h : spec_float) :
  valid_count h = true →
  h = S754_zero false ∨
  ∃ m e, h = S754_finite false m e ∧ Zdigits2 (Zpos m) = 24 ∧ -149 ≤ e ≤ 104.
Proof.
  destruct h as [[]|[]| |[] m e]; cbn [valid_count]; try done; [by left|].
  intros [[Hd%Z.eqb_eq Hlo%Z.leb_le]%andb_true_iff Hhi%Z.leb_le]%andb_true_iff.
  right. exists m, e. repeat split; done.
Qed.

Lemma valid_count_finite (m : positive) (e : Z) :
  Zdigits2 (Zpos m) = 24 → -149 ≤ e ≤ 104 → valid_count (S754_finite false m e) = true.
Proof.
  intros Hd He. cbn [valid_count]. rewrite Hd.
  replace (-149 <=? e) with true by (symmetry; apply Z.leb_le; lia).
  replace (e <=? 104) with true by (symmetry; apply Z.leb_le; lia). done.
Qed.

(** a quotient above zero by a divisor that is not negative has a dividend
    above zero *)
Lemma SFdiv_positive (prec emax : Z) (x y : spec_float) :
  sf_positive (SFdiv prec emax x y) = true → sf_sign y ≠ Some true →
  sf_positive x = true.
Proof.
  destruct x as [[]|[]| |[] mx ex], y as [[]|[]| |[] my ey]; simpl; try done.
  destruct (SFdiv_core_binary _ _ _ _ _ _) as [[mz ez] lz].
  by intros ?%sf_positive_sign%binary_round_aux_sign.
Qed.

Lemma sf_value_half (m : positive) (e : Z) :
  (sf_value (S754_finite false m (e - 1)) + sf_value (S754_finite false m (e - 1))
   == sf_value (S754_finite false m e))%Q.
Proof.
  cbn [sf_value cond_Zopp].
  replace e with (e - 1 + 1) at 3 by lia.
  rewrite Qpower_plus by done. change (2 ^ 1)%Q with 2%Q. ring.
Qed.

Lemma valid_binary32_finite (s : bool) (m : positive) (e : Z) :
  valid_binary 24 128 (S754_finite s m e) = true →
  (Zdigits2 (Zpos m) = 24 ∧ -149 ≤ e ≤ 104) ∨ (Zdigits2 (Zpos m) < 24 ∧ e = -149).
Proof.
  cbn [valid_binary]. unfold bounded, canonical_mantissa.
  intros [Hc%Z.eqb_eq Hb%Z.leb_le]%andb_true_iff.
  change (Zpos (digits2_pos m)) with (Zdigits2 (Zpos m)) in Hc.
  unfold fexp, emin in Hc. lia.
Qed.

Lemma valid_count_binary32 (h : spec_float) :
  valid_count h = true → valid_binary 24 128 h = true ∧ sf_finite h = true.
Proof.
  intros [->|(m & e & -> & Hd & He)]%valid_count_cases; [done|].
  split; [|done]. cbn [valid_binary]. unfold bounded, canonical_mantissa.
  change (Zpos (digits2_pos m)) with (Zdigits2 (Zpos m)).
  apply andb_true_iff. split; [apply Z.eqb_eq|apply Z.leb_le]; unfold fexp, emin; lia.
Qed.

(** the promotion to double of a float with a mantissa of [d] bits *)
Lemma convert64_finite (s : bool) (m : positive) (e : Z) :
  Zdigits2 (Zpos m) ≤ 24 → -149 ≤ e ≤ 104 →
  IEEE.convert 53 1024 (S754_finite s m e)
  = S754_finite s (pshl m (53 - Zdigits2 (Zpos m))) (e + Zdigits2 (Zpos m) - 53).
Proof.
  intros Hd He. pose proof (Zdigits2_pos m) as Hpos.
  unfold IEEE.convert, binary_normalize.
  pose proof (binary_round_exact 53 1024 s m e 0) as Hr. cbv zeta in Hr.
  rewrite fexp64 in Hr by lia. rewrite pshl_0, Z.sub_0_r in Hr.
  destruct s; cbn [cond_Zopp]; [change (- Z.pos m) with (Z.neg m); cbv iota|];
    rewrite Hr by lia; repeat (f_equal; try lia).
Qed.

(** [h - 1.0] is above zero only for a positive float [h] of at least one:
    the number of bits of its mantissa and its exponent add up to at
    least one *)
Lemma SFsub64_one_above (m : positive) (e : Z) :
  Zdigits2 (Zpos m) ≤ 24 → -149 ≤ e ≤ 104 →
  sf_positive (SFsub 53 1024 (IEEE.convert 53 1024 (S754_finite false m e))
                 (IEEE.f64_of_Z 1)) = true →
  1 ≤ Zdigits2 (Zpos m) + e.
Proof.
  intros Hd He. pose proof (Zdigits2_pos m) as Hpos.
  rewrite convert64_finite by done.
  change (IEEE.f64_of_Z 1) with (S754_finite false (pshl 1 52) (-52)).
  unfold SFsub. cbn [cond_Zopp]. intros Hp%binary_normalize_positive.
  destruct (Z.le_gt_cases 1 (Zdigits2 (Zpos m) + e)) as [|Hlt]; [done|].
  replace (Z.min (e + Zdigits2 (Zpos m) - 53) (-52))
    with (e + Zdigits2 (Zpos m) - 53) in Hp by lia.
  rewrite !fst_shl_align, !pshl_pshl, !Zpos_pshl in Hp by lia.
  pose proof (Zdigits2_upper m) as Hup.
  set (d := Zdigits2 (Zpos m)) in *.
  replace (53 - d + (e + d - 53 - (e + d - 53))) with (53 - d) in Hp by lia.
  assert (Hpow : 2 ^ 53 ≤ 2 ^ (52 + (-52 - (e + d - 53)))) by (apply Z.pow_le_mono_r; lia).
  assert (Hsplit : 2 ^ 53 = 2 ^ d * 2 ^ (53 - d)).
  { rewrite <- Z.pow_add_r by lia. f_equal. lia. }
  assert (0 < 2 ^ (53 - d)) by (apply Z.pow_pos_nonneg; lia).
  nia.
Qed.

(** [h - 1.0] is not above zero for a float [h] with the sign bit set *)
Lemma SFsub64_one_negative (m : positive) (e : Z) :
  sf_positive (SFsub 53 1024 (IEEE.convert 53 1024 (S754_finite true m e))
                 (IEEE.f64_of_Z 1)) = false.
Proof.
  destruct (IEEE.convert 53 1024 (S754_finite true m e)) as [s|s| |s m' e'] eqn:Hr.
  - pose proof (convert_sign 53 1024 (S754_finite true m e) s) as Hs.
    rewrite Hr in Hs. by injection (Hs eq_refl) as <-.
  - pose proof (convert_sign 53 1024 (S754_finite true m e) s) as Hs.
    rewrite Hr in Hs. by injection (Hs eq_refl) as <-.
  - done.
  - pose proof (convert_sign 53 1024 (S754_finite true m e) s) as Hs.
    rewrite Hr in Hs. injection (Hs eq_refl) as <-.
    change (IEEE.f64_of_Z 1) with (S754_finite false (pshl 1 52) (-52)).
    destruct (sf_positive _) eqn:Hp; [|done]. unfold SFsub in Hp.
    apply binary_normalize_positive in Hp. cbn [cond_Zopp] in Hp. lia.
Qed.

Section IeeeSplit.
Context {E : Extern spec_float}.
#[local] Existing Instance IEEE.arith.

(** a binary32 value accepted as donor is a normal number of at least one,
    or plus infinity *)
Lemma accepted_donor (r h : spec_float) (n k : nat) :
  valid_binary 24 128 h = true → clt r czero = false →
  clt r (split_prob h n k) = true →
  (∃ m e, h = S754_finite false m e ∧ Zdigits2 (Zpos m) = 24 ∧ -23 ≤ e ≤ 104) ∨
  h = S754_infinity false.
Proof.
  intros Hv Hr Hacc.
  pose proof (SFltb_positive _ _ Hr Hacc) as Hp.
  unfold split_prob in Hp. cbn [c2d d2c ddiv dsub d_of_Z c_of_Z IEEE.arith] in Hp.
  apply convert_positive, SFdiv_positive in Hp.
  2:{ intros Hs%convert_sign%f32_of_Z_sign; [done|].
      unfold size_sub. apply Z.mod_pos_bound. done. }
  destruct h as [[]|[]| |[] m e]; try (by vm_compute in Hp); [by right| |].
  - by rewrite SFsub64_one_negative in Hp.
  - left. exists m, e. split; [done|].
    destruct (valid_binary32_finite _ _ _ Hv) as [[Hd He]|[Hd He]].
    + split; [done|]. pose proof (SFsub64_one_above m e ltac:(lia) He Hp). lia.
    + pose proof (SFsub64_one_above m e ltac:(lia) ltac:(lia) Hp). lia.
Qed.

Lemma half_count (m : positive) (e : Z) :
  Zdigits2 (Zpos m) = 24 → -23 ≤ e ≤ 104 →
  half (S754_finite false m e) = S754_finite false m (e - 1) ∧
  csub (S754_finite false m e) (half (S754_finite false m e))
    = S754_finite false m (e - 1).
Proof.
  intros Hd He. unfold half.
  change (cdiv (S754_finite false m e) (c_of_Z 2))
    with (SFdiv 24 128 (S754_finite false m e) (IEEE.f32_of_Z 2)).
  rewrite SFdiv32_two by (done || lia). split; [done|].
  apply SFsub32_half; done || lia.
Qed.
End IeeeSplit.

Lemma valid_count_nonzero (h : spec_float) :
  valid_count h = true → SFeqb h (IEEE.f32_of_Z 0) = false → sf_positive h = true.
Proof.
  intros [->|(m & e & -> & _)]%valid_count_cases; [by vm_compute|done].
Qed.

Lemma inject_Z_pow2 (a : Z) : (0 ≤ a)%Z → (inject_Z (2 ^ a) == 2 ^ a)%Q.
Proof. intros Ha. by rewrite Zpower_Qpower. Qed.

Lemma sf_value_f32_of_Z (z : Z) :
  (0 ≤ z < 2 ^ 24)%Z → (sf_value (IEEE.f32_of_Z z) == inject_Z z)%Q.
Proof.
  intros Hz. destruct z as [|p|p]; [done| |lia].
  assert (Hd : (Zdigits2 (Zpos p) ≤ 24)%Z) by (apply Zdigits2_le; lia).
  pose proof (Zdigits2_pos p) as Hpos.
  rewrite f32_of_Z_pos by done. cbn [sf_value cond_Zopp].
  rewrite Zpos_pshl by lia. rewrite inject_Z_mult, inject_Z_pow2 by lia.
  rewrite <- Qmult_assoc, <- Qpower_plus by done.
  replace (24 - Zdigits2 (Zpos p) + (Zdigits2 (Zpos p) - 24))%Z with 0%Z by lia.
  change (2 ^ 0)%Q with 1%Q. ring.
Qed.

Lemma f32_of_Z_valid (z : Z) :
  (0 ≤ z < 2 ^ 24)%Z → valid_count (IEEE.f32_of_Z z) = true.
Proof.
  intros Hz. destruct z as [|p|p]; [done| |lia].
  assert (Hd : (Zdigits2 (Zpos p) ≤ 24)%Z) by (apply Zdigits2_le; lia).
  pose proof (Zdigits2_pos p) as Hpos.
  rewrite f32_of_Z_pos by done. apply valid_count_finite; [|lia].
  rewrite Zdigits2_pshl by lia. lia.
Qed.

Lemma total_f32_of_Z (counts : list nat) :
  Forall (λ m, (Z.of_nat m < 2 ^ 24)%Z) counts →
  (total sf_value ((λ m, IEEE.f32_of_Z (Z.of_nat m)) <$> counts)
   == inject_Z (Z.of_nat (sum_list counts)))%Q.
Proof.
  unfold total. induction 1 as [|m counts Hm _ IH]; [done|].
  rewrite !fmap_cons. cbn [foldr sum_list sum_list_with]. rewrite IH.
  rewrite sf_value_f32_of_Z.
  - rewrite Nat2Z.inj_add, inject_Z_plus. done.
  - lia.
Qed.


(** *** Results that are numbers, and the order of the values *)

Lemma shr_1_nonneg (mrs : shr_record) : 0 ≤ shr_m mrs → 0 ≤ shr_m (shr_1 mrs).
Proof.
  destruct mrs as [m r s]. cbn [shr_m]. intros Hm. unfold shr_1.
  destruct m as [|[p|p|]|p]; cbn [shr_m]; lia.
Qed.

Lemma shr_nonneg (mrs : shr_record) (e n : Z) :
  0 ≤ shr_m mrs → 0 ≤ shr_m (fst (shr mrs e n)).
Proof.
  intros Hm. unfold shr. destruct n as [|p|p]; cbn [fst]; [done| |done].
  rewrite iter_pos_iter. by apply Pos.iter_invariant; [intros; apply shr_1_nonneg|].
Qed.

Lemma shr_fexp_nonneg (prec emax m e : Z) (l : location) :
  0 ≤ m → 0 ≤ shr_m (fst (shr_fexp prec emax m e l)).
Proof.
  intros Hm. unfold shr_fexp. apply shr_nonneg.
  by destruct l as [|[]].
Qed.

Lemma round_nearest_even_nonneg (m : Z) (l : location) :
  0 ≤ m → 0 ≤ round_nearest_even m l.
Proof. intros Hm. unfold round_nearest_even. destruct l as [|[]]; repeat case_match; lia. Qed.

(** rounding a mantissa that is not negative gives a number *)
Lemma binary_round_aux_number (prec emax : Z) (sx : bool) (mx ex : Z) (lx : location) :
  0 ≤ mx → binary_round_aux prec emax sx mx ex lx ≠ S754_nan.
Proof.
  intros Hm. unfold binary_round_aux.
  pose proof (shr_fexp_nonneg prec emax mx ex lx Hm) as H1.
  destruct (shr_fexp prec emax mx ex lx) as [mrs' e']. cbn [fst] in H1.
  pose proof (shr_fexp_nonneg prec emax
                (round_nearest_even (shr_m mrs') (loc_of_shr_record mrs')) e' loc_Exact
                (round_nearest_even_nonneg _ _ H1)) as H2.
  destruct (shr_fexp prec emax _ e' loc_Exact) as [mrs'' e'']. cbn [fst] in H2.
  destruct (shr_m mrs'') as [|p|p]; [done| |lia].
  by destruct (_ <=? _).
Qed.

Lemma SFdiv_core_binary_nonneg (prec emax : Z) (m1 e1 m2 e2 : Z) :
  0 ≤ m1 → 0 < m2 → 0 ≤ (SFdiv_core_binary prec emax m1 e1 m2 e2).1.1.
Proof.
  intros H1 H2. unfold SFdiv_core_binary.
  set (e' := Z.min _ _). set (s := (e1 - e2 - e')%Z).
  set (m' := match s with Zpos _ => Z.shiftl m1 s | Z0 => m1 | Zneg _ => 0 end).
  assert (Hm' : 0 ≤ m').
  { unfold m'. destruct s; [done| |done]. by apply Z.shiftl_nonneg. }
  destruct (Z.div_eucl m' m2) as [q r] eqn:Hdiv. cbn [fst].
  pose proof (Z_div_mod m' m2 ltac:(lia)) as Hspec. rewrite Hdiv in Hspec.
  nia.
Qed.

(** the quotient of two finite numbers is a number *)
Lemma SFdiv_finite_number (prec emax : Z) (sx sy : bool) (mx my : positive) (ex ey : Z) :
  SFdiv prec emax (S754_finite sx mx ex) (S754_finite sy my ey) ≠ S754_nan.
Proof.
  cbn [SFdiv].
  pose proof (SFdiv_core_binary_nonneg prec emax (Zpos mx) ex (Zpos my) ey
                ltac:(lia) ltac:(lia)) as Hq.
  destruct (SFdiv_core_binary _ _ _ _ _ _) as [[mz ez] lz]. cbn [fst] in Hq.
  by apply binary_round_aux_number.
Qed.

Lemma sf_value_aligned (s : bool) (m : positive) (e ez : Z) :
  ez ≤ e →
  (sf_value (S754_finite s m e)
   == inject_Z (cond_Zopp s (Zpos (fst (shl_align m e ez)))) * 2 ^ ez)%Q.
Proof.
  intros He. rewrite fst_shl_align by done. cbn [sf_value].
  assert (Hs : cond_Zopp s (Zpos (pshl m (e - ez))) = cond_Zopp s (Zpos m) * 2 ^ (e - ez)).
  { rewrite Zpos_pshl by lia. destruct s; cbn [cond_Zopp]; lia. }
  rewrite Hs, inject_Z_mult, inject_Z_pow2 by lia.
  rewrite <- Qmult_assoc, <- Qpower_plus by done.
  by replace (e - ez + ez) with e by lia.
Qed.

Lemma sf_value_positive (m : positive) (e : Z) : (0 < sf_value (S754_finite false m e))%Q.
Proof.
  cbn [sf_value cond_Zopp]. apply Qmult_lt_0_compat; [done|]. by apply Qpower_0_lt.
Qed.

(** a difference that is above zero: the first number is the larger *)
Lemma SFsub_positive (prec emax : Z) (mp : positive) (ep : Z) (obj : spec_float) :
  sf_finite obj = true →
  sf_positive (SFsub prec emax (S754_finite false mp ep) obj) = true →
  (sf_value obj < sf_value (S754_finite false mp ep))%Q.
Proof.
  destruct obj as [so| | |so mo eo]; try done.
  { intros _ _. apply sf_value_positive. }
  intros _ Hpos. cbn [SFsub] in Hpos. apply binary_normalize_positive in Hpos.
  rewrite (sf_value_aligned so mo eo (Z.min ep eo)) by lia.
  rewrite (sf_value_aligned false mp ep (Z.min ep eo)) by lia.
  apply Qmult_lt_compat_r; [by apply Qpower_0_lt|].
  rewrite <- Zlt_Qlt. cbn [cond_Zopp] in *. lia.
Qed.

(** the improvement test fails only if the difference is above zero *)
Lemma improvement_positive (mp : positive) (ep : Z) (sub : spec_float) :
  sub ≠ S754_nan →
  SFltb (SFdiv 53 1024 sub (S754_finite false mp ep))
        (SFdiv 53 1024 (IEEE.f64_of_Z 1) (IEEE.f64_of_Z 10000)) = false →
  sf_positive sub = true.
Proof.
  intros Hnan Htest.
  apply (SFdiv_positive 53 1024 sub (S754_finite false mp ep)); [|done].
  assert (Hq : SFdiv 53 1024 sub (S754_finite false mp ep) ≠ S754_nan).
  { destruct sub as [s|s| |s m e]; [done|done|done|apply SFdiv_finite_number]. }
  revert Hq Htest. generalize (SFdiv 53 1024 sub (S754_finite false mp ep)).
  intros q Hq.
  set (c := SFdiv 53 1024 (IEEE.f64_of_Z 1) (IEEE.f64_of_Z 10000)).
  vm_compute in c. subst c.
  by destruct q as [[]|[]| |[] m e].
Qed.

Lemma SFsub_finite_number (prec emax : Z) (mp : positive) (ep : Z) (obj : spec_float) :
  sf_finite obj = true → SFsub prec emax (S754_finite false mp ep) obj ≠ S754_nan.
Proof.
  destruct obj as [so| | |so mo eo]; try done. intros _. cbn [SFsub].
  unfold binary_normalize.
  destruct (_ - _) as [|p|p]; [done|..];
    unfold binary_round; destruct (shl_align _ _ _); by apply binary_round_aux_number.
Qed.

(** the loop goes on after a finite objective only if it is below a
    positive finite previous objective *)
Lemma improvement_decreases (mp : positive) (ep : Z) (obj : spec_float) :
  sf_finite obj = true →
  SFltb (SFdiv 53 1024 (SFsub 53 1024 (S754_finite false mp ep) obj)
           (S754_finite false mp ep))
        (SFdiv 53 1024 (IEEE.f64_of_Z 1) (IEEE.f64_of_Z 10000)) = false →
  (sf_value obj < sf_value (S754_finite false mp ep))%Q.
Proof.
  intros Hfin Htest. apply (SFsub_positive 53 1024); [done|].
  apply (improvement_positive mp ep); [|done]. by apply SFsub_finite_number.
Qed.
End FloatingPoint.

(** ** compute_centroids *)


Lemma row_lookup {A : Type} (buf : list A) (d i j : nat) :
  row d i buf !! j = if decide (j < d) then buf !! (i * d + j) else None.
Proof.
  unfold row. case_decide.
  - by rewrite lookup_take_lt, lookup_drop.
  - apply lookup_take_ge. lia.
Qed.

(** [for (j = 0; j < d; j++) buf[off + j] = g j buf[off + j]] *)
Lemma for_range_segment {A : Type} (g : nat → A → A) (off d : nat) (buf : list A) :
  off + d ≤ length buf →
  ∃ buf', for_range 0 d (λ j buf, v ← rd buf (off + j); wr buf (off + j) (g j v)) buf
          = Ok buf' ∧
    length buf' = length buf ∧
    ∀ idx, buf' !! idx = if decide (off ≤ idx < off + d)
                         then g (idx - off) <$> buf !! idx else buf !! idx.
Proof.
  intros Hlen.
  destruct (for_range_total
    (λ j b, length b = length buf ∧
            ∀ idx, b !! idx = if decide (off ≤ idx < off + j)
                              then g (idx - off) <$> buf !! idx else buf !! idx)
    0 d (λ j buf, v ← rd buf (off + j); wr buf (off + j) (g j v)) buf)
    as (buf' & Hrun & Hl & Hlook).
  - split; [done|]. intros idx. case_decide; [lia | done].
  - intros j b Hj [Hl Hlook].
    destruct (rd_lt b (off + j)) as (v & -> & Hv); [lia|]. simpl.
    rewrite wr_lt by lia. eexists. split; [done|].
    split; [by rewrite length_insert|].
    intros idx. destruct (decide (idx = off + j)) as [->|Hne].
    + rewrite list_lookup_insert_eq by lia. rewrite decide_True by lia.
      rewrite Hlook, decide_False in Hv by lia. rewrite Hv.
      by replace (off + j - off) with j by lia.
    + rewrite list_lookup_insert_ne by done. rewrite Hlook.
      repeat case_decide; done || lia.
  - by exists buf'.
Qed.

Section ComputeCentroids.
Context {C D : Type} `{Arith C D}.

Lemma members_S (c n : nat) (assign : list nat) :
  members c (S n) assign =
  members c n assign ++ (if decide (assign !! n = Some c) then [n] else []).
Proof.
  unfold members. rewrite seq_S, filter_app. simpl. f_equal.
Qed.

Lemma row_insert_segment {A : Type} (g : nat → A → A) (d ci c : nat) (buf buf' : list A) :
  (∀ idx, buf' !! idx = if decide (ci * d ≤ idx < ci * d + d)
                        then g (idx - ci * d) <$> buf !! idx else buf !! idx) →
  row d c buf' = if decide (c = ci) then imap g (row d ci buf) else row d c buf.
Proof.
  intros Hlook. apply list_eq. intros j. case_decide as Hc.
  - subst c. rewrite list_lookup_imap, !row_lookup. case_decide; [|done].
    rewrite Hlook, decide_True by lia. by replace (ci * d + j - ci * d) with j by lia.
  - rewrite !row_lookup. case_decide; [|done].
    rewrite Hlook, decide_False; [done|]. nia.
Qed.

Lemma add_row_spec (d ci i : nat) (x cent : list C) :
  i * d + d ≤ length x → ci * d + d ≤ length cent →
  ∃ cent', for_range 0 d (λ j centroids,
          cv ← rd centroids (ci * d + j);
          xv ← rd x (i * d + j);
          wr centroids (ci * d + j) (cadd cv xv)) cent = Ok cent' ∧
    length cent' = length cent ∧
    ∀ c, row d c cent' = if decide (c = ci) then vadd (row d ci cent) (row d i x)
                         else row d c cent.
Proof.
  intros Hx Hc.
  destruct (for_range_segment (λ j v, cadd v (default czero (x !! (i * d + j))))
              (ci * d) d cent Hc) as (cent' & Hrun & Hlen & Hlook).
  exists cent'. split; [|split; [done|]].
  - rewrite <- Hrun. apply for_range_ext. intros j s Hj.
    destruct (rd s (ci * d + j)) as [cv|]; simpl; [|done].
    destruct (rd_lt x (i * d + j)) as (xv & -> & Hxv); [lia|]. simpl.
    by rewrite Hxv.
  - intros c.
    rewrite (row_insert_segment (λ j v, cadd v (default czero (x !! (i * d + j))))
               _ _ _ _ _ Hlook).
    case_decide; [|done]. apply list_eq. intros j.
    unfold vadd. rewrite list_lookup_imap, lookup_zip_with, !row_lookup.
    case_decide; [|done].
    destruct (cent !! (ci * d + j)) as [cv|]; simpl; [|done].
    destruct (lookup_lt_is_Some_2 x (i * d + j)) as [xv ->]; [lia|]. done.
Qed.

Lemma accumulate_spec (d k n : nat) (x : list C) (assign : list nat)
    (hassign cent : list C) :
  n * d ≤ length x →
  (∀ i, i < n → ∃ ci, assign !! i = Some ci ∧ ci < k) →
  length hassign = k → k * d ≤ length cent →
  ∃ h' c', accumulate d k n x assign hassign cent = Ok (h', c') ∧
    length h' = k ∧ length c' = length cent ∧
    ∀ c, c < k →
      h' !! c = Nat.iter (length (members c n assign)) incr <$> hassign !! c ∧
      row d c c' = foldl vadd (row d c cent) (assigned_rows d c n x assign).
Proof.
  intros Hx Hassign Hh Hc. unfold accumulate.
  edestruct (for_range_total
    (λ i '(h', c'), length h' = k ∧ length c' = length cent ∧
       ∀ c, c < k →
         h' !! c = Nat.iter (length (members c i assign)) incr <$> hassign !! c ∧
         row d c c' = foldl vadd (row d c cent) (assigned_rows d c i x assign))
    0 n) as ([h' c'] & Hrun & Hinv); [| |exists h', c'; split; [exact Hrun|exact Hinv]].
  - split; [done|]. split; [done|]. intros c Hck. split; [|done].
    simpl. by destruct (hassign !! c).
  - intros i [h1 c1] Hi (Hh1 & Hc1 & Hinv).
    destruct (Hassign i) as (ci & Hci & Hcik); [lia|].
    rewrite (proj2 (rd_Ok _ _ _) Hci). simpl. rewrite decide_True by done.
    destruct (rd_lt h1 ci) as (hv & -> & Hhv); [lia|]. simpl.
    rewrite wr_lt by lia. simpl.
    destruct (add_row_spec d ci i x c1) as (c2 & -> & Hc2 & Hrows); [nia | nia |].
    simpl. eexists (_, _). split; [done|].
    split; [by rewrite length_insert|]. split; [lia|].
    intros c Hck. destruct (Hinv c Hck) as [Hhc Hrc].
    unfold assigned_rows. rewrite members_S, Hci, Hrows.
    destruct (decide (c = ci)) as [->|Hne].
    + rewrite decide_True by done. split.
      * rewrite list_lookup_insert_eq by lia. rewrite Hhv in Hhc.
        rewrite length_app. simpl. rewrite Nat.add_1_r. simpl.
        destruct (hassign !! ci); simplify_eq/=; done.
      * rewrite fmap_app, foldl_app. simpl. by rewrite Hrc.
    + rewrite decide_False by congruence.
      rewrite app_nil_r. split; [|done].
      by rewrite list_lookup_insert_ne.
Qed.

Lemma scale_row_spec (d ci : nat) (norm : C) (cent : list C) :
  ci * d + d ≤ length cent →
  ∃ cent', for_range 0 d (λ j centroids,
          cv ← rd centroids (ci * d + j);
          wr centroids (ci * d + j) (cmul cv norm)) cent = Ok cent' ∧
    length cent' = length cent ∧
    ∀ c, row d c cent' = if decide (c = ci) then (λ v, cmul v norm) <$> row d ci cent
                         else row d c cent.
Proof.
  intros Hc.
  destruct (for_range_segment (λ _ v, cmul v norm) (ci * d) d cent Hc)
    as (cent' & Hrun & Hlen & Hlook).
  exists cent'. split; [done|]. split; [done|]. intros c.
  rewrite (row_insert_segment (λ _ v, cmul v norm) _ _ _ _ _ Hlook).
  case_decide; [|done]. apply list_eq. intros j.
  by rewrite list_lookup_imap, list_lookup_fmap.
Qed.

Lemma normalize_spec (d k : nat) (hassign cent : list C) :
  length hassign = k → k * d ≤ length cent →
  ∃ c', normalize d k hassign cent = Ok c' ∧ length c' = length cent ∧
    ∀ c, c < k → ∃ h, hassign !! c = Some h ∧
      row d c c' = normalized_row h (row d c cent).
Proof.
  intros Hh Hc. unfold normalize.
  edestruct (for_range_total
    (λ ci c', length c' = length cent ∧
       ∀ c, c < k → ∃ h, hassign !! c = Some h ∧
         row d c c' = if decide (c < ci) then normalized_row h (row d c cent)
                      else row d c cent) 0 k)
    as (c' & Hrun & Hlen & Hinv); [| |exists c'; split; [exact Hrun|]].
  - split; [done|]. intros c Hck.
    destruct (lookup_lt_is_Some_2 hassign c) as [h Hhc]; [lia|].
    exists h. split; [done|]. case_decide; [lia|done].
  - intros ci c1 Hci [Hc1 Hinv].
    destruct (rd_lt hassign ci) as (h & -> & Hhci); [lia|]. simpl.
    destruct (ceqb h czero) eqn:Hz.
    + eexists. split; [done|]. split; [done|]. intros c Hck.
      destruct (Hinv c Hck) as (hc & Hhc & Hrow). exists hc. split; [done|].
      rewrite Hrow. destruct (decide (c = ci)) as [->|Hne].
      * rewrite decide_False, decide_True by lia. simplify_eq.
        unfold normalized_row. by rewrite Hz.
      * repeat case_decide; done || lia.
    + destruct (scale_row_spec d ci (cdiv (c_of_Z 1) h) c1) as (c2 & -> & Hc2 & Hrows);
        [nia|].
      eexists. split; [done|]. split; [lia|]. intros c Hck.
      destruct (Hinv c Hck) as (hc & Hhc & Hrow). exists hc. split; [done|].
      rewrite Hrows. destruct (decide (c = ci)) as [->|Hne].
      * rewrite decide_True by lia. simplify_eq.
        destruct (Hinv ci Hck) as (h' & ? & Hrow'). simplify_eq.
        rewrite Hrow', decide_False by lia.
        unfold normalized_row. by rewrite Hz.
      * rewrite Hrow. repeat case_decide; done || lia.
  - split; [done|]. intros c Hck. destruct (Hinv c Hck) as (h & Hhc & Hrow).
    exists h. split; [done|]. by rewrite Hrow, decide_True by lia.
Qed.

Lemma row_memset (d k c : nat) (cent cent' : list C) :
  wr_block cent 0 (replicate (d * k) czero) = Ok cent' → c < k →
  row d c cent' = replicate d czero.
Proof.
  intros (Hle & ->)%wr_block_Ok Hck. rewrite length_replicate in Hle.
  apply list_eq. intros j. rewrite row_lookup. simpl.
  destruct (decide (j < d)).
  - rewrite lookup_app_l by (rewrite length_replicate; nia).
    rewrite !lookup_replicate_2; [done | lia | nia].
  - symmetry. apply lookup_ge_None_2. rewrite length_replicate. lia.
Qed.

(** What one pass of [compute_centroids] leaves, for any histogram on
    input. *)
Lemma compute_centroids_spec (d k n : nat) (x : list C) (assign : list nat)
    (hassign cent : list C) :
  n * d ≤ length x →
  (∀ i, i < n → ∃ ci, assign !! i = Some ci ∧ ci < k) →
  length hassign = k → k * d ≤ length cent →
  ∃ h' c', compute_centroids d k n x assign hassign cent = Ok (h', c') ∧
    length h' = k ∧ length c' = length cent ∧
    ∀ c, c < k → ∃ h0,
      hassign !! c = Some h0 ∧
      h' !! c = Some (Nat.iter (length (members c n assign)) incr h0) ∧
      row d c c' = normalized_row (Nat.iter (length (members c n assign)) incr h0)
                     (vsum d (assigned_rows d c n x assign)).
Proof.
  intros Hx Hassign Hh Hc. unfold compute_centroids.
  destruct (wr_block cent 0 (replicate (d * k) czero)) as [c0|] eqn:Hset; simpl.
  2:{ unfold wr_block in Hset. rewrite length_replicate in Hset.
      rewrite decide_True in Hset by lia. done. }
  pose proof (length_wr_block _ _ _ _ Hset) as Hc0.
  destruct (accumulate_spec d k n x assign hassign c0)
    as (h1 & c1 & -> & Hh1 & Hc1 & Hacc); [done | done | done | lia |]. simpl.
  destruct (normalize_spec d k h1 c1) as (c2 & -> & Hc2 & Hnorm); [done | lia |].
  simpl. exists h1, c2. split; [done|]. split; [done|]. split; [lia|].
  intros c Hck.
  destruct (lookup_lt_is_Some_2 hassign c) as [h0 Hh0]; [lia|].
  destruct (Hacc c Hck) as [Hh1c Hrow1]. destruct (Hnorm c Hck) as (h & Hhh & Hrow2).
  rewrite Hh0 in Hh1c. simpl in Hh1c. rewrite Hh1c in Hhh. injection Hhh as <-.
  exists h0. split; [done|]. split; [done|].
  rewrite Hrow2, Hrow1. by rewrite (row_memset d k c cent c0).
Qed.
End ComputeCentroids.

Section ComputeCentroidsMean.
Context {C D : Type} `{Arith C D}.

Lemma length_members (c n : nat) (assign : list nat) :
  length (members c n assign) ≤ n.
Proof.
  unfold members. etrans; [apply length_filter|]. by rewrite length_seq.
Qed.

Lemma members_all (n : nat) (assign : list nat) :
  (∀ i, i < n → assign !! i = Some 0) → members 0 n assign = seq 0 n.
Proof.
  intros Hall. unfold members. induction n as [|n IH]; [done|].
  rewrite seq_S, filter_app, IH by (intros; apply Hall; lia). simpl.
  by rewrite filter_cons_True, filter_nil by (apply Hall; lia).
Qed.

End ComputeCentroidsMean.

(** *** The centroids and the histogram in IEEE arithmetic *)

Section FloatCentroids.
#[local] Existing Instance IEEE.arith.

(** counting by [+= 1.0] from zero: exact up to [2 ^ 24], where the float
    stops growing *)
Lemma incr_count (m : nat) : Nat.iter m incr czero = float_count m.
Proof.
  induction m as [|m IH]; [done|].
  change (Nat.iter (S m) incr czero) with (incr (Nat.iter m incr czero)).
  rewrite IH. unfold float_count, incr.
  cbn [d2c dadd c2d d_of_Z IEEE.arith].
  destruct (Z.lt_ge_cases (Z.of_nat m) (2 ^ 24 - 1)%Z) as [Hlt|Hge].
  - rewrite !Z.min_l by lia. rewrite incr_f32_of_Z by lia. f_equal. lia.
  - destruct (Z.eq_dec (Z.of_nat m) (2 ^ 24 - 1)%Z) as [Heq|Hne].
    + rewrite Z.min_l, Z.min_l by lia. rewrite Nat2Z.inj_succ, Heq.
      vm_compute. reflexivity.
    + rewrite !Z.min_r by lia. vm_compute. reflexivity.
Qed.

Lemma float_count_nonzero (m : nat) :
  0 < m → SFeqb (float_count m) (IEEE.f32_of_Z 0) = false.
Proof.
  intros Hm. unfold float_count.
  assert (Hz : (0 < Z.min (Z.of_nat m) (2 ^ 24) ≤ 2 ^ 24)%Z) by lia.
  revert Hz. generalize (Z.min (Z.of_nat m) (2 ^ 24)). intros z Hz.
  destruct (Z.eq_dec z (2 ^ 24)%Z) as [->|Hne]; [by vm_compute|].
  destruct z as [|p|p]; [lia| |lia].
  rewrite f32_of_Z_pos by (apply Zdigits2_le; lia). done.
Qed.

(** every entry that [compute_centroids] leaves in a histogram that was
    zero is a count in the sense of [valid_count] *)
Lemma float_count_valid (m : nat) : valid_count (float_count m) = true.
Proof.
  unfold float_count.
  destruct (Z.lt_ge_cases (Z.of_nat m) (2 ^ 24)%Z).
  - rewrite Z.min_l by lia. apply f32_of_Z_valid. lia.
  - rewrite Z.min_r by lia. by vm_compute.
Qed.

(** the histogram that [compute_centroids] leaves when started on zero
    holds counts *)
Lemma compute_centroids_leaves_counts (d k n : nat) (x : list spec_float)
    (assign : list nat) (centroids hassign' centroids' : list spec_float) :
  n * d ≤ length x → k * d ≤ length centroids →
  (∀ i, i < n → ∃ ci, assign !! i = Some ci ∧ ci < k) →
  compute_centroids d k n x assign (replicate k (IEEE.f32_of_Z 0)) centroids
    = Ok (hassign', centroids') →
  length hassign' = k ∧ length centroids' = length centroids ∧
  hassign' = (λ c, float_count (length (members c n assign))) <$> seq 0 k ∧
  valid_counts hassign'.
Proof.
  intros Hx Hc Hassign Hrun.
  destruct (compute_centroids_spec d k n x assign (replicate k (IEEE.f32_of_Z 0))
              centroids)
    as (h' & c' & Hrun' & Hlh & Hlc & Hrows);
    [done|done|by rewrite length_replicate|done|].
  rewrite Hrun in Hrun'. injection Hrun' as <- <-.
  assert (Hh' : hassign' = (λ c, float_count (length (members c n assign))) <$> seq 0 k).
  { apply list_eq. intros c. rewrite list_lookup_fmap.
    destruct (decide (c < k)) as [Hck|Hck].
    + destruct (Hrows c Hck) as (h0 & Hh0 & Hh' & _).
      rewrite lookup_replicate_2 in Hh0 by done. injection Hh0 as <-.
      change (IEEE.f32_of_Z 0) with (@czero _ _ IEEE.arith) in Hh'.
      rewrite incr_count in Hh'.
      rewrite Hh', lookup_seq_lt by done. done.
    + rewrite lookup_ge_None_2 by lia.
      by rewrite lookup_seq_ge by lia. }
  split; [done|]. split; [done|]. split; [done|].
  rewrite Hh'. apply Forall_fmap, Forall_forall. intros c _. apply float_count_valid.
Qed.

(** C4 (amended). One [compute_centroids] pass in IEEE-754 arithmetic over
    an assignment vector with entries in [0, k), started on a zero
    histogram (the precondition documented at line 59, which [pq_train]
    supplies). The histogram entry of a centroid is the number [m] of
    training vectors assigned to it, held exactly as a float up to
    [2 ^ 24] (the float stays at [2 ^ 24] beyond). A centroid with none is
    all-zero. A centroid with [m > 0] is, coordinate by coordinate, the
    float sum of its vectors in index order, started from zero, multiplied
    in float by the float quotient [1 / m]: three roundings away from the
    arithmetic mean, and not the mean when the sum overflows. For [k = 1]
    the single centroid is this value for all training vectors. *)
Theorem compute_centroids_float_mean (d k n : nat) (x : list spec_float)
    (assign : list nat) (centroids : list spec_float) :
  length x = n * d → length centroids = k * d →
  (∀ i, i < n → ∃ ci, assign !! i = Some ci ∧ ci < k) →
  ∃ hassign' centroids',
    compute_centroids d k n x assign (replicate k (IEEE.f32_of_Z 0)) centroids
      = Ok (hassign', centroids') ∧
    (∀ c, c < k →
       let rows := assigned_rows d c n x assign in
       hassign' !! c = Some (float_count (length rows)) ∧
       (length rows ≠ 0 → row d c centroids' = float_mean d rows) ∧
       (length rows = 0 → row d c centroids' = replicate d (IEEE.f32_of_Z 0))) ∧
    (k = 1 → 0 < n →
       row d 0 centroids' = float_mean d ((λ i, row d i x) <$> seq 0 n)).
Proof.
  intros Hx Hc Hassign.
  destruct (compute_centroids_spec d k n x assign (replicate k (IEEE.f32_of_Z 0))
              centroids)
    as (h' & c' & Hrun & Hh' & Hc' & Hspec);
    [lia | done | by rewrite length_replicate | lia |].
  assert (Hper : ∀ c, c < k →
       let rows := assigned_rows d c n x assign in
       h' !! c = Some (float_count (length rows)) ∧
       (length rows ≠ 0 → row d c c' = float_mean d rows) ∧
       (length rows = 0 → row d c c' = replicate d (IEEE.f32_of_Z 0))).
  { intros c Hck rows. destruct (Hspec c Hck) as (h0 & Hh0 & Hhc & Hrow).
    apply lookup_replicate in Hh0 as [-> _].
    assert (Hlen : length rows = length (members c n assign))
      by (unfold rows, assigned_rows; by rewrite length_fmap).
    change (IEEE.f32_of_Z 0) with (@czero _ _ IEEE.arith) in Hhc, Hrow.
    rewrite incr_count in Hhc, Hrow. rewrite Hlen. split; [done|].
    unfold normalized_row in Hrow. split.
    - intros Hne.
      change (ceqb (float_count (length (members c n assign))) czero)
        with (SFeqb (float_count (length (members c n assign))) (IEEE.f32_of_Z 0))
        in Hrow.
      rewrite float_count_nonzero in Hrow by lia.
      rewrite Hrow. unfold float_mean. fold rows. by rewrite Hlen.
    - intros Hnil. rewrite Hnil in Hrow. rewrite Hrow.
      change (ceqb (float_count 0) czero) with true. cbv iota.
      unfold rows, assigned_rows. rewrite (nil_length_inv _ Hnil). done. }
  exists h', c'. split; [done|]. split; [done|].
  intros -> Hn. destruct (Hper 0) as (_ & Hmean & _); [lia|].
  assert (Hall : members 0 n assign = seq 0 n).
  { apply members_all. intros i Hi. destruct (Hassign i Hi) as (ci & -> & ?).
    f_equal. lia. }
  unfold assigned_rows in Hmean. rewrite Hall in Hmean. apply Hmean.
  rewrite length_fmap, length_seq. lia.
Qed.
End FloatCentroids.

Section MeanWitness.
Import IEEE.

(** the vectors (1, 2) and (3, 4) go to centroid 1, which becomes (2, 3);
    the vector (5, 8) is alone in centroid 0 *)
Lemma compute_centroids_float_mean_witness :
  compute_centroids 2 2 3 x_3x2 assign_101 (replicate 2 (f32_of_Z 0))
    (replicate 4 (f32_of_Z 7))
  = Ok (f32_of_Z <$> [1; 2]%Z, f32_of_Z <$> [5; 8; 2; 3]%Z) ∧
  f32_of_Z <$> [2; 3]%Z = float_mean 2 (assigned_rows 2 1 3 x_3x2 assign_101) ∧
  f32_of_Z <$> [5; 8]%Z = float_mean 2 (assigned_rows 2 0 3 x_3x2 assign_101).
Proof.
  destruct (compute_centroids_float_mean 2 2 3 x_3x2 assign_101
              (replicate 4 (f32_of_Z 7)))
    as (h' & c' & Hrun & Hper & _).
  - reflexivity.
  - reflexivity.
  - intros i Hi. assert (Hi' : i = 0 ∨ i = 1 ∨ i = 2) by lia.
    destruct Hi' as [-> | [-> | ->]]; eexists; (split; [reflexivity | lia]).
  - assert (Hout : Ok (h', c') = Ok (f32_of_Z <$> [1; 2]%Z, f32_of_Z <$> [5; 8; 2; 3]%Z))
      by (rewrite <- Hrun; vm_compute; reflexivity).
    injection Hout as -> ->. split; [exact Hrun|].
    destruct (Hper 1) as (_ & Hmean1 & _); [lia|].
    destruct (Hper 0) as (_ & Hmean0 & _); [lia|].
    split; [rewrite <- Hmean1|rewrite <- Hmean0]; vm_compute; (reflexivity || lia).
Defined.

(** C4, counterexamples to the claim as it was written. The values 1, 2
    and 4 in one cluster: the centroid is [9786710 * 2 ^ -22], while the
    float nearest to their mean 7/3 is [9786709 * 2 ^ -22] (the float
    quotient 7 / 3). The values [2 ^ 127] and [2 ^ 127] in one cluster:
    their mean is the float [2 ^ 127], and the centroid is [+inf], since
    the sum overflows. And a histogram entry of [2 ^ 24] is not changed by
    [+= 1.0]: a cluster of more vectors is not counted in full. *)
Lemma compute_centroids_mean_counterexample :
  compute_centroids 1 1 3 (f32_of_Z <$> [1; 2; 4]%Z) [0; 0; 0] [f32_of_Z 0] [f32_of_Z 0]
  = Ok ([f32_of_Z 3], [S754_finite false 9786710 (-22)]) ∧
  SFdiv prec32 emax32 (f32_of_Z 7) (f32_of_Z 3) = S754_finite false 9786709 (-22) ∧
  (Qabs (sf_value (S754_finite false 9786709 (-22)) - (7 # 3))
   < Qabs (sf_value (S754_finite false 9786710 (-22)) - (7 # 3)))%Q ∧
  compute_centroids 1 1 2 (f32_of_Z <$> [2 ^ 127; 2 ^ 127]%Z) [0; 0] [f32_of_Z 0]
    [f32_of_Z 0]
  = Ok ([f32_of_Z 2], [S754_infinity false]) ∧
  f32_of_Z (2 ^ 127) = S754_finite false 8388608 104 ∧
  incr (f32_of_Z (2 ^ 24)) = f32_of_Z (2 ^ 24).
Proof. repeat split; vm_compute; reflexivity. Qed.
End MeanWitness.

(** ** calculate_distances *)

Section CalculateDistances.
Context {C D : Type} `{Arith C D} `{Special C D} `{Extern C}.

Lemma pq_k_pos (meta : HnswMetadata) : 0 < pq_k meta.
Proof. unfold pq_k. pose proof (Nat.pow_nonzero 2 (pqBits meta)). lia. Qed.

Lemma nearest_spec (meta : HnswMetadata) (centroids x_i : list C) :
  pq_k meta * pqSubdim meta ≤ length centroids →
  ∃ min_dist min_idx,
    nearest meta centroids x_i = Ok (min_dist, min_idx) ∧ min_idx < pq_k meta.
Proof.
  intros Hc. unfold nearest.
  edestruct (for_range_total (λ _ (s : C * nat), s.2 < pq_k meta) 0 (pq_k meta))
    as ([md mi] & Hrun & Hmi); [| |exists md, mi; split; [exact Hrun|exact Hmi]].
  - apply pq_k_pos.
  - intros j [md mi] Hj Hmi.
    rewrite rd_block_row by nia. simpl.
    destruct (clt _ md); eexists (_, _); (split; [done|]); simpl in *; lia.
Qed.

Lemma calculate_distances_spec (meta : HnswMetadata) (centroids : list C)
    (nx : nat) (x dis : list C) (assign : list nat) :
  nx * pqSubdim meta ≤ length x →
  pq_k meta * pqSubdim meta ≤ length centroids →
  nx ≤ length dis → nx ≤ length assign →
  ∃ dis' assign',
    calculate_distances meta centroids nx x dis assign = Ok (dis', assign') ∧
    length dis' = length dis ∧ length assign' = length assign ∧
    (∀ i, i < nx → ∃ md mi,
       nearest meta centroids (row (pqSubdim meta) i x) = Ok (md, mi) ∧
       mi < pq_k meta ∧ dis' !! i = Some md ∧ assign' !! i = Some mi) ∧
    (∀ i, nx ≤ i → dis' !! i = dis !! i ∧ assign' !! i = assign !! i).
Proof.
  intros Hx Hc Hdis Hassign. unfold calculate_distances.
  edestruct (for_range_total
    (λ n '(dis', assign'),
       length dis' = length dis ∧ length assign' = length assign ∧
       (∀ i, i < n → ∃ md mi,
          nearest meta centroids (row (pqSubdim meta) i x) = Ok (md, mi) ∧
          mi < pq_k meta ∧ dis' !! i = Some md ∧ assign' !! i = Some mi) ∧
       (∀ i, n ≤ i → dis' !! i = dis !! i ∧ assign' !! i = assign !! i)) 0 nx)
    as ([dis' assign'] & Hrun & Hinv);
    [| |exists dis', assign'; split; [exact Hrun|exact Hinv]].
  - repeat split; try done. intros i Hi. lia.
  - intros i [dis1 assign1] Hi (Hl1 & Hl2 & Hdone & Hrest).
    rewrite rd_block_row by nia. simpl.
    destruct (nearest_spec meta centroids (row (pqSubdim meta) i x) Hc)
      as (md & mi & Hnear & Hmi).
    rewrite Hnear. simpl. rewrite wr_lt by lia. simpl. rewrite wr_lt by lia. simpl.
    eexists (_, _). split; [done|].
    rewrite !length_insert. repeat split; try done.
    + intros i' Hi'. destruct (decide (i' = i)) as [->|Hne].
      * exists md, mi. rewrite !list_lookup_insert_eq by lia. done.
      * rewrite !list_lookup_insert_ne by done. apply Hdone. lia.
    + rewrite list_lookup_insert_ne by lia. apply Hrest. lia.
    + rewrite list_lookup_insert_ne by lia. apply Hrest. lia.
Qed.

(** C10. [k = 1 << pqBits] is at least 1 and every assignment index that
    [calculate_distances] writes is below [k]; so [compute_centroids], run on
    that assignment vector, passes its assertion [ci < k] at every vector and
    makes no access outside the [k * d] centroid table (the run ends in
    [Ok], neither [AssertionFailed] nor [OutOfBounds]). *)
Theorem assignments_in_range (meta : HnswMetadata) (centroids : list C) (nx : nat)
    (x dis : list C) (assign : list nat) (hassign : list C) :
  let d := pqSubdim meta in
  let k := pq_k meta in
  length x = nx * d → length centroids = k * d →
  nx ≤ length dis → nx ≤ length assign → length hassign = k →
  1 ≤ k ∧
  ∃ dis' assign',
    calculate_distances meta centroids nx x dis assign = Ok (dis', assign') ∧
    (∀ i, i < nx → ∃ ci, assign' !! i = Some ci ∧ ci < k) ∧
    ∃ hassign' centroids',
      compute_centroids d k nx x assign' hassign centroids
        = Ok (hassign', centroids') ∧
      length centroids' = k * d.
Proof.
  intros d k Hx Hc Hdis Hassign Hh. split; [apply pq_k_pos|].
  destruct (calculate_distances_spec meta centroids nx x dis assign)
    as (dis' & assign' & Hrun & _ & _ & Hnear & _); [lia | lia | done | done |].
  assert (Hrange : ∀ i, i < nx → ∃ ci, assign' !! i = Some ci ∧ ci < k).
  { intros i Hi. destruct (Hnear i Hi) as (md & mi & _ & Hmi & _ & Hai). eauto. }
  exists dis', assign'. split; [done|]. split; [done|].
  destruct (compute_centroids_spec d k nx x assign' hassign centroids)
    as (h' & c' & Hcc & _ & Hlen & _); [lia | done | done | lia |].
  exists h', c'. split; [done|]. lia.
Qed.
End CalculateDistances.

Section RangeWitness.
Import IEEE.

Lemma assignments_in_range_witness :
  ∃ dis' assign',
    calculate_distances meta_2_1 centroids_2x2 3 y_3x2
      (replicate 3 czero) (replicate 3 0) = Ok (dis', assign') ∧
    ∀ i, i < 3 → ∃ ci, assign' !! i = Some ci ∧ ci < 2.
Proof.
  destruct (assignments_in_range meta_2_1 centroids_2x2 3
              y_3x2 (replicate 3 czero) (replicate 3 0) (replicate 2 czero))
    as (_ & dis' & assign' & Hrun & Hrange & _); try reflexivity; simpl; try lia.
  exists dis', assign'. split; [exact Hrun | exact Hrange].
Defined.
End RangeWitness.

(** ** memcpy and subsample_training_set *)

Lemma lookup_wr_block {A : Type} (buf buf' blk : list A) (off idx : nat) :
  wr_block buf off blk = Ok buf' →
  buf' !! idx = if decide (off ≤ idx < off + length blk) then blk !! (idx - off)
                else buf !! idx.
Proof.
  intros (Hle & ->)%wr_block_Ok.
  destruct (decide (idx < off)).
  - rewrite lookup_app_l by (rewrite length_take; lia).
    rewrite lookup_take_lt by lia. by rewrite decide_False by lia.
  - rewrite lookup_app_r by (rewrite length_take; lia).
    rewrite length_take, Nat.min_l by lia.
    destruct (decide (idx < off + length blk)).
    + rewrite lookup_app_l by lia. by rewrite decide_True by lia.
    + rewrite lookup_app_r by lia. rewrite lookup_drop, decide_False by lia.
      f_equal. lia.
Qed.

Lemma memcpy_row {A : Type} (d i p : nat) (dst src : list A) :
  i * d + d ≤ length dst → p * d + d ≤ length src →
  ∃ dst', memcpy dst (i * d) src (p * d) d = Ok dst' ∧
    length dst' = length dst ∧
    ∀ c, row d c dst' = if decide (c = i) then row d p src else row d c dst.
Proof.
  intros Hdst Hsrc. unfold memcpy. rewrite rd_block_row by done. simpl.
  pose proof (length_row src d p Hsrc) as Hrow.
  destruct (wr_block dst (i * d) (row d p src)) as [dst'|] eqn:Hwr.
  2:{ unfold wr_block in Hwr. rewrite decide_True in Hwr by lia. done. }
  exists dst'. split; [done|]. split; [by eapply length_wr_block|].
  intros c. apply list_eq. intros j.
  destruct (decide (c = i)) as [->|Hne]; rewrite !row_lookup;
    destruct (decide (j < d)); try done;
    rewrite (lookup_wr_block _ _ _ _ _ Hwr), Hrow.
  - rewrite decide_True by lia. rewrite row_lookup, decide_True by lia.
    f_equal. lia.
  - rewrite decide_False; [done|]. nia.
Qed.

Section Subsample.
Context {C D : Type} `{Arith C D} `{Special C D} `{Extern C}.

Lemma perm_lookup_lt (n : nat) (perm : list nat) (i : nat) :
  perm ≡ₚ seq 0 n → i < n → ∃ p, perm !! i = Some p ∧ p < n.
Proof.
  intros Hperm Hi.
  destruct (lookup_lt_is_Some_2 perm i) as [p Hp].
  { by rewrite Hperm, length_seq. }
  exists p. split; [done|].
  apply list_elem_of_lookup_2 in Hp. rewrite Hperm in Hp.
  apply elem_of_seq in Hp. lia.
Qed.

Lemma perm_lookup_inj (n : nat) (perm : list nat) (i j p : nat) :
  perm ≡ₚ seq 0 n → perm !! i = Some p → perm !! j = Some p → i = j.
Proof.
  intros Hperm Hi Hj. eapply NoDup_lookup; [|done..].
  rewrite Hperm. apply NoDup_seq.
Qed.

Lemma subsample_training_set_spec (d k nx : nat) (x : list C) :
  k * max_points_per_centroid ≤ nx → length x = nx * d →
  rand_perm nx seed ≡ₚ seq 0 nx →
  ∃ x_new,
    subsample_training_set d k nx x = Ok (k * max_points_per_centroid, x_new) ∧
    length x_new = k * max_points_per_centroid * d ∧
    ∀ i, i < k * max_points_per_centroid → ∃ p,
      rand_perm nx seed !! i = Some p ∧ p < nx ∧ row d i x_new = row d p x.
Proof.
  intros Hnx Hx Hperm. unfold subsample_training_set. cbv zeta.
  edestruct (for_range_total
    (λ n (x_new : list C), length x_new = k * max_points_per_centroid * d ∧
       ∀ i, i < n → ∃ p,
         rand_perm nx seed !! i = Some p ∧ p < nx ∧ row d i x_new = row d p x)
    0 (k * max_points_per_centroid)) as (x_new & Hrun & Hlen & Hrows);
    [| |rewrite Hrun; simpl; exists x_new; done].
  - split; [apply length_replicate|]. intros i Hi. lia.
  - intros i x1 Hi [Hl Hrows].
    destruct (perm_lookup_lt nx (rand_perm nx seed) i) as (p & Hp & Hpn); [done|lia|].
    rewrite (proj2 (rd_Ok _ _ _) Hp). simpl.
    destruct (memcpy_row d i p x1 x) as (x2 & -> & Hl2 & Hrow2); [nia | nia |].
    eexists. split; [done|]. split; [lia|].
    intros i' Hi'. rewrite Hrow2. destruct (decide (i' = i)) as [->|Hne].
    + exists p. done.
    + apply Hrows. lia.
Qed.
End Subsample.

Section SubsampleClaim.
Context {C D : Type} `{Arith C D} `{Special C D} `{Extern C}.

(** C6. For a training set of more than [k * 256] vectors the subsampler
    returns a new buffer of exactly [k * 256] rows; row [i] of it is row
    [perm[i]] of the input, where [perm] is the permutation of [0, nx) of
    seed [seed], so the rows are copies of pairwise distinct input rows in
    the order of the permutation (the input, a value that is only read,
    stays as it was). A call of [pq_train] with at most [k * 256] vectors
    makes no copy: it goes on with the slice itself and logs no
    subsampling. *)
Theorem subsample_rows (fuel : nat) (trainType : TrainType) (meta : HnswMetadata)
    (slice_len : nat) (slice centroids : list C) :
  let d := pqSubdim meta in
  let k := pq_k meta in
  length slice = slice_len * d →
  rand_perm slice_len seed ≡ₚ seq 0 slice_len →
  (k * 256 < slice_len →
   ∃ x_new,
     subsample_training_set d k slice_len slice = Ok (k * 256, x_new) ∧
     length x_new = k * 256 * d ∧
     (∀ i, i < k * 256 → ∃ p,
        rand_perm slice_len seed !! i = Some p ∧ p < slice_len ∧
        row d i x_new = row d p slice) ∧
     (∀ i j p, rand_perm slice_len seed !! i = Some p →
               rand_perm slice_len seed !! j = Some p → i = j)) ∧
  (slice_len ≤ k * 256 →
   pq_train fuel trainType meta slice_len slice centroids =
     c ← initialize_centroids trainType d (pqBits meta) k slice_len slice centroids;
     if decide (slice_len < k * min_points_per_centroid) then mret (false, c, [])
     else pq_train_clustering fuel meta slice_len slice c
            (replicate slice_len czero) (replicate slice_len 0) []).
Proof.
  intros d k Hx Hperm. split.
  - intros Hnx.
    destruct (subsample_training_set_spec d k slice_len slice)
      as (x_new & Hsub & Hlen & Hrows);
      [unfold max_points_per_centroid; lia | done | done |].
    exists x_new. split; [done|]. split; [done|]. split; [done|].
    intros i j p. by apply (perm_lookup_inj slice_len).
  - intros Hnx. unfold pq_train. cbv zeta. fold d k.
    destruct (initialize_centroids _ _ _ _ _ _ _) as [c|e]; simpl; [|done].
    by rewrite decide_False by (unfold max_points_per_centroid; lia).
Qed.
End SubsampleClaim.

Section SubsampleWitness.
Import IEEE.

Lemma subsample_rows_witness :
  ∃ x_new,
    subsample_training_set 1 2 513 slice_513 = Ok (512, x_new) ∧
    length x_new = 512 ∧
    ∀ i, i < 512 → ∃ p,
      rotation 513 seed !! i = Some p ∧ p < 513 ∧
      row 1 i x_new = row 1 p slice_513.
Proof.
  destruct (subsample_rows 0 TT_DEFAULT meta_1_1 513 slice_513 [])
    as [Hsub _].
  - reflexivity.
  - apply rotation_perm.
  - destruct Hsub as (x_new & Hrun & Hlen & Hrows & _); [vm_compute; lia|].
    exists x_new. split; [exact Hrun|]. split; [exact Hlen|exact Hrows].
Defined.
End SubsampleWitness.

(** ** pq_train: initialisation, guard and corner case *)

Section PqTrain.
Context {C D : Type} `{Arith C D} `{Special C D} `{Extern C}.

Lemma initialize_default_spec (d nbits k nx : nat) (x centroids : list C) :
  k ≤ nx → length x = nx * d → length centroids = k * d →
  rand_perm nx (seed + 1) ≡ₚ seq 0 nx →
  ∃ c', initialize_centroids TT_DEFAULT d nbits k nx x centroids = Ok c' ∧
    length c' = k * d ∧
    ∀ i, i < k → ∃ p,
      rand_perm nx (seed + 1) !! i = Some p ∧ p < nx ∧ row d i c' = row d p x.
Proof.
  intros Hk Hx Hc Hperm. unfold initialize_centroids. cbv zeta.
  edestruct (for_range_total
    (λ n (c' : list C), length c' = k * d ∧
       ∀ i, i < n → ∃ p,
         rand_perm nx (seed + 1) !! i = Some p ∧ p < nx ∧ row d i c' = row d p x)
    0 k) as (c' & Hrun & Hlen & Hrows); [| |by exists c'].
  - split; [done|]. intros i Hi. lia.
  - intros i c1 Hi [Hl Hrows].
    destruct (perm_lookup_lt nx (rand_perm nx (seed + 1)) i) as (p & Hp & Hpn);
      [done|lia|].
    rewrite (proj2 (rd_Ok _ _ _) Hp). simpl.
    destruct (memcpy_row d i p c1 x) as (c2 & -> & Hl2 & Hrow2); [nia | nia |].
    eexists. split; [done|]. split; [lia|].
    intros i' Hi'. rewrite Hrow2. destruct (decide (i' = i)) as [->|Hne].
    + exists p. done.
    + apply Hrows. lia.
Qed.

(** a loop whose body can only fail by an access out of bounds, and does
    fail so at some index, ends in [OutOfBounds] *)
Lemma for_range_out_of_bounds {St : Type} (lo n bad : nat)
    (body : nat → St → result St) (s : St) :
  lo ≤ bad < lo + n →
  (∀ s, body bad s = Err OutOfBounds) →
  (∀ i s e, body i s = Err e → e = OutOfBounds) →
  for_range lo n body s = Err OutOfBounds.
Proof.
  revert lo s. induction n as [|n IH]; intros lo s Hbad Hfail Honly; [lia|].
  simpl. destruct (decide (lo = bad)) as [->|Hne].
  - by rewrite Hfail.
  - destruct (body lo s) as [s1|e] eqn:Hb; simpl.
    + apply IH; [lia | done | done].
    + by rewrite (Honly _ _ _ Hb).
Qed.

Lemma memcpy_Err {A : Type} (dst src : list A) (doff soff n : nat) (e : error) :
  memcpy dst doff src soff n = Err e → e = OutOfBounds.
Proof.
  unfold memcpy, rd_block, wr_block.
  repeat (case_decide; simpl); congruence.
Qed.

(** With fewer training vectors than centroids, the default initialisation
    reads [perm[i]] past the end of the [nx]-element permutation. *)
Lemma initialize_default_short (d nbits k nx : nat) (x centroids : list C) :
  nx < k → length (rand_perm nx (seed + 1)) = nx →
  initialize_centroids TT_DEFAULT d nbits k nx x centroids = Err OutOfBounds.
Proof.
  intros Hnx Hperm. unfold initialize_centroids. cbv zeta.
  apply (for_range_out_of_bounds 0 k nx); [lia | |].
  - intros s. by rewrite rd_ge by lia.
  - intros i s e. destruct (rd _ i) as [p|e'] eqn:Hrd; simpl.
    + apply memcpy_Err.
    + unfold rd in Hrd. destruct (_ !! i); congruence.
Qed.

Lemma pq_train_short_slice (fuel : nat) (meta : HnswMetadata) (slice_len : nat)
    (slice centroids : list C) :
  slice_len < pq_k meta → length (rand_perm slice_len (seed + 1)) = slice_len →
  pq_train fuel TT_DEFAULT meta slice_len slice centroids = Err OutOfBounds.
Proof.
  intros Hnx Hperm. unfold pq_train. cbv zeta.
  by rewrite initialize_default_short.
Qed.

(** between [k] and [k * 39] training vectors the call returns failure *)
Lemma pq_train_low_data (fuel : nat) (meta : HnswMetadata) (slice_len : nat)
    (slice centroids : list C) :
  pq_k meta ≤ slice_len < pq_k meta * min_points_per_centroid →
  length slice = slice_len * pqSubdim meta →
  length centroids = pq_k meta * pqSubdim meta →
  rand_perm slice_len (seed + 1) ≡ₚ seq 0 slice_len →
  ∃ c, pq_train fuel TT_DEFAULT meta slice_len slice centroids = Ok (false, c, []).
Proof.
  intros Hnx Hx Hc Hperm. unfold pq_train. cbv zeta.
  destruct (initialize_default_spec (pqSubdim meta) (pqBits meta) (pq_k meta)
              slice_len slice centroids) as (c & -> & _); [lia | done..|].
  exists c. simpl.
  rewrite decide_False
    by (unfold max_points_per_centroid, min_points_per_centroid in *; lia).
  by rewrite decide_True by lia.
Qed.

(** the flag of a run that returns is decided by the low-data guard alone *)
Lemma pq_train_clustering_flag (fuel : nat) (meta : HnswMetadata) (nx : nat)
    (x centroids dis : list C) (assign : list nat) (log log' : list (event D))
    (b : bool) (c : list C) :
  pq_train_clustering fuel meta nx x centroids dis assign log = Ok (b, c, log') →
  b = true.
Proof.
  unfold pq_train_clustering. cbv zeta. case_decide.
  - intros (? & _ & Heq)%bind_Ok. by injection Heq as <- _ _.
  - intros ([? ?] & _ & Heq)%bind_Ok. by injection Heq as <- _ _.
Qed.

Lemma pq_train_flag (fuel : nat) (trainType : TrainType) (meta : HnswMetadata)
    (slice_len : nat) (slice centroids : list C) (b : bool) (c : list C)
    (log : list (event D)) :
  pq_train fuel trainType meta slice_len slice centroids = Ok (b, c, log) →
  b = bool_decide (pq_k meta * min_points_per_centroid ≤ slice_len).
Proof.
  unfold pq_train, max_points_per_centroid, min_points_per_centroid. cbv zeta.
  intros (c0 & _ & Hrest)%bind_Ok. revert Hrest.
  destruct (decide (pq_k meta * 256 < slice_len));
    [|destruct (decide (slice_len < pq_k meta * 39))].
  - intros ([nx x_new] & Hsub & ->%pq_train_clustering_flag)%bind_Ok.
    symmetry. apply bool_decide_eq_true. lia.
  - intros Heq. cbv [mret result_ret] in Heq. injection Heq as <- _ _.
    symmetry. apply bool_decide_eq_false. lia.
  - intros ->%pq_train_clustering_flag. symmetry. apply bool_decide_eq_true. lia.
Qed.
End PqTrain.

Section Orchestrator.
Context {C D : Type} `{Arith C D} `{Special C D} `{Extern C}.

Lemma memcpy_whole {A : Type} (dst src : list A) (n : nat) :
  length src = n → length dst = n → memcpy dst 0 src 0 n = Ok src.
Proof.
  intros Hsrc Hdst. unfold memcpy.
  assert (Hrd : rd_block src 0 n = Ok src).
  { apply rd_block_Ok. split; [simpl; lia|]. by rewrite drop_0, take_ge by lia. }
  rewrite Hrd. simpl. apply wr_block_Ok. split; [simpl; lia|].
  rewrite take_0. simpl. by rewrite drop_ge, app_nil_r by lia.
Qed.

Lemma pq_train_nx_eq_k (fuel : nat) (trainType : TrainType) (meta : HnswMetadata)
    (slice centroids : list C) :
  pq_train fuel trainType meta (pq_k meta) slice centroids =
  c ← initialize_centroids trainType (pqSubdim meta) (pqBits meta) (pq_k meta)
        (pq_k meta) slice centroids;
  mret (false, c, []).
Proof.
  unfold pq_train, max_points_per_centroid, min_points_per_centroid. cbv zeta.
  pose proof (pq_k_pos meta).
  destruct (initialize_centroids _ _ _ _ _ _ _) as [c|e]; simpl; [|done].
  rewrite decide_False by lia. by rewrite decide_True by lia.
Qed.

(** C1 (amended). A call with [nx == k] never reaches the corner case: the
    low-data guard [nx < k * 39] comes first and, as [k >= 1], it fires. The
    call returns failure as soon as the initialiser has returned, with no
    clustering iteration (empty log); with the default initialiser the
    centroid table then holds the training rows picked by the permutation
    of seed [seed + 1], not the training vectors row for row. The corner
    case itself, entered with [nx == k], copies the training vectors row
    for row into the centroid table and returns success without
    iterating. *)
Theorem corner_case_behind_guard (fuel : nat) (meta : HnswMetadata)
    (slice centroids dis : list C) (assign : list nat) (log : list (event D)) :
  let d := pqSubdim meta in
  let k := pq_k meta in
  length slice = k * d → length centroids = k * d →
  rand_perm k (seed + 1) ≡ₚ seq 0 k →
  (∃ c, pq_train fuel TT_DEFAULT meta k slice centroids = Ok (false, c, []) ∧
        ∀ i, i < k → ∃ p, rand_perm k (seed + 1) !! i = Some p ∧
                          row d i c = row d p slice) ∧
  (∀ trainType, pq_train fuel trainType meta k slice centroids =
     c ← initialize_centroids trainType d (pqBits meta) k k slice centroids;
     mret (false, c, [])) ∧
  pq_train_clustering fuel meta k slice centroids dis assign log
    = Ok (true, slice, log).
Proof.
  intros d k Hx Hc Hperm. split; [|split].
  - destruct (initialize_default_spec d (pqBits meta) k k slice centroids)
      as (c & Hinit & _ & Hrows); [done..|].
    exists c. split.
    + unfold k. rewrite pq_train_nx_eq_k. fold k d. by rewrite Hinit.
    + intros i Hi. destruct (Hrows i Hi) as (p & Hp & _ & Hrow). eauto.
  - intros trainType. apply pq_train_nx_eq_k.
  - unfold pq_train_clustering. cbv zeta. fold k d. rewrite decide_True by done.
    rewrite memcpy_whole by lia. done.
Qed.

(** C2 (amended). The orchestrator initialises the centroid table first,
    from the training slice as it was passed in, and only then subsamples
    (when [nx] exceeds the cap) and runs the corner case or the iterations
    on the subsampled set: the initialisers operate on the original
    training set. With the default initialiser the table the clustering
    starts from holds rows of the original slice picked by the permutation
    of [0, slice_len). *)
Theorem initialize_before_subsample (fuel : nat) (meta : HnswMetadata)
    (slice_len : nat) (slice centroids : list C) :
  let d := pqSubdim meta in
  let k := pq_k meta in
  k * max_points_per_centroid < slice_len →
  length slice = slice_len * d → length centroids = k * d →
  rand_perm slice_len seed ≡ₚ seq 0 slice_len →
  rand_perm slice_len (seed + 1) ≡ₚ seq 0 slice_len →
  (∀ trainType, pq_train fuel trainType meta slice_len slice centroids =
     c ← initialize_centroids trainType d (pqBits meta) k slice_len slice centroids;
     '(nx, x_new) ← subsample_training_set d k slice_len slice;
     pq_train_clustering fuel meta nx x_new c (replicate slice_len czero)
       (replicate slice_len 0) [LogSubsample nx]) ∧
  ∃ c0 x_new,
    initialize_centroids TT_DEFAULT d (pqBits meta) k slice_len slice centroids
      = Ok c0 ∧
    (∀ i, i < k → ∃ p, rand_perm slice_len (seed + 1) !! i = Some p ∧
                       row d i c0 = row d p slice) ∧
    subsample_training_set d k slice_len slice
      = Ok (k * max_points_per_centroid, x_new) ∧
    pq_train fuel TT_DEFAULT meta slice_len slice centroids =
      pq_train_clustering fuel meta (k * max_points_per_centroid) x_new c0
        (replicate slice_len czero) (replicate slice_len 0)
        [LogSubsample (k * max_points_per_centroid)].
Proof.
  intros d k Hnx Hx Hc Hperm Hperm1.
  assert (Hany : ∀ trainType, pq_train fuel trainType meta slice_len slice centroids =
     c ← initialize_centroids trainType d (pqBits meta) k slice_len slice centroids;
     '(nx, x_new) ← subsample_training_set d k slice_len slice;
     pq_train_clustering fuel meta nx x_new c (replicate slice_len czero)
       (replicate slice_len 0) [LogSubsample nx]).
  { intros trainType. unfold pq_train. cbv zeta. fold d k.
    destruct (initialize_centroids _ _ _ _ _ _ _) as [c|e]; simpl; [|done].
    by rewrite decide_True by done. }
  split; [done|].
  destruct (initialize_default_spec d (pqBits meta) k slice_len slice centroids)
    as (c0 & Hinit & _ & Hrows); [unfold max_points_per_centroid in Hnx; lia|done..|].
  destruct (subsample_training_set_spec d k slice_len slice)
    as (x_new & Hsub & _); [lia|done..|].
  exists c0, x_new. split; [done|]. split.
  { intros i Hi. destruct (Hrows i Hi) as (p & Hp & _ & Hrow). eauto. }
  split; [done|]. by rewrite Hany, Hinit, Hsub.
Qed.
End Orchestrator.

Section OrchestratorRuns.
Import IEEE.

Lemma corner_case_behind_guard_witness :
  pq_train_clustering 0 meta_1_1 2 (f32_of_Z <$> [5; 6]%Z) (f32_of_Z <$> [0; 0]%Z)
    [] [] [] = Ok (true, f32_of_Z <$> [5; 6]%Z, []).
Proof.
  refine (proj2 (proj2 (corner_case_behind_guard 0 meta_1_1 (f32_of_Z <$> [5; 6]%Z)
            (f32_of_Z <$> [0; 0]%Z) [] [] [] _ _ _)));
    [reflexivity | reflexivity | apply rotation_perm].
Defined.

(** C1, counterexample: two training values for two centroids. The call
    returns failure and the table holds the two values in the order of the
    permutation. *)
Lemma corner_case_counterexample :
  pq_k meta_1_1 = 2 ∧
  pq_train 0 TT_DEFAULT meta_1_1 2 (f32_of_Z <$> [5; 6]%Z) (f32_of_Z <$> [0; 0]%Z)
  = Ok (false, f32_of_Z <$> [6; 5]%Z, []).
Proof. split; vm_compute; reflexivity. Qed.

Lemma initialize_before_subsample_witness :
  ∃ c0 x_new,
    initialize_centroids TT_DEFAULT 1 1 2 513 slice_513 (f32_of_Z <$> [0; 0]%Z)
      = Ok c0 ∧
    subsample_training_set 1 2 513 slice_513 = Ok (512, x_new) ∧
    pq_train 0 TT_DEFAULT meta_1_1 513 slice_513 (f32_of_Z <$> [0; 0]%Z) =
      pq_train_clustering 0 meta_1_1 512 x_new c0
        (replicate 513 czero) (replicate 513 0) [LogSubsample 512].
Proof.
  destruct (initialize_before_subsample 0 meta_1_1 513 slice_513 (f32_of_Z <$> [0; 0]%Z))
    as (_ & c0 & x_new & Hinit & _ & Hsub & Hrun).
  - vm_compute. lia.
  - reflexivity.
  - reflexivity.
  - apply rotation_perm.
  - apply rotation_perm.
  - exists c0, x_new. split; [exact Hinit|]. split; [exact Hsub|exact Hrun].
Defined.

(** C2, counterexample: the 513 training values [slice_513] for two
    centroids. The code initialises on the 513 values: both centroids are
    0, the first recomputation leaves the second centroid empty, the repair
    splits the first, and the table ends as (0, 100). In the order of the
    specification the initialisation is on the 512 subsampled values: the
    centroids start as 100 and 0 and the table ends as (100, 0). *)
Lemma initialize_order_counterexample :
  (∃ log, pq_train 1 TT_DEFAULT meta_1_1 513 slice_513 (f32_of_Z <$> [0; 0]%Z)
          = Ok (true, f32_of_Z <$> [0; 100]%Z, log)) ∧
  (∃ log, pq_train_subsample_first 1 TT_DEFAULT meta_1_1 513 slice_513
            (f32_of_Z <$> [0; 0]%Z)
          = Ok (true, f32_of_Z <$> [100; 0]%Z, log)).
Proof. split; eexists; vm_compute; reflexivity. Qed.

(** C3, the failing input: one training value for two centroids. The
    default initialisation reads [perm[1]] of a one-element permutation
    before the low-data guard is reached. *)
Lemma low_data_guard_after_initialisation :
  pq_train 0 TT_DEFAULT meta_1_1 1 [f32_of_Z 5] (f32_of_Z <$> [0; 0]%Z)
  = Err OutOfBounds.
Proof. vm_compute. reflexivity. Qed.
End OrchestratorRuns.

(** ** split_clusters *)

Lemma for_range_split_Ok {St : Type} (lo n m : nat) (body : nat → St → result St)
    (s s' : St) :
  for_range lo (n + m) body s = Ok s' ↔
  ∃ s1, for_range lo n body s = Ok s1 ∧ for_range (lo + n) m body s1 = Ok s'.
Proof.
  revert lo s. induction n as [|n IH]; intros lo s; simpl.
  - rewrite Nat.add_0_r. split; [intros Hrun; by exists s|].
    by intros (s1 & [= <-] & Hrun).
  - rewrite bind_Ok. setoid_rewrite IH. setoid_rewrite bind_Ok.
    replace (lo + S n) with (S lo + n) by lia.
    split; [intros (s1 & Hb & s2 & Hn & Hm)|intros (s2 & (s1 & Hb & Hn) & Hm)]; eauto.
Qed.

Section SplitClusters.
Context {C D : Type} `{Arith C D} `{Extern C}.

Lemma find_donor_Ok (fuel k n : nat) (hassign : list C) (cj t cj' t' : nat) :
  0 < k → cj < k → find_donor fuel k n hassign cj t = Ok (cj', t') →
  cj' < k ∧ ∃ hj t0, hassign !! cj' = Some hj ∧
    clt (rand_float seed t0) (split_prob hj n k) = true.
Proof.
  intros Hk. revert cj t. induction fuel as [|fuel IH]; intros cj t Hcj; simpl; [done|].
  intros (hj & Hrd%rd_Ok & Hrest)%bind_Ok. revert Hrest.
  destruct (clt _ _) eqn:Hacc.
  - intros [= <- <-]. split; [done|]. by exists hj, t.
  - apply IH. by apply Nat.mod_upper_bound, Nat.neq_0_lt_0.
Qed.

(** the perturbation loop on two different rows *)
Lemma perturb_spec (d k ci cj : nat) (cent : list C) :
  ci < k → cj < k → ci ≠ cj → k * d ≤ length cent →
  ∃ cent', perturb d ci cj cent = Ok cent' ∧ length cent' = length cent ∧
    ∀ c, row d c cent' =
      if decide (c = ci) then perturbed_copy (row d ci cent)
      else if decide (c = cj) then perturbed_donor (row d cj cent)
      else row d c cent.
Proof.
  intros Hci Hcj Hne Hlen. unfold perturb.
  set (f := λ (j : nat) (a : C), if Nat.even j then scale_up a else scale_down a).
  set (g := λ (j : nat) (b : C), if Nat.even j then scale_down b else scale_up b).
  edestruct (for_range_total
    (λ j (c' : list C), length c' = length cent ∧
       ∀ idx, c' !! idx =
         if decide (ci * d ≤ idx < ci * d + j) then f (idx - ci * d) <$> cent !! idx
         else if decide (cj * d ≤ idx < cj * d + j) then g (idx - cj * d) <$> cent !! idx
         else cent !! idx) 0 d)
    as (cent' & Hrun & Hl & Hlook); [| |exists cent'; split; [exact Hrun|]].
  - split; [done|]. intros idx. repeat case_decide; done || lia.
  - intros j c1 Hj [Hl1 Hlook].
    assert (Hdisj : ci * d + d ≤ cj * d ∨ cj * d + d ≤ ci * d) by nia.
    assert (ci * d + d ≤ k * d ∧ cj * d + d ≤ k * d) as [??] by nia.
    destruct (rd_lt c1 (ci * d + j)) as (a & -> & Ha); [lia|]. simpl.
    rewrite wr_lt by lia. simpl.
    fold (f j a).
    destruct (rd_lt (<[ci * d + j:=f j a]> c1) (cj * d + j)) as (b & -> & Hb).
    { rewrite length_insert. lia. }
    simpl. fold (g j b). rewrite wr_lt by (rewrite length_insert; lia).
    eexists. split; [done|]. split; [by rewrite !length_insert|].
    rewrite list_lookup_insert_ne in Hb by lia.
    rewrite Hlook in Ha, Hb.
    rewrite decide_False in Ha by lia.
    rewrite decide_False in Ha by lia.
    rewrite decide_False in Hb by lia.
    rewrite decide_False in Hb by lia.
    intros idx.
    destruct (decide (idx = cj * d + j)) as [->|Hn1].
    { rewrite list_lookup_insert_eq by (rewrite length_insert; lia).
      rewrite decide_False by lia. rewrite decide_True by lia.
      rewrite Hb. simpl. f_equal. f_equal. lia. }
    rewrite list_lookup_insert_ne by done.
    destruct (decide (idx = ci * d + j)) as [->|Hn2].
    { rewrite list_lookup_insert_eq by lia. rewrite decide_True by lia.
      rewrite Ha. simpl. f_equal. f_equal. lia. }
    rewrite list_lookup_insert_ne by done. rewrite Hlook.
    repeat case_decide; done || lia.
  - split; [done|]. intros c. apply list_eq. intros j.
    rewrite row_lookup.
    destruct (decide (c = ci)) as [->|Hn1]; [|destruct (decide (c = cj)) as [->|Hn2]].
    + unfold perturbed_copy. rewrite list_lookup_imap, row_lookup.
      case_decide; [|done]. rewrite Hlook, decide_True by lia.
      fold f. by replace (ci * d + j - ci * d) with j by lia.
    + unfold perturbed_donor. rewrite list_lookup_imap, row_lookup.
      case_decide; [|done]. rewrite Hlook, decide_False by nia.
      rewrite decide_True by lia.
      fold g. by replace (cj * d + j - cj * d) with j by lia.
    + rewrite row_lookup. case_decide; [|done].
      rewrite Hlook, decide_False by nia. by rewrite decide_False by nia.
Qed.

(** one repair, once the donor is known and is not the empty slot *)
Lemma split_one_spec (fuel d k n ci t cj t' : nat) (hassign cent : list C) (hj : C) :
  find_donor fuel k n hassign 0 t = Ok (cj, t') →
  ci < k → cj < k → ci ≠ cj → length hassign = k → k * d ≤ length cent →
  hassign !! cj = Some hj →
  ∃ cent',
    split_one fuel d k n ci t hassign cent =
      Ok (t', <[cj:=csub hj (cdiv hj (c_of_Z 2))]> (<[ci:=cdiv hj (c_of_Z 2)]> hassign),
          cent') ∧
    length cent' = length cent ∧
    ∀ c, row d c cent' =
      if decide (c = ci) then perturbed_copy (row d cj cent)
      else if decide (c = cj) then perturbed_donor (row d cj cent)
      else row d c cent.
Proof.
  intros Hfind Hci Hcj Hne Hh Hc Hhj. unfold split_one. rewrite Hfind. simpl.
  destruct (memcpy_row d ci cj cent cent) as (c1 & -> & Hl1 & Hrow1); [nia | nia |].
  simpl.
  destruct (perturb_spec d k ci cj c1) as (c2 & -> & Hl2 & Hrow2); [done..|lia|].
  simpl. rewrite (proj2 (rd_Ok _ _ _) Hhj). simpl.
  rewrite wr_lt by lia. simpl.
  assert (Hhj' : <[ci:=cdiv hj (c_of_Z 2)]> hassign !! cj = Some hj)
    by (by rewrite list_lookup_insert_ne).
  rewrite (proj2 (rd_Ok _ _ _) Hhj'). simpl.
  assert (Hhi : <[ci:=cdiv hj (c_of_Z 2)]> hassign !! ci = Some (cdiv hj (c_of_Z 2)))
    by (rewrite list_lookup_insert_eq by lia; done).
  rewrite (proj2 (rd_Ok _ _ _) Hhi). simpl.
  rewrite wr_lt by (rewrite length_insert; lia). simpl.
  exists c2. split; [done|]. split; [lia|].
  intros c. rewrite Hrow2, !Hrow1.
  rewrite (decide_True (P := ci = ci)) by done.
  destruct (decide (cj = ci)); [lia|].
  repeat case_decide; done || lia.
Qed.
End SplitClusters.

Section SplitInvariants.
Context {C D : Type} `{Arith C D} `{Extern C}.

(** the two outcomes of one round that returns *)
Lemma split_step_Ok (fuel d k n ci ns t ns' t' : nat) (h c h' c' : list C) :
  draws_not_negative → accepted_above_one →
  ci < k → length h = k → k * d ≤ length c →
  split_step fuel d k n ci (ns, t, h, c) = Ok (ns', t', h', c') →
  ∃ h0, h !! ci = Some h0 ∧
    ((ceqb h0 czero = false ∧ ns' = ns ∧ t' = t ∧ h' = h ∧ c' = c) ∨
     (ceqb h0 czero = true ∧ ∃ cj hj,
        find_donor fuel k n h 0 t = Ok (cj, t') ∧ cj < k ∧ cj ≠ ci ∧
        h !! cj = Some hj ∧
        ceqb hj czero = false ∧ clt czero (half hj) = true ∧
        ceqb (csub hj (half hj)) czero = false ∧
        ns' = S ns ∧ h' = <[cj:=csub hj (half hj)]> (<[ci:=half hj]> h) ∧
        length c' = length c ∧
        ∀ r, row d r c' =
          if decide (r = ci) then perturbed_copy (row d cj c)
          else if decide (r = cj) then perturbed_donor (row d cj c)
          else row d r c)).
Proof.
  intros Hrng Hacc Hci Hh Hc. unfold split_step.
  destruct (rd_lt h ci) as (h0 & -> & Hh0); [lia|]. simpl.
  intros Hstep. exists h0. split; [done|].
  destruct (ceqb h0 czero) eqn:Hz.
  2:{ injection Hstep as <- <- <- <-. by left. }
  right. split; [done|].
  destruct (find_donor fuel k n h 0 t) as [[cj t1]|e] eqn:Hfind.
  2:{ unfold split_one in Hstep. rewrite Hfind in Hstep. done. }
  destruct (find_donor_Ok fuel k n h 0 t cj t1) as (Hcj & hj & t0 & Hhj & Hdraw);
    [lia | lia | done |].
  destruct (Hacc _ _ _ _ (Hrng t0) Hdraw) as (Hnz & Hpos & Hrest).
  assert (Hne : ci ≠ cj) by (intros ->; congruence).
  destruct (split_one_spec fuel d k n ci t cj t1 h c hj) as (c2 & Hone & Hl2 & Hrows);
    [done..|].
  rewrite Hone in Hstep. simpl in Hstep. injection Hstep as <- <- <- <-.
  exists cj, hj. repeat split; done.
Qed.

Lemma split_inv_init (k : nat) (hassign centroids : list C) :
  length hassign = k → split_inv k hassign centroids 0 (0, 0, hassign, centroids).
Proof.
  intros Hh. split; [done|]. split; [done|]. split; [|done].
  intros r Hr. destruct (lookup_lt_is_Some_2 hassign r) as [h1 Hh1]; [lia|].
  exists h1. split; [done|]. intros _. split; [lia|done].
Qed.

Lemma split_inv_step (fuel d k n ci : nat) (hassign centroids : list C)
    (st st' : nat * nat * list C * list C) :
  draws_not_negative → accepted_above_one → positive_not_zero →
  ci < k → k * d ≤ length centroids →
  split_step fuel d k n ci st = Ok st' →
  split_inv k hassign centroids ci st → split_inv k hassign centroids (S ci) st'.
Proof.
  intros Hrng Hacc Hposnz Hci Hc Hstep.
  destruct st as [[[ns t] h] c], st' as [[[ns' t'] h'] c'].
  intros (Hh & Hlc & Hcur & Hinit).
  destruct (split_step_Ok fuel d k n ci ns t ns' t' h c h' c' Hrng Hacc Hci Hh
              ltac:(lia) Hstep)
    as (h0 & Hh0 & [(Hnz & -> & -> & -> & ->)|(Hz & cj & hj & Hfind & Hcj & Hne & Hhj &
         Hjnz & Hpos & Hrest & -> & -> & Hlc' & Hrows)]).
  - split; [done|]. split; [done|]. split.
    + intros r Hr. destruct (Hcur r Hr) as (h1 & Hh1 & Hzero).
      exists h1. split; [done|]. intros Hz1. destruct (Hzero Hz1) as [Hle Hini].
      split; [|done]. destruct (decide (r = ci)) as [->|]; [congruence|lia].
    + intros r h1 Hr. apply Hinit. lia.
  - split; [by rewrite !length_insert|]. split; [lia|]. split.
    + intros r Hr. destruct (decide (r = cj)) as [->|Hrj].
      { exists (csub hj (half hj)).
        rewrite list_lookup_insert_eq by (rewrite length_insert; lia).
        split; [done|]. congruence. }
      rewrite list_lookup_insert_ne by done.
      destruct (decide (r = ci)) as [->|Hri].
      { exists (half hj). rewrite list_lookup_insert_eq by lia. split; [done|].
        rewrite (Hposnz _ Hpos). done. }
      rewrite list_lookup_insert_ne by done.
      destruct (Hcur r Hr) as (h1 & Hh1 & Hzero). exists h1. split; [done|].
      intros Hz1. destruct (Hzero Hz1). split; [lia|done].
    + intros r h1 Hr Hini Hz1.
      assert (h !! r = Some h1) as Hcurr by (apply Hinit; [lia|done..]).
      rewrite list_lookup_insert_ne by (intros <-; congruence).
      rewrite list_lookup_insert_ne by lia. done.
Qed.

Lemma split_prefix_inv (fuel d k n ci : nat) (hassign centroids : list C)
    (st : nat * nat * list C * list C) :
  draws_not_negative → accepted_above_one → positive_not_zero →
  ci ≤ k → length hassign = k → k * d ≤ length centroids →
  for_range 0 ci (split_step fuel d k n) (0, 0, hassign, centroids) = Ok st →
  split_inv k hassign centroids ci st.
Proof.
  intros Hrng Hacc Hposnz Hci Hh Hc Hrun.
  apply (for_range_Ok_inv (split_inv k hassign centroids) 0 ci _ _ _ Hrun).
  - by apply split_inv_init.
  - intros i s s' Hi Hstep. eapply split_inv_step; done || lia.
Qed.

(** the value of the histogram after one update *)
Lemma total_insert (value : C → Q) (l : list C) (i : nat) (a v : C) :
  l !! i = Some a →
  (total value (<[i:=v]> l) == total value l - value a + value v)%Q.
Proof.
  unfold total. revert i. induction l as [|b l IH]; intros [|i] Hi; try done.
  - injection Hi as ->. rewrite !fmap_cons. cbn [insert list_insert foldr].
    rewrite fmap_cons. cbn [foldr]. ring.
  - cbn [insert list_insert]. rewrite !fmap_cons. cbn [foldr].
    rewrite (IH i Hi). ring.
Qed.

Lemma split_inv_skip (k ci ns t : nat) (hassign centroids h c : list C) (h0 : C) :
  h !! ci = Some h0 → ceqb h0 czero = false →
  split_inv k hassign centroids ci (ns, t, h, c) →
  split_inv k hassign centroids (S ci) (ns, t, h, c).
Proof.
  intros Hh0 Hnz (Hh & Hlc & Hcur & Hinit).
  split; [done|]. split; [done|]. split.
  - intros r Hr. destruct (Hcur r Hr) as (h1 & Hh1 & Hzero).
    exists h1. split; [done|]. intros Hz1. destruct (Hzero Hz1) as [Hle Hini].
    split; [|done]. destruct (decide (r = ci)) as [->|]; [congruence|lia].
  - intros r h1 Hr. apply Hinit. lia.
Qed.

Lemma split_inv_repair (k ci cj ns t ns' t' : nat) (hassign centroids h c c' : list C)
    (hj hi hj' : C) :
  ci < k → cj < k → h !! cj = Some hj → ceqb hj czero = false →
  ceqb hi czero = false → ceqb hj' czero = false → length c' = length c →
  split_inv k hassign centroids ci (ns, t, h, c) →
  split_inv k hassign centroids (S ci) (ns', t', <[cj:=hj']> (<[ci:=hi]> h), c').
Proof.
  intros Hci Hcj Hhj Hjnz Hinz Hjnz' Hlc' (Hh & Hlc & Hcur & Hinit).
  split; [by rewrite !length_insert|]. split; [lia|]. split.
  - intros r Hr. destruct (decide (r = cj)) as [->|Hrj].
    { exists hj'.
      rewrite list_lookup_insert_eq by (rewrite length_insert; lia).
      split; [done|]. congruence. }
    rewrite list_lookup_insert_ne by done.
    destruct (decide (r = ci)) as [->|Hri].
    { exists hi. rewrite list_lookup_insert_eq by lia. split; [done|]. congruence. }
    rewrite list_lookup_insert_ne by done.
    destruct (Hcur r Hr) as (h1 & Hh1 & Hzero). exists h1. split; [done|].
    intros Hz1. destruct (Hzero Hz1). split; [lia|done].
  - intros r h1 Hr Hini Hz1.
    assert (h !! r = Some h1) as Hcurr by (apply Hinit; [lia|done..]).
    rewrite list_lookup_insert_ne by (intros <-; congruence).
    rewrite list_lookup_insert_ne by lia. done.
Qed.
End SplitInvariants.

(** *** The repairs in IEEE arithmetic, whatever the collaborators are *)

Lemma SFeqb_zero (h : spec_float) :
  SFeqb h (IEEE.f32_of_Z 0) = true → ∃ s, h = S754_zero s.
Proof. destruct h as [s|[]| |[] m e]; try done. by exists s. Qed.

Section IeeeSplitChain.
Context {E : Extern spec_float}.
#[local] Existing Instance IEEE.arith.

Lemma one_plus_eps :
  dadd (d_of_Z 1) EPS = SFdiv 53 1024 (IEEE.f64_of_Z 1025) (IEEE.f64_of_Z 1024).
Proof. vm_compute. reflexivity. Qed.

Lemma one_minus_eps :
  dsub (d_of_Z 1) EPS = SFdiv 53 1024 (IEEE.f64_of_Z 1023) (IEEE.f64_of_Z 1024).
Proof. vm_compute. reflexivity. Qed.

Lemma perturbed_copy_ieee (r : list spec_float) : perturbed_copy r = row_up_down r.
Proof.
  unfold perturbed_copy, row_up_down. apply imap_ext. intros j a _.
  unfold scale_up, scale_down, times_1024th. rewrite one_plus_eps, one_minus_eps.
  by destruct (Nat.even j).
Qed.

Lemma perturbed_donor_ieee (r : list spec_float) : perturbed_donor r = row_down_up r.
Proof.
  unfold perturbed_donor, row_down_up. apply imap_ext. intros j a _.
  unfold scale_up, scale_down, times_1024th. rewrite one_plus_eps, one_minus_eps.
  by destruct (Nat.even j).
Qed.

(** the two outcomes of one round that returns, in IEEE arithmetic: the
    donor is a normal number of at least one, which is halved, or plus
    infinity, which leaves plus infinity and NaN *)
Lemma ieee_split_step_Ok (fuel d k n ci ns t ns' t' : nat)
    (h c h' c' : list spec_float) :
  draws_not_negative → binary32s h →
  ci < k → length h = k → k * d ≤ length c →
  split_step fuel d k n ci (ns, t, h, c) = Ok (ns', t', h', c') →
  ∃ h0, h !! ci = Some h0 ∧
    ((SFeqb h0 (IEEE.f32_of_Z 0) = false ∧ ns' = ns ∧ t' = t ∧ h' = h ∧ c' = c) ∨
     (SFeqb h0 (IEEE.f32_of_Z 0) = true ∧ ∃ cj hj,
        find_donor fuel k n h 0 t = Ok (cj, t') ∧ cj < k ∧ cj ≠ ci ∧
        h !! cj = Some hj ∧
        h' = <[cj:=SFsub 24 128 hj (SFdiv 24 128 hj (IEEE.f32_of_Z 2))]>
               (<[ci:=SFdiv 24 128 hj (IEEE.f32_of_Z 2)]> h) ∧
        ((∃ m e, hj = S754_finite false m e ∧
                 Zdigits2 (Zpos m) = 24%Z ∧ (-23 ≤ e ≤ 104)%Z ∧
                 SFdiv 24 128 hj (IEEE.f32_of_Z 2) = S754_finite false m (e - 1) ∧
                 SFsub 24 128 hj (SFdiv 24 128 hj (IEEE.f32_of_Z 2))
                   = S754_finite false m (e - 1)) ∨
         (hj = S754_infinity false ∧
          SFdiv 24 128 hj (IEEE.f32_of_Z 2) = S754_infinity false ∧
          SFsub 24 128 hj (SFdiv 24 128 hj (IEEE.f32_of_Z 2)) = S754_nan)) ∧
        ns' = S ns ∧ length c' = length c ∧
        ∀ r, row d r c' =
          if decide (r = ci) then row_up_down (row d cj c)
          else if decide (r = cj) then row_down_up (row d cj c)
          else row d r c)).
Proof.
  intros Hrng Hval Hci Hh Hc. unfold split_step.
  destruct (rd_lt h ci) as (h0 & -> & Hh0); [lia|].
  cbn [mbind result_bind mret result_ret].
  intros Hstep. exists h0. split; [done|].
  change (ceqb h0 czero) with (SFeqb h0 (IEEE.f32_of_Z 0)) in Hstep.
  destruct (SFeqb h0 (IEEE.f32_of_Z 0)) eqn:Hz.
  2:{ injection Hstep as <- <- <- <-. by left. }
  right. split; [done|].
  destruct (find_donor fuel k n h 0 t) as [[cj t1]|e] eqn:Hfind.
  2:{ unfold split_one in Hstep. rewrite Hfind in Hstep. done. }
  destruct (find_donor_Ok fuel k n h 0 t cj t1) as (Hcj & hj & t0 & Hhj & Hdraw);
    [lia | lia | done |].
  pose proof (proj1 (Forall_lookup _ _) Hval cj hj Hhj) as Hvj. cbv beta in Hvj.
  pose proof (accepted_donor _ _ _ _ Hvj (Hrng t0) Hdraw) as Hdonor.
  assert (Hne : ci ≠ cj).
  { intros ->. rewrite Hh0 in Hhj. injection Hhj as ->.
    destruct Hdonor as [(m & e & -> & _)| ->]; by vm_compute in Hz. }
  destruct (split_one_spec fuel d k n ci t cj t1 h c _ Hfind Hci Hcj Hne Hh Hc Hhj)
    as (c2 & Hone & Hl2 & Hrows).
  change (cdiv hj (c_of_Z 2)) with (SFdiv 24 128 hj (IEEE.f32_of_Z 2)) in Hone.
  change (csub hj (SFdiv 24 128 hj (IEEE.f32_of_Z 2)))
    with (SFsub 24 128 hj (SFdiv 24 128 hj (IEEE.f32_of_Z 2))) in Hone.
  rewrite Hone in Hstep. cbn [mbind result_bind mret result_ret] in Hstep.
  injection Hstep as <- <- <- <-.
  exists cj, hj. split; [done|]. split; [done|]. split; [done|]. split; [done|].
  split; [done|]. split.
  { destruct Hdonor as [(m & e & -> & Hd & He)| ->].
    - left. exists m, e. split; [done|]. split; [done|]. split; [done|].
      destruct (half_count m e Hd He) as [Hhalf Hsub]. unfold half in Hhalf, Hsub.
      change (cdiv (S754_finite false m e) (c_of_Z 2))
        with (SFdiv 24 128 (S754_finite false m e) (IEEE.f32_of_Z 2)) in Hhalf, Hsub.
      rewrite Hhalf in Hsub |- *. split; [done|]. exact Hsub.
    - right. by vm_compute. }
  split; [done|]. split; [done|].
  intros r. rewrite Hrows, perturbed_copy_ieee, perturbed_donor_ieee. done.
Qed.

Lemma ieee_split_inv_step (fuel d k n ci : nat) (hassign centroids : list spec_float)
    (st st' : nat * nat * list spec_float * list spec_float) :
  draws_not_negative → ci < k → k * d ≤ length centroids →
  split_step fuel d k n ci st = Ok st' →
  ieee_split_inv k hassign centroids ci st →
  ieee_split_inv k hassign centroids (S ci) st'.
Proof.
  intros Hrng Hci Hc Hstep.
  destruct st as [[[ns t] h] c], st' as [[[ns' t'] h'] c'].
  intros (Hinv & Hval & Hfin & Hcnt). cbn [fst snd] in Hval, Hfin, Hcnt.
  pose proof Hinv as (Hh & Hlc & _).
  destruct (ieee_split_step_Ok fuel d k n ci ns t ns' t' h c h' c' Hrng Hval Hci Hh
              ltac:(lia) Hstep)
    as (h0 & Hh0 & [(Hnz & -> & -> & -> & ->)|(Hz & cj & hj & Hfind & Hcj & Hne &
         Hhj & -> & Hcases & -> & Hlc' & Hrows)]).
  - split; [by eapply split_inv_skip|]. done.
  - apply SFeqb_zero in Hz as [s0 ->].
    destruct Hcases as [(m & e & -> & Hd & He & -> & ->)|(-> & -> & ->)].
    + split; [|split; [|split]]; cbn [fst snd].
      * eapply split_inv_repair; try done.
      * apply Forall_insert; [apply Forall_insert; [done|]|];
          apply valid_count_binary32, valid_count_finite; done || lia.
      * intros Hf. destruct (Hfin Hf) as [Hfh Htot]. split.
        { by apply Forall_insert; [apply Forall_insert|]. }
        rewrite (total_insert sf_value _ cj (S754_finite false m e))
          by (by rewrite list_lookup_insert_ne).
        rewrite (total_insert sf_value _ ci (S754_zero s0)) by done.
        rewrite <- Htot, <- (sf_value_half m e). cbn [sf_value]. ring.
      * intros Hv. specialize (Hcnt Hv).
        apply Forall_insert; [apply Forall_insert; [done|]|];
          apply valid_count_finite; done || lia.
    + split; [|split; [|split]]; cbn [fst snd].
      * eapply split_inv_repair; try done.
      * by apply Forall_insert; [apply Forall_insert|].
      * intros Hf. destruct (Hfin Hf) as [Hfh _].
        by pose proof (proj1 (Forall_lookup _ _) Hfh cj _ Hhj).
      * intros Hv. specialize (Hcnt Hv).
        by pose proof (proj1 (Forall_lookup _ _) Hcnt cj _ Hhj).
Qed.

Lemma ieee_split_prefix_inv (fuel d k n ci : nat) (hassign centroids : list spec_float)
    (st : nat * nat * list spec_float * list spec_float) :
  draws_not_negative → binary32s hassign →
  ci ≤ k → length hassign = k → k * d ≤ length centroids →
  for_range 0 ci (split_step fuel d k n) (0, 0, hassign, centroids) = Ok st →
  ieee_split_inv k hassign centroids ci st.
Proof.
  intros Hrng Hval Hci Hh Hc Hrun.
  apply (for_range_Ok_inv (ieee_split_inv k hassign centroids) 0 ci _ _ _ Hrun).
  - split; [by apply split_inv_init|]. done.
  - intros i s s' Hi Hstep. eapply ieee_split_inv_step; done || lia.
Qed.

Lemma valid_counts_binary32s (hassign : list spec_float) :
  valid_counts hassign → binary32s hassign ∧ finite_counts hassign.
Proof.
  intros Hv. split; (eapply Forall_impl; [exact Hv|]);
    intros h Hh; by apply valid_count_binary32 in Hh as [? ?].
Qed.
End IeeeSplitChain.
Section SplitClaims.
Context {C D : Type} `{Arith C D} `{Extern C}.

Lemma split_clusters_Ok (fuel d k n nsplit : nat) (hassign centroids h' c' : list C) :
  split_clusters fuel d k n hassign centroids = Ok (nsplit, h', c') →
  ∃ t, for_range 0 k (split_step fuel d k n) (0, 0, hassign, centroids)
       = Ok (nsplit, t, h', c').
Proof.
  unfold split_clusters. intros ([[[ns t] h1] c1] & Hrun & Heq)%bind_Ok.
  injection Heq as <- <- <-. by exists t.
Qed.

End SplitClaims.

Section IeeeSplitClaims.
Context {E : Extern spec_float}.
#[local] Existing Instance IEEE.arith.

(** C5. Whenever [split_clusters] returns in IEEE-754 arithmetic, on a
    histogram of binary32 values and with draws of the generator that are
    not negative: no histogram entry is zero (the code's own test [== 0]),
    and every centroid [ci] that entered with a zero count was repaired in
    its round. A donor [cj] other than [ci] was found with a count [hj];
    slot [ci] was given [hj / 2], which is above zero, and the donor was
    left [hj - hj / 2]; row [ci] became the donor's row with its even
    coordinates multiplied by [1025/1024] and its odd ones by [1023/1024],
    and the donor's row got the opposite factors. A finite donor is a
    normal number [m * 2 ^ e] of at least one (a mantissa of 24 bits and an
    exponent of at least -23) and both slots are left with
    [m * 2 ^ (e - 1)], exactly half of it. If the histogram on entry holds
    counts ([+0] or positive normal floats, as [compute_centroids] leaves
    them), so does the histogram on return, and all its entries are above
    zero. This holds for every [n] ([n - k] is unsigned). The histogram is
    assumed to hold binary32 values because [spec_float] has finite values
    with mantissas that no binary32 number has. *)
Theorem no_empty_cluster_after_split (fuel d k n nsplit : nat)
    (hassign centroids hassign' centroids' : list spec_float) :
  draws_not_negative →
  Forall (λ h, valid_binary 24 128 h = true) hassign →
  length hassign = k → length centroids = k * d →
  split_clusters fuel d k n hassign centroids = Ok (nsplit, hassign', centroids') →
  (∀ c, c < k → ∃ h, hassign' !! c = Some h ∧ SFeqb h (IEEE.f32_of_Z 0) = false) ∧
  (Forall (λ h, valid_count h = true) hassign →
   Forall (λ h, valid_count h = true ∧ sf_positive h = true) hassign') ∧
  ∀ ci h0, hassign !! ci = Some h0 → SFeqb h0 (IEEE.f32_of_Z 0) = true →
    ∃ ns t hb cb cj t' hj cb',
      for_range 0 ci (split_step fuel d k n) (0, 0, hassign, centroids)
        = Ok (ns, t, hb, cb) ∧
      find_donor fuel k n hb 0 t = Ok (cj, t') ∧ cj < k ∧ cj ≠ ci ∧
      hb !! cj = Some hj ∧
      for_range 0 (S ci) (split_step fuel d k n) (0, 0, hassign, centroids)
        = Ok (S ns, t',
              <[cj:=SFsub 24 128 hj (SFdiv 24 128 hj (IEEE.f32_of_Z 2))]>
                (<[ci:=SFdiv 24 128 hj (IEEE.f32_of_Z 2)]> hb), cb') ∧
      sf_positive (SFdiv 24 128 hj (IEEE.f32_of_Z 2)) = true ∧
      (sf_finite hj = true →
       ∃ m e, hj = S754_finite false m e ∧ Zdigits2 (Zpos m) = 24%Z ∧ (-23 ≤ e)%Z ∧
              SFdiv 24 128 hj (IEEE.f32_of_Z 2) = S754_finite false m (e - 1) ∧
              SFsub 24 128 hj (SFdiv 24 128 hj (IEEE.f32_of_Z 2))
                = S754_finite false m (e - 1)) ∧
      row d ci cb' = row_up_down (row d cj cb) ∧
      row d cj cb' = row_down_up (row d cj cb).
Proof.
  intros Hrng Hval Hh Hc Hrun.
  apply split_clusters_Ok in Hrun as [tk Hrun].
  pose proof (ieee_split_prefix_inv fuel d k n k hassign centroids _ Hrng Hval
                ltac:(lia) Hh ltac:(lia) Hrun) as ((Hlh' & _ & Hcur & _) & _ & _ & Hcnt).
  cbn [fst snd] in Hcnt.
  assert (Hnz : ∀ c h, hassign' !! c = Some h → SFeqb h (IEEE.f32_of_Z 0) = false).
  { intros c h Hch.
    assert (Hck : c < k) by (rewrite <- Hlh'; by eapply lookup_lt_Some).
    destruct (Hcur c Hck) as (h1 & Hh1 & Hzero). rewrite Hch in Hh1. injection Hh1 as <-.
    destruct (SFeqb h (IEEE.f32_of_Z 0)) eqn:Hz; [|done].
    destruct (Hzero Hz); lia. }
  split; [|split].
  - intros c Hck. destruct (Hcur c Hck) as (h1 & Hh1 & _). exists h1.
    split; [done|]. by eapply Hnz.
  - intros Hv. specialize (Hcnt Hv). apply Forall_lookup. intros c h Hch.
    pose proof (proj1 (Forall_lookup _ _) Hcnt c h Hch) as Hvh. cbv beta in Hvh.
    split; [done|]. apply valid_count_nonzero; [done|]. by eapply Hnz.
  - intros ci h0 Hh0 Hz.
    assert (Hci : ci < k) by (rewrite <- Hh; by eapply lookup_lt_Some).
    replace k with (ci + (1 + (k - ci - 1))) in Hrun at 1 by lia.
    apply for_range_split_Ok in Hrun as (st & Hpre & Hrun).
    apply for_range_split_Ok in Hrun as (st1 & Hstep & _).
    cbn [for_range] in Hstep. apply bind_Ok in Hstep as (st1' & Hstep & [= ->]).
    pose proof (ieee_split_prefix_inv fuel d k n ci hassign centroids st Hrng Hval
                  ltac:(lia) Hh ltac:(lia) Hpre) as Hinv.
    destruct st as [[[ns t] hb] cb], st1 as [[[ns1 t1] hb1] cb1].
    destruct Hinv as ((Hlh & Hlc & _ & Hinit) & Hvalb & _). cbn [fst snd] in Hvalb.
    destruct (ieee_split_step_Ok fuel d k n ci ns t ns1 t1 hb cb hb1 cb1 Hrng Hvalb Hci
                Hlh ltac:(lia) Hstep)
      as (h0' & Hh0' & [(Hnz0 & _)|(_ & cj & hj & Hfind & Hcj & Hne & Hhj &
         -> & Hcases & -> & _ & Hrows)]).
    { rewrite (Hinit ci h0) in Hh0' by (done || lia). injection Hh0' as <-.
      congruence. }
    exists ns, t, hb, cb, cj, t1, hj, cb1.
    split; [done|]. split; [done|]. split; [done|]. split; [done|]. split; [done|].
    split.
    { replace (S ci) with (ci + 1) by lia. apply for_range_split_Ok.
      eexists. split; [done|]. cbn [for_range]. by rewrite Hstep. }
    split; [|split].
    + destruct Hcases as [(m & e & -> & _ & _ & -> & _)|(-> & -> & _)]; done.
    + intros Hfin. destruct Hcases as [(m & e & -> & Hd & He & Hhalf & Hsub)|(-> & _)];
        [|done].
      exists m, e. split; [done|]. split; [done|]. split; [lia|]. done.
    + rewrite !Hrows. rewrite decide_True by done.
      rewrite decide_False by done. by rewrite decide_True by done.
Qed.

(** C9. Every call of [split_clusters] that returns in IEEE-754
    arithmetic, on a histogram of finite binary32 values and with draws of
    the generator that are not negative, leaves a histogram of finite
    values with the same total, where the total is the sum of the rational
    values of the floats: if the entries on input are the floats of numbers
    of training vectors below [2 ^ 24], the entries on output still add up
    to the number of assigned training vectors. In every repair, the count
    written to the repaired slot and the count left to the donor add up to
    the donor's count before the split. *)
Theorem split_keeps_total (fuel d k n nsplit : nat)
    (hassign centroids hassign' centroids' : list spec_float) :
  draws_not_negative →
  Forall (λ h, valid_binary 24 128 h = true) hassign →
  Forall (λ h, sf_finite h = true) hassign →
  length hassign = k → length centroids = k * d →
  split_clusters fuel d k n hassign centroids = Ok (nsplit, hassign', centroids') →
  Forall (λ h, sf_finite h = true) hassign' ∧
  (total sf_value hassign' == total sf_value hassign)%Q ∧
  (∀ counts, Forall (λ m, (Z.of_nat m < 2 ^ 24)%Z) counts →
     hassign = (λ m, IEEE.f32_of_Z (Z.of_nat m)) <$> counts →
     (total sf_value hassign' == inject_Z (Z.of_nat (sum_list counts)))%Q) ∧
  ∀ ci ns t hb cb t' hb' cb', ci < k →
    for_range 0 ci (split_step fuel d k n) (0, 0, hassign, centroids)
      = Ok (ns, t, hb, cb) →
    split_step fuel d k n ci (ns, t, hb, cb) = Ok (S ns, t', hb', cb') →
    ∃ cj hj hi' hj',
      cj ≠ ci ∧ hb !! cj = Some hj ∧ hb' !! ci = Some hi' ∧ hb' !! cj = Some hj' ∧
      sf_finite hj = true ∧ sf_finite hi' = true ∧ sf_finite hj' = true ∧
      (sf_value hi' + sf_value hj' == sf_value hj)%Q.
Proof.
  intros Hrng Hval Hfin Hh Hc Hrun.
  apply split_clusters_Ok in Hrun as [tk Hrun].
  pose proof (ieee_split_prefix_inv fuel d k n k hassign centroids _ Hrng Hval
                ltac:(lia) Hh ltac:(lia) Hrun) as (_ & _ & Hfin' & _).
  cbn [fst snd] in Hfin'. destruct (Hfin' Hfin) as [Hf' Htot].
  split; [done|]. split; [done|]. split.
  - intros counts Hcounts ->. rewrite Htot. by apply total_f32_of_Z.
  - intros ci ns t hb cb t' hb' cb' Hci Hpre Hstep.
    pose proof (ieee_split_prefix_inv fuel d k n ci hassign centroids _ Hrng Hval
                  ltac:(lia) Hh ltac:(lia) Hpre) as ((Hlh & Hlc & _) & Hvalb & Hfinb & _).
    cbn [fst snd] in Hvalb, Hfinb. destruct (Hfinb Hfin) as [Hfb _].
    destruct (ieee_split_step_Ok fuel d k n ci ns t (S ns) t' hb cb hb' cb' Hrng Hvalb
                Hci Hlh ltac:(lia) Hstep)
      as (h0 & Hh0 & [(_ & Hns & _)|(_ & cj & hj & Hfind & Hcj & Hne & Hhj &
         -> & Hcases & _)]); [lia|].
    pose proof (proj1 (Forall_lookup _ _) Hfb cj hj Hhj) as Hfj. cbv beta in Hfj.
    destruct Hcases as [(m & e & -> & Hd & He & -> & ->)|(-> & _)]; [|done].
    exists cj, (S754_finite false m e), (S754_finite false m (e - 1)),
      (S754_finite false m (e - 1)).
    split; [done|]. split; [done|]. split.
    { rewrite list_lookup_insert_ne by done. by rewrite list_lookup_insert_eq by lia. }
    split; [by rewrite list_lookup_insert_eq by (rewrite length_insert; lia)|].
    split; [done|]. split; [done|]. split; [done|].
    apply sf_value_half.
Qed.
End IeeeSplitClaims.

Section SplitWitness.
Import IEEE.

Lemma ieee_draws_not_negative : draws_not_negative.
Proof.
  intros t.
  change (SFltb (SFdiv prec32 emax32 (f32_of_Z ((seed + 7 * Z.of_nat t) mod 16))
                   (f32_of_Z 16)) (f32_of_Z 0) = false).
  assert (Hs : sf_sign (SFdiv prec32 emax32 (f32_of_Z ((seed + 7 * Z.of_nat t) mod 16))
                          (f32_of_Z 16)) ≠ Some true).
  { intros (sx & sy & Hx & Hy & Hxor)%SFdiv_sign.
    apply f32_of_Z_sign in Hx as ->; [|apply Z.mod_pos_bound; lia].
    apply f32_of_Z_sign in Hy as ->; [|lia]. done. }
  revert Hs. generalize (SFdiv prec32 emax32 (f32_of_Z ((seed + 7 * Z.of_nat t) mod 16))
                           (f32_of_Z 16)).
  by intros [[]|[]| |[] m e].
Qed.


Lemma counts_0503_binary32 : binary32s counts_0503.
Proof. repeat constructor. Qed.

Lemma counts_0503_finite : finite_counts counts_0503.
Proof. repeat constructor. Qed.

(** the histogram 0, 5, 0, 3 of 8 vectors: cluster 0 takes half of
    cluster 1 (5/2 each) and the row (1024, 2048) as (1025, 2046), leaving
    (1023, 2050) there; cluster 2 then takes half of cluster 0 (5/4 each)
    and its row, perturbed again *)
Lemma no_empty_cluster_after_split_witness :
  split_clusters 8 2 4 8 counts_0503 table_4x2
  = Ok (2, (λ z, SFdiv prec32 emax32 (f32_of_Z z) (f32_of_Z 4)) <$> [5; 10; 5; 12]%Z,
        (λ z, SFdiv prec32 emax32 (f32_of_Z z) (f32_of_Z 1024))
          <$> [1048575; 2097150; 1047552; 2099200; 1050625; 2093058; 7168; 8192]%Z) ∧
  ∀ c, c < 4 →
    ∃ h, ((λ z, SFdiv prec32 emax32 (f32_of_Z z) (f32_of_Z 4)) <$> [5; 10; 5; 12]%Z)
           !! c = Some h ∧
         SFeqb h (f32_of_Z 0) = false.
Proof.
  assert (Hrun : split_clusters 8 2 4 8 counts_0503 table_4x2
    = Ok (2, (λ z, SFdiv prec32 emax32 (f32_of_Z z) (f32_of_Z 4)) <$> [5; 10; 5; 12]%Z,
          (λ z, SFdiv prec32 emax32 (f32_of_Z z) (f32_of_Z 1024))
            <$> [1048575; 2097150; 1047552; 2099200; 1050625; 2093058; 7168; 8192]%Z))
    by (vm_compute; reflexivity).
  split; [exact Hrun|].
  exact (proj1 (no_empty_cluster_after_split 8 2 4 8 _ counts_0503 table_4x2 _ _
                  ieee_draws_not_negative counts_0503_binary32 eq_refl eq_refl Hrun)).
Defined.

(** the same call: 0 + 5 + 0 + 3 = 5/4 + 5/2 + 5/4 + 3 = 8 *)
Lemma split_keeps_total_witness :
  split_clusters 8 2 4 8 counts_0503 table_4x2
  = Ok (2, (λ z, SFdiv prec32 emax32 (f32_of_Z z) (f32_of_Z 4)) <$> [5; 10; 5; 12]%Z,
        (λ z, SFdiv prec32 emax32 (f32_of_Z z) (f32_of_Z 1024))
          <$> [1048575; 2097150; 1047552; 2099200; 1050625; 2093058; 7168; 8192]%Z) ∧
  (total sf_value
     ((λ z, SFdiv prec32 emax32 (f32_of_Z z) (f32_of_Z 4)) <$> [5; 10; 5; 12]%Z)
   == 8)%Q.
Proof.
  assert (Hrun : split_clusters 8 2 4 8 counts_0503 table_4x2
    = Ok (2, (λ z, SFdiv prec32 emax32 (f32_of_Z z) (f32_of_Z 4)) <$> [5; 10; 5; 12]%Z,
          (λ z, SFdiv prec32 emax32 (f32_of_Z z) (f32_of_Z 1024))
            <$> [1048575; 2097150; 1047552; 2099200; 1050625; 2093058; 7168; 8192]%Z))
    by (vm_compute; reflexivity).
  split; [exact Hrun|].
  destruct (split_keeps_total 8 2 4 8 _ counts_0503 table_4x2 _ _
              ieee_draws_not_negative counts_0503_binary32 counts_0503_finite
              eq_refl eq_refl Hrun)
    as (_ & _ & Hsum & _).
  apply (Hsum [0; 5; 0; 3]); [|reflexivity].
  repeat constructor.
Defined.
End SplitWitness.

(** ** The objectives of the iterations *)

Section Objectives.
Context {C D : Type} `{Arith C D} `{Special C D} `{Extern C}.

Lemma objectives_app (l1 l2 : list (event D)) :
  objectives (l1 ++ l2) = objectives l1 ++ objectives l2.
Proof. unfold objectives. apply omap_app. Qed.

Lemma objectives_iterations (i : nat) (objs : list D) :
  objectives (imap (λ j obj, LogIteration (i + j) obj) objs) = objs.
Proof.
  revert i. induction objs as [|obj objs IH]; intros i; [done|].
  cbn. f_equal. rewrite <- (IH (S i)) at 2. f_equal.
  apply imap_ext. intros j o _. simpl. f_equal. lia.
Qed.

Lemma kmeans_iterations_log (fuel iters i : nat) (meta : HnswMetadata) (nx : nat)
    (x : list C) (prev : D) (c dis : list C) (assign : list nat)
    (log log' : list (event D)) (c' : list C) :
  kmeans_iterations fuel iters i meta nx x prev c dis assign log = Ok (c', log') →
  ∃ objs, log' = log ++ imap (λ j obj, LogIteration (i + j) obj) objs ∧
          objective_trace prev objs iters.
Proof.
  revert i prev c dis assign log.
  induction iters as [|iters IH]; intros i prev c dis assign log; simpl.
  - intros [= <- <-]. exists []. by rewrite app_nil_r.
  - intros ([dis1 assign1] & _ & Hrest)%bind_Ok.
    apply bind_Ok in Hrest as (obj & _ & Hrest). revert Hrest.
    destruct (small_improvement prev obj) eqn:Hsmall.
    + intros [= <- <-]. exists [obj]. simpl. rewrite Hsmall.
      by rewrite Nat.add_0_r.
    + intros ([h1 c1] & _ & Hrest)%bind_Ok.
      apply bind_Ok in Hrest as ([[ns h2] c2] & _ & Hrest).
      apply IH in Hrest as (objs & -> & Htrace).
      exists (obj :: objs). simpl. rewrite Hsmall. split; [|done].
      rewrite <- app_assoc. simpl. rewrite Nat.add_0_r. do 2 f_equal.
      apply imap_ext. intros j o _. simpl. f_equal. lia.
Qed.

(** the objectives of a training call that iterates are those of the loop
    started on [HUGE_VAL] with 25 iterations left *)
Lemma pq_train_objective_trace (fuel : nat) (trainType : TrainType)
    (meta : HnswMetadata) (slice_len : nat) (slice centroids : list C)
    (b : bool) (c' : list C) (log : list (event D)) :
  pq_train fuel trainType meta slice_len slice centroids = Ok (b, c', log) →
  objectives log = [] ∨ objective_trace HUGE_VAL (objectives log) max_iterations.
Proof.
  assert (Hclu : ∀ nx x c dis assign log0 r,
    objectives log0 = [] →
    pq_train_clustering fuel meta nx x c dis assign log0 = Ok (b, r, log) →
    objectives log = [] ∨ objective_trace HUGE_VAL (objectives log) max_iterations).
  { intros nx x c dis assign log0 r Hlog0. unfold pq_train_clustering. cbv zeta.
    case_decide.
    - intros (? & _ & [= _ _ <-])%bind_Ok. by left.
    - intros ([c1 log1] & Hrun & [= _ _ <-])%bind_Ok.
      apply kmeans_iterations_log in Hrun as (objs & -> & Htrace).
      right. by rewrite objectives_app, Hlog0, objectives_iterations. }
  unfold pq_train. cbv zeta. intros (c0 & _ & Hrest)%bind_Ok. revert Hrest.
  destruct (decide (pq_k meta * max_points_per_centroid < slice_len));
    [|destruct (decide (slice_len < pq_k meta * min_points_per_centroid))].
  - intros ([nx x_new] & _ & Hrest)%bind_Ok.
    refine (Hclu _ _ _ _ _ _ _ _ Hrest). reflexivity.
  - intros Heq. cbv [mret result_ret] in Heq. injection Heq as _ _ <-. by left.
  - intros Hrest. refine (Hclu _ _ _ _ _ _ _ _ Hrest). reflexivity.
Qed.
Lemma objective_trace_length (prev : D) (objs : list D) (iters : nat) :
  objective_trace prev objs iters →
  length objs ≤ iters ∧ (0 < iters → 0 < length objs).
Proof.
  revert prev objs. induction iters as [|iters IH]; intros prev [|obj objs]; simpl;
    try done; try lia.
  destruct (small_improvement prev obj).
  - intros ->. simpl. lia.
  - intros [? _]%IH. lia.
Qed.

(** the loop went on after every objective but the last *)
Lemma objective_trace_continue (prev : D) (objs : list D) (iters i : nat) (p o : D) :
  objective_trace prev objs iters →
  (prev :: objs) !! i = Some p → objs !! i = Some o → S i < length objs →
  small_improvement p o = false.
Proof.
  revert prev objs i. induction iters as [|iters IH]; intros prev [|obj objs] i;
    cbn [objective_trace]; try done.
  destruct (small_improvement prev obj) eqn:Hsmall.
  - intros ->. simpl. lia.
  - intros Htrace Hp Ho Hi. destruct i as [|i].
    + simpl in Hp, Ho. by simplify_eq.
    + apply (IH obj objs i); [done..|]. simpl in Hi. lia.
Qed.

(** a loop that stops before its last iteration stops on an objective that
    passes the test *)
Lemma objective_trace_stop (prev : D) (objs : list D) (iters : nat) :
  objective_trace prev objs iters → length objs < iters →
  ∃ p o, (prev :: objs) !! (length objs - 1) = Some p ∧
         objs !! (length objs - 1) = Some o ∧ small_improvement p o = true.
Proof.
  revert prev objs. induction iters as [|iters IH]; intros prev [|obj objs];
    cbn [objective_trace]; try done; [lia|].
  destruct (small_improvement prev obj) eqn:Hsmall.
  - intros -> _. by exists prev, obj.
  - intros Htrace Hlen. simpl in Hlen.
    destruct (IH obj objs Htrace ltac:(lia)) as (p & o & Hp & Ho & Hpo).
    assert (Hpos : 0 < length objs).
    { destruct objs; [|simpl; lia]. destruct iters; [lia|done]. }
    exists p, o. cbn [length]. replace (S (length objs) - 1) with (S (length objs - 1)) by lia.
    done.
Qed.
End Objectives.


Section IeeeObjectives.
Context {E : Extern spec_float}.
#[local] Existing Instance IEEE.arith.
#[local] Existing Instance IEEE.special.

(** C7 (amended). The objectives logged by a training call in IEEE-754
    arithmetic are related by the loop's own test, written out here: the
    loop goes on after an objective [obj] only if
    [(prev - obj) / prev < 1 / 10000] does not hold of it and its
    predecessor [prev] ([HUGE_VAL], plus infinity, for the first). When
    [prev] is a positive finite number and [obj] is finite, this means that
    the difference [prev - obj] is above zero: the objective has strictly
    decreased, [obj < prev] as rational numbers. The loop stops at the
    first objective of which the test holds, or after 25 iterations: at
    most 25 objectives are logged, and if there are fewer, the test holds
    of the last one. Nothing is said of the last objective against its
    predecessor: it may be the larger one. *)
Theorem objectives_improve_until_stop (fuel : nat) (trainType : TrainType)
    (meta : HnswMetadata) (slice_len : nat) (slice centroids : list spec_float)
    (b : bool) (c' : list spec_float) (log : list (event spec_float)) :
  pq_train fuel trainType meta slice_len slice centroids = Ok (b, c', log) →
  length (objectives log) ≤ 25 ∧
  (∀ i prev obj,
     (S754_infinity false :: objectives log) !! i = Some prev →
     objectives log !! i = Some obj →
     S i < length (objectives log) →
     SFltb (SFdiv 53 1024 (SFsub 53 1024 prev obj) prev)
           (SFdiv 53 1024 (IEEE.f64_of_Z 1) (IEEE.f64_of_Z 10000)) = false ∧
     ∀ mp ep, prev = S754_finite false mp ep → sf_finite obj = true →
              (sf_value obj < sf_value prev)%Q) ∧
  (0 < length (objectives log) < 25 →
   ∃ prev obj,
     (S754_infinity false :: objectives log) !! (length (objectives log) - 1) = Some prev ∧
     objectives log !! (length (objectives log) - 1) = Some obj ∧
     SFltb (SFdiv 53 1024 (SFsub 53 1024 prev obj) prev)
           (SFdiv 53 1024 (IEEE.f64_of_Z 1) (IEEE.f64_of_Z 10000)) = true).
Proof.
  intros Hrun.
  destruct (pq_train_objective_trace _ _ _ _ _ _ _ _ _ Hrun) as [Hnil|Htrace].
  { rewrite Hnil. split; [simpl; lia|]. split; [done|]. simpl. lia. }
  pose proof (objective_trace_length _ _ _ Htrace) as [Hlen _].
  split; [exact Hlen|]. split.
  - intros i prev obj Hp Ho Hi.
    pose proof (objective_trace_continue _ _ _ i prev obj Htrace Hp Ho Hi) as Htest.
    split; [exact Htest|]. intros mp ep -> Hfin.
    by apply improvement_decreases.
  - intros [_ Hlt]. exact (objective_trace_stop _ _ _ Htrace Hlt).
Qed.
End IeeeObjectives.


Section ObjectiveRuns.
Import IEEE.

(** 78 values for two centroids that start as 0 and 1: the objectives are
    382239, about 239.9, about 0.974 and the same again; the loop goes on
    after the first three, each below its predecessor, and stops at the
    fourth *)
Lemma objectives_improve_until_stop_witness :
  ∃ c' o1 o2,
    pq_train 4 TT_DEFAULT meta_1_1 78 x_78 (f32_of_Z <$> [0; 0]%Z)
    = Ok (true, c', [LogIteration 0 (f64_of_Z 382239); LogIteration 1 o1;
                     LogIteration 2 o2; LogIteration 3 o2]) ∧
    (sf_value o1 < 240)%Q ∧ (sf_value o2 < 1)%Q ∧
    (sf_value o1 < sf_value (f64_of_Z 382239))%Q ∧ (sf_value o2 < sf_value o1)%Q ∧
    SFltb (SFdiv 53 1024 (SFsub 53 1024 o2 o2) o2)
          (SFdiv 53 1024 (f64_of_Z 1) (f64_of_Z 10000)) = true.
Proof.
  eexists _, _, _.
  assert (Hrun : pq_train 4 TT_DEFAULT meta_1_1 78 x_78 (f32_of_Z <$> [0; 0]%Z)
    = Ok (true, _, [LogIteration 0 (f64_of_Z 382239); LogIteration 1 _;
                    LogIteration 2 _; LogIteration 3 _]))
    by (vm_compute; reflexivity).
  split; [exact Hrun|].
  destruct (objectives_improve_until_stop 4 TT_DEFAULT meta_1_1 78 _ _ _ _ _ Hrun)
    as (_ & Hgo & Hstop).
  split; [vm_compute; reflexivity|]. split; [vm_compute; reflexivity|].
  split; [|split].
  - refine (proj2 (Hgo 1 _ _ eq_refl eq_refl _) _ _ eq_refl eq_refl). simpl. lia.
  - refine (proj2 (Hgo 2 _ _ eq_refl eq_refl _) _ _ eq_refl eq_refl). simpl. lia.
  - destruct Hstop as (prev & obj & Hp & Ho & Htest); [simpl; lia|].
    simpl in Hp, Ho. injection Hp as <-. injection Ho as <-. exact Htest.
Defined.

(** C7, counterexample: 128 training values, all 1024, for two centroids.
    Both initial centroids are 1024 and the first objective is 0; the
    recomputation leaves the second centroid empty, the repair moves the
    centroids to 1023 and 1025, and the second objective is 128: it has
    increased. The loop then stops. *)
Lemma objective_increase_counterexample :
  pq_train 4 TT_DEFAULT meta_1_1 128 (replicate 128 (f32_of_Z 1024))
    (f32_of_Z <$> [0; 0]%Z)
  = Ok (true, f32_of_Z <$> [1023; 1025]%Z,
        [LogIteration 0 (f64_of_Z 0); LogIteration 1 (f64_of_Z 128)]) ∧
  SFltb (f64_of_Z 0) (f64_of_Z 128) = true.
Proof. split; vm_compute; reflexivity. Qed.
End ObjectiveRuns.

(** ** Determinism *)

(** two loops whose bodies keep a relation between their states *)
Lemma for_range_rel {S1 S2 : Type} (R : nat → S1 → S2 → Prop) (lo n : nat)
    (f : nat → S1 → result S1) (g : nat → S2 → result S2)
    (s1 s1' : S1) (s2 s2' : S2) :
  R lo s1 s2 →
  (∀ i a b a' b', lo ≤ i < lo + n → R i a b →
     f i a = Ok a' → g i b = Ok b' → R (S i) a' b') →
  for_range lo n f s1 = Ok s1' → for_range lo n g s2 = Ok s2' →
  R (lo + n) s1' s2'.
Proof.
  revert lo s1 s2. induction n as [|n IH]; intros lo s1 s2 HR Hstep; simpl.
  - intros [= <-] [= <-]. by rewrite Nat.add_0_r.
  - intros (a' & Hf & Hrun1)%bind_Ok (b' & Hg & Hrun2)%bind_Ok.
    replace (lo + S n) with (S lo + n) by lia.
    apply (IH (S lo) a' b'); [|intros i ?????; apply Hstep; lia|done..].
    apply (Hstep lo s1 s2); [lia|done..].
Qed.

Section InitialTable.
Context {A : Type}.

Lemma agree_weaken (len m m' : nat) (c1 c2 : list A) :
  m' ≤ m → agree len m c1 c2 → agree len m' c1 c2.
Proof. intros Hm (? & ? & Hag). repeat split; [done..|]. intros idx ?. apply Hag. lia. Qed.

Lemma agree_eq (len m : nat) (c1 c2 : list A) :
  len ≤ m → agree len m c1 c2 → c1 = c2.
Proof.
  intros Hm (Hl1 & Hl2 & Hag). apply list_eq. intros idx.
  destruct (decide (idx < len)); [apply Hag; lia|].
  by rewrite !lookup_ge_None_2 by lia.
Qed.

Lemma agree_wr (len m idx : nat) (v : A) (c1 c2 c1' c2' : list A) :
  agree len m c1 c2 → idx ≤ m →
  wr c1 idx v = Ok c1' → wr c2 idx v = Ok c2' → agree len (S m) c1' c2' ∨
  (idx < m ∧ agree len m c1' c2').
Proof.
  intros (Hl1 & Hl2 & Hag) Hidx [Hi1 ->]%wr_Ok [Hi2 ->]%wr_Ok.
  assert (Hins : ∀ bound, (∀ i, i < bound → i ≠ idx → i < m) →
            agree len bound (<[idx:=v]> c1) (<[idx:=v]> c2)).
  { intros bound Hb. split; [by rewrite length_insert|].
    split; [by rewrite length_insert|]. intros i Hi.
    destruct (decide (i = idx)) as [->|Hne].
    - by rewrite !list_lookup_insert_eq by lia.
    - rewrite !list_lookup_insert_ne by done. apply Hag. by apply Hb. }
  destruct (decide (idx = m)) as [Heq|Hne].
  - left. apply Hins. intros i ??. lia.
  - right. split; [lia|]. apply Hins. intros i ??. lia.
Qed.

Lemma agree_wr_at (len m : nat) (v : A) (c1 c2 c1' c2' : list A) :
  agree len m c1 c2 →
  wr c1 m v = Ok c1' → wr c2 m v = Ok c2' → agree len (S m) c1' c2'.
Proof.
  intros Hag H1 H2.
  destruct (agree_wr len m m v c1 c2 c1' c2' Hag ltac:(lia) H1 H2) as [?|[? _]];
    [done|lia].
Qed.

Lemma agree_memcpy (len m n soff : nat) (src c1 c2 c1' c2' : list A) :
  agree len m c1 c2 →
  memcpy c1 m src soff n = Ok c1' → memcpy c2 m src soff n = Ok c2' →
  agree len (m + n) c1' c2'.
Proof.
  intros (Hl1 & Hl2 & Hag). unfold memcpy.
  intros (blk & [Hs ->]%rd_block_Ok & Hw1)%bind_Ok (blk' & [_ ->]%rd_block_Ok & Hw2)%bind_Ok.
  pose proof (length_wr_block _ _ _ _ Hw1). pose proof (length_wr_block _ _ _ _ Hw2).
  split; [lia|]. split; [lia|]. intros idx Hidx.
  rewrite (lookup_wr_block _ _ _ _ idx Hw1), (lookup_wr_block _ _ _ _ idx Hw2).
  case_decide; [done|]. apply Hag.
  rewrite length_take, length_drop in *. lia.
Qed.
End InitialTable.

Section Determinism.
Context {C D : Type} `{Arith C D} `{Special C D} `{Extern C}.

Lemma Ok_inj_eq {A : Type} (m : result A) (a b : A) : m = Ok a → m = Ok b → a = b.
Proof. congruence. Qed.

(** the default initialisation overwrites the whole table *)
Lemma initialize_default_agree (d nbits k nx : nat) (x c1 c2 c1' c2' : list C) :
  length c1 = k * d → length c2 = k * d →
  initialize_centroids TT_DEFAULT d nbits k nx x c1 = Ok c1' →
  initialize_centroids TT_DEFAULT d nbits k nx x c2 = Ok c2' →
  c1' = c2'.
Proof.
  intros Hl1 Hl2 Hrun1 Hrun2. unfold initialize_centroids in *. cbv zeta in *.
  apply (agree_eq (k * d) (0 + k * d)); [lia|].
  replace (0 + k * d) with ((0 + k) * d) by lia.
  eapply (for_range_rel (λ i a b, agree (k * d) (i * d) a b) 0 k _ _ c1 c1' c2 c2');
    [repeat split; [done..|intros; lia] | |exact Hrun1|exact Hrun2].
  intros i a b a' b' Hi Hag (p & Hp & Hm1)%bind_Ok (p' & Hp' & Hm2)%bind_Ok.
  rewrite Hp in Hp'. injection Hp' as <-.
  replace (S i * d) with (i * d + d) by lia.
  by eapply agree_memcpy.
Qed.

(** so does the hypercube initialisation *)
Lemma init_hypercube_agree (d nbits n : nat) (x c1 c2 c1' c2' : list C) :
  length c1 = 2 ^ nbits * d → length c2 = 2 ^ nbits * d →
  init_hypercube d nbits n x c1 = Ok c1' → init_hypercube d nbits n x c2 = Ok c2' →
  c1' = c2'.
Proof.
  intros Hl1 Hl2. unfold init_hypercube. cbv zeta.
  intros (mean1 & Hmean & Hrun1)%bind_Ok (mean2 & Hmean' & Hrun2)%bind_Ok.
  rewrite Hmean in Hmean'. injection Hmean' as <-.
  apply bind_Ok in Hrun1 as ([mean maxm] & Hmax & Hrun1).
  apply bind_Ok in Hrun2 as ([mean' maxm'] & Hmax' & Hrun2).
  rewrite Hmax in Hmax'. injection Hmax' as <- <-.
  set (len := 2 ^ nbits * d) in *.
  apply (agree_eq len (0 + 2 ^ nbits * d)); [unfold len; lia|].
  replace (0 + 2 ^ nbits * d) with ((0 + 2 ^ nbits) * d) by lia.
  eapply (for_range_rel (λ i a b, agree len (i * d) a b) 0 (2 ^ nbits) _ _ c1 c1' c2 c2');
    [repeat split; [done..|intros; lia] | |exact Hrun1|exact Hrun2].
  intros i a b a' b' Hi Hag (a1 & Ha1 & Ha2)%bind_Ok (b1 & Hb1 & Hb2)%bind_Ok.
  assert (Hag1 : agree len (i * d + (0 + nbits)) a1 b1).
  { eapply (for_range_rel (λ j a b, agree len (i * d + j) a b) 0 nbits _ _ a a1 b b1);
      [by rewrite Nat.add_0_r | |exact Ha1|exact Hb1].
    intros j u v u' v' Hj Huv (m & Hm & Hw1)%bind_Ok (m' & Hm' & Hw2)%bind_Ok.
    rewrite Hm in Hm'. injection Hm' as <-.
    replace (i * d + S j) with (S (i * d + j)) by lia.
    by eapply agree_wr_at. }
  apply (agree_weaken len (i * d + (nbits + (d - nbits)))); [lia|].
  eapply (for_range_rel (λ j a b, agree len (i * d + j) a b) nbits (d - nbits) _ _
           a1 a' b1 b'); [by rewrite Nat.add_0_l in Hag1 | |exact Ha2|exact Hb2].
  intros j u v u' v' Hj Huv (m & Hm & Hw1)%bind_Ok (m' & Hm' & Hw2)%bind_Ok.
  rewrite Hm in Hm'. injection Hm' as <-.
  replace (i * d + S j) with (S (i * d + j)) by lia.
  by eapply agree_wr_at.
Qed.

(** and the initialisation from the PCA *)
Lemma init_hypercube_pca_agree (d nbits n : nat) (x c1 c2 c1' c2' : list C) :
  length c1 = 2 ^ nbits * d → length c2 = 2 ^ nbits * d →
  init_hypercube_pca d nbits n x c1 = Ok c1' →
  init_hypercube_pca d nbits n x c2 = Ok c2' →
  c1' = c2'.
Proof.
  intros Hl1 Hl2. unfold init_hypercube_pca. cbv zeta. intros Hrun1 Hrun2.
  set (len := 2 ^ nbits * d) in *.
  apply (agree_eq len (0 + 2 ^ nbits * d)); [unfold len; lia|].
  replace (0 + 2 ^ nbits * d) with ((0 + 2 ^ nbits) * d) by lia.
  eapply (for_range_rel (λ i a b, agree len (i * d) a b) 0 (2 ^ nbits) _ _ c1 c1' c2 c2');
    [repeat split; [done..|intros; lia] | |exact Hrun1|exact Hrun2].
  intros i a b a' b' Hi Hag Ha Hb.
  replace (S i * d) with (i * d + (0 + d)) by lia.
  eapply (for_range_rel (λ j a b, agree len (i * d + j) a b) 0 d _ _ a a' b b');
    [by rewrite Nat.add_0_r | |exact Ha|exact Hb].
  intros j u v u' v' Hj Huv (m & Hm & Hr1)%bind_Ok (m' & Hm' & Hr2)%bind_Ok.
  rewrite Hm in Hm'. injection Hm' as <-.
  apply bind_Ok in Hr1 as (u1 & Hw1 & Hk1). apply bind_Ok in Hr2 as (v1 & Hw2 & Hk2).
  pose proof (agree_wr_at _ _ _ _ _ _ _ Huv Hw1 Hw2) as Huv1.
  replace (i * d + S j) with (S (i * d + j)) by lia.
  eapply (for_range_rel (λ _ a b, agree len (S (i * d + j)) a b) 0 nbits _ _
           u1 u' v1 v'); [exact Huv1 | |exact Hk1|exact Hk2].
  intros kk p q p' q' Hkk (Hp1 & Hp2 & Hpq).
  intros (cent & Hc%rd_Ok & Hr1)%bind_Ok (cent' & Hc'%rd_Ok & Hr2)%bind_Ok.
  rewrite Hpq in Hc by lia. rewrite Hc in Hc'. injection Hc' as <-.
  apply bind_Ok in Hr1 as (ev & Hev & Hr1). apply bind_Ok in Hr2 as (ev' & Hev' & Hr2).
  rewrite Hev in Hev'. injection Hev' as <-.
  apply bind_Ok in Hr1 as (pm & Hpm & Hr1). apply bind_Ok in Hr2 as (pm' & Hpm' & Hr2).
  rewrite Hpm in Hpm'. injection Hpm' as <-.
  destruct (agree_wr len (S (i * d + j)) (i * d + j) _ p q p' q'
              ltac:(done) ltac:(lia) Hr1 Hr2) as [Hs|[_ Hs]]; [|done].
  eapply agree_weaken; [|exact Hs]. lia.
Qed.

Lemma initialize_centroids_agree (trainType : TrainType) (d nbits nx : nat)
    (x c1 c2 c1' c2' : list C) :
  length c1 = 2 ^ nbits * d → length c2 = 2 ^ nbits * d →
  initialize_centroids trainType d nbits (2 ^ nbits) nx x c1 = Ok c1' →
  initialize_centroids trainType d nbits (2 ^ nbits) nx x c2 = Ok c2' →
  c1' = c2'.
Proof.
  destruct trainType.
  - apply initialize_default_agree.
  - apply init_hypercube_agree.
  - apply init_hypercube_pca_agree.
Qed.
End Determinism.

Section FuelIndependence.
Context {C D : Type} `{Arith C D} `{Special C D} `{Extern C}.

Lemma find_donor_fuel (fuel1 fuel2 k n : nat) (hassign : list C) (cj t : nat)
    (r1 r2 : nat * nat) :
  find_donor fuel1 k n hassign cj t = Ok r1 →
  find_donor fuel2 k n hassign cj t = Ok r2 → r1 = r2.
Proof.
  revert fuel2 cj t.
  induction fuel1 as [|fuel1 IH]; intros [|fuel2] cj t; simpl; try done.
  destruct (rd hassign cj) as [h|e]; simpl; [|done].
  destruct (clt _ _); [congruence|]. apply IH.
Qed.

Lemma split_one_fuel (fuel1 fuel2 d k n ci t : nat) (hassign centroids : list C)
    (r1 r2 : nat * list C * list C) :
  split_one fuel1 d k n ci t hassign centroids = Ok r1 →
  split_one fuel2 d k n ci t hassign centroids = Ok r2 → r1 = r2.
Proof.
  unfold split_one.
  intros (p1 & Hf1 & Hrest1)%bind_Ok (p2 & Hf2 & Hrest2)%bind_Ok.
  rewrite (find_donor_fuel _ _ _ _ _ _ _ _ _ Hf1 Hf2) in Hrest1. congruence.
Qed.

Lemma split_step_fuel (fuel1 fuel2 d k n ci : nat)
    (st r1 r2 : nat * nat * list C * list C) :
  split_step fuel1 d k n ci st = Ok r1 →
  split_step fuel2 d k n ci st = Ok r2 → r1 = r2.
Proof.
  destruct st as [[[ns t] h] c]. unfold split_step.
  destruct (rd h ci) as [h0|e]; simpl; [|done].
  destruct (ceqb h0 czero); [|congruence].
  intros (p1 & Hf1 & Hrest1)%bind_Ok (p2 & Hf2 & Hrest2)%bind_Ok.
  rewrite (split_one_fuel _ _ _ _ _ _ _ _ _ _ _ Hf1 Hf2) in Hrest1. congruence.
Qed.

Lemma split_clusters_fuel (fuel1 fuel2 d k n : nat) (hassign centroids : list C)
    (r1 r2 : nat * list C * list C) :
  split_clusters fuel1 d k n hassign centroids = Ok r1 →
  split_clusters fuel2 d k n hassign centroids = Ok r2 → r1 = r2.
Proof.
  unfold split_clusters.
  intros (s1 & Hf1 & Hrest1)%bind_Ok (s2 & Hf2 & Hrest2)%bind_Ok.
  assert (s1 = s2) as <-; [|congruence].
  eapply (for_range_rel (λ _ a b, a = b) 0 k _ _ _ s1 _ s2);
    [reflexivity | |exact Hf1|exact Hf2].
  intros i a b a' b' _ <-. apply split_step_fuel.
Qed.

Lemma kmeans_iterations_fuel (fuel1 fuel2 iters i : nat) (meta : HnswMetadata)
    (nx : nat) (x : list C) (prev : D) (c dis : list C) (assign : list nat)
    (log : list (event D)) (r1 r2 : list C * list (event D)) :
  kmeans_iterations fuel1 iters i meta nx x prev c dis assign log = Ok r1 →
  kmeans_iterations fuel2 iters i meta nx x prev c dis assign log = Ok r2 →
  r1 = r2.
Proof.
  revert i prev c dis assign log.
  induction iters as [|iters IH]; intros i prev c dis assign log; simpl;
    [congruence|].
  intros ([dis1 assign1] & Hd1 & Hrun1)%bind_Ok ([dis2 assign2] & Hd2 & Hrun2)%bind_Ok.
  rewrite Hd1 in Hd2. injection Hd2 as <- <-.
  apply bind_Ok in Hrun1 as (obj & Ho1 & Hrun1).
  apply bind_Ok in Hrun2 as (obj' & Ho2 & Hrun2).
  rewrite Ho1 in Ho2. injection Ho2 as <-. revert Hrun1 Hrun2.
  destruct (small_improvement prev obj); [congruence|].
  intros ([h1 c1] & Hc1 & Hrun1)%bind_Ok ([h2 c2] & Hc2 & Hrun2)%bind_Ok.
  rewrite Hc1 in Hc2. injection Hc2 as <- <-.
  apply bind_Ok in Hrun1 as (s1 & Hs1 & Hrun1).
  apply bind_Ok in Hrun2 as (s2 & Hs2 & Hrun2).
  rewrite (split_clusters_fuel _ _ _ _ _ _ _ _ _ Hs1 Hs2) in Hrun1.
  destruct s2 as [[ns h2] c2]. by eapply IH.
Qed.

Lemma pq_train_clustering_fuel (fuel1 fuel2 : nat) (meta : HnswMetadata) (nx : nat)
    (x c dis : list C) (assign : list nat) (log : list (event D))
    (r1 r2 : bool * list C * list (event D)) :
  pq_train_clustering fuel1 meta nx x c dis assign log = Ok r1 →
  pq_train_clustering fuel2 meta nx x c dis assign log = Ok r2 → r1 = r2.
Proof.
  unfold pq_train_clustering. cbv zeta. case_decide; [congruence|].
  intros (s1 & Hs1 & Hrest1)%bind_Ok (s2 & Hs2 & Hrest2)%bind_Ok.
  rewrite (kmeans_iterations_fuel _ _ _ _ _ _ _ _ _ _ _ _ _ _ Hs1 Hs2) in Hrest1.
  congruence.
Qed.

(** C8. Training is deterministic: two runs of [pq_train] with the same
    metadata, the same training slice, the same value of the global
    [trainType] and the built-in seed return the same flag, the same
    centroid table and the same log, whatever the output buffers of
    [k * d] elements held before and however many rounds the donor loops
    were allowed. *)
Theorem pq_train_deterministic (fuel1 fuel2 : nat) (trainType : TrainType)
    (meta : HnswMetadata) (slice_len : nat) (slice c1 c2 : list C)
    (r1 r2 : bool * list C * list (event D)) :
  length c1 = pq_k meta * pqSubdim meta →
  length c2 = pq_k meta * pqSubdim meta →
  pq_train fuel1 trainType meta slice_len slice c1 = Ok r1 →
  pq_train fuel2 trainType meta slice_len slice c2 = Ok r2 →
  r1 = r2.
Proof.
  intros Hl1 Hl2. unfold pq_train. cbv zeta.
  intros (c1' & Hi1 & Hrun1)%bind_Ok (c2' & Hi2 & Hrun2)%bind_Ok.
  assert (c1' = c2') as <-.
  { unfold pq_k in *.
    by apply (initialize_centroids_agree trainType (pqSubdim meta) (pqBits meta)
                slice_len slice c1 c2). }
  revert Hrun1 Hrun2.
  destruct (decide (pq_k meta * max_points_per_centroid < slice_len));
    [|destruct (decide (slice_len < pq_k meta * min_points_per_centroid))].
  - destruct (subsample_training_set _ _ _ _) as [[nx x_new]|e]; simpl; [|done].
    apply pq_train_clustering_fuel.
  - congruence.
  - apply pq_train_clustering_fuel.
Qed.
End FuelIndependence.

Section DeterminismRuns.
Import IEEE.

Lemma pq_train_deterministic_witness :
  ∃ r,
    pq_train 4 TT_DEFAULT meta_1_1 128 (replicate 128 (f32_of_Z 1024))
      (f32_of_Z <$> [0; 0]%Z) = Ok r ∧
    pq_train 9 TT_DEFAULT meta_1_1 128 (replicate 128 (f32_of_Z 1024))
      (f32_of_Z <$> [7; 9]%Z) = Ok r.
Proof.
  destruct (pq_train 4 TT_DEFAULT meta_1_1 128 (replicate 128 (f32_of_Z 1024))
              (f32_of_Z <$> [0; 0]%Z)) as [r1|e] eqn:Hrun1;
    [|vm_compute in Hrun1; discriminate].
  destruct (pq_train 9 TT_DEFAULT meta_1_1 128 (replicate 128 (f32_of_Z 1024))
              (f32_of_Z <$> [7; 9]%Z)) as [r2|e] eqn:Hrun2;
    [|vm_compute in Hrun2; discriminate].
  exists r1. split; [reflexivity|]. f_equal. symmetry.
  refine (pq_train_deterministic 4 9 TT_DEFAULT meta_1_1 128 _ _ _ r1 r2
            _ _ Hrun1 Hrun2); reflexivity.
Defined.
End DeterminismRuns.
(** * Further properties of the code

    Edge cases, invariants and compositions of the functions of
    [clustering.cpp] beyond the claims of the specification. *)

(** ** split_clusters in IEEE arithmetic: the donor is never empty *)

(** in IEEE arithmetic, whatever the collaborators are *)
Section SignIEEE.
Context {E : Extern spec_float}.
#[local] Existing Instance IEEE.arith.

(** the probability computed for an empty cluster has the sign bit set, or
    is not a number *)
Lemma split_prob_empty (h : spec_float) (n k : nat) :
  ceqb h czero = true → sf_sign (split_prob h n k) ≠ Some false.
Proof.
  intros Hz Hs. unfold split_prob in Hs. simpl in Hs.
  apply convert_sign, SFdiv_sign in Hs as (sx & sy & Hx & Hy & Hxor).
  apply convert_sign, f32_of_Z_sign in Hy as ->.
  2:{ unfold size_sub. apply Z.mod_pos_bound. done. }
  destruct sx; [done|].
  destruct h as [[]|[]| |[] m e]; simpl in Hz; try done; by vm_compute in Hx.
Qed.

Lemma empty_cluster_never_accepted (r h : spec_float) (n k : nat) :
  clt r czero = false → ceqb h czero = true → clt r (split_prob h n k) = false.
Proof.
  intros Hr Hz. apply SFltb_negative; [done|]. by apply split_prob_empty.
Qed.

(** X17: in IEEE arithmetic, with draws of the generator that are not
    negative, the donor loop never accepts a cluster whose count is zero:
    for such a cluster [(hassign[cj] - 1.0) / (float)(n - k)] has its sign
    bit set or is not a number, whatever [n] and [k] are. So the donor is
    never the empty cluster under repair, and the [memcpy] of lines
    147-149 never copies a row onto itself. *)
Theorem donor_is_never_empty (fuel k n : nat) (hassign : list spec_float)
    (cj t cj' t' : nat) :
  draws_not_negative → 0 < k → cj < k →
  find_donor fuel k n hassign cj t = Ok (cj', t') →
  cj' < k ∧
  (∃ hj, hassign !! cj' = Some hj ∧ ceqb hj czero = false) ∧
  (∀ ci hi, hassign !! ci = Some hi → ceqb hi czero = true → cj' ≠ ci).
Proof.
  intros Hdraw Hk Hcj Hrun.
  destruct (find_donor_Ok fuel k n hassign cj t cj' t' Hk Hcj Hrun)
    as (Hlt & hj & t0 & Hhj & Hacc).
  assert (Hnz : ceqb hj czero = false).
  { destruct (ceqb hj czero) eqn:Hz; [|done].
    rewrite (empty_cluster_never_accepted _ hj n k (Hdraw t0) Hz) in Hacc. done. }
  split; [done|]. split; [by exists hj|].
  intros ci hi Hhi Hz ->. rewrite Hhj in Hhi. injection Hhi as ->. congruence.
Qed.
End SignIEEE.

Section SignWitness.
Import IEEE.

Lemma donor_is_never_empty_witness :
  ∃ cj' t',
    find_donor 8 4 8 (f32_of_Z <$> [0; 5; 0; 3]%Z) 0 0 = Ok (cj', t') ∧
    cj' < 4 ∧
    (∃ hj, (f32_of_Z <$> [0; 5; 0; 3]%Z) !! cj' = Some hj ∧ ceqb hj czero = false) ∧
    (∀ ci hi, (f32_of_Z <$> [0; 5; 0; 3]%Z) !! ci = Some hi →
              ceqb hi czero = true → cj' ≠ ci).
Proof.
  destruct (find_donor 8 4 8 (f32_of_Z <$> [0; 5; 0; 3]%Z) 0 0)
    as [[cj' t']|e] eqn:Hrun; [|vm_compute in Hrun; discriminate].
  exists cj', t'. split; [reflexivity|].
  refine (donor_is_never_empty 8 4 8 _ 0 0 cj' t' ieee_draws_not_negative _ _ Hrun); lia.
Defined.
End SignWitness.

(** ** pq_train: the low-data return *)

Section LowData.
Context {C D : Type} `{Arith C D} `{Special C D} `{Extern C}.

(** X18: a call with fewer than [k * 39] training vectors returns false
    only after the initialisation has run: the caller's centroid table is
    overwritten although the call fails. With the default strategy and at
    least [k] vectors it then holds the [k] training rows picked by the
    permutation of seed [seed + 1]. *)
Theorem low_data_call_overwrites_table (fuel : nat) (meta : HnswMetadata)
    (slice_len : nat) (slice centroids : list C) :
  let d := pqSubdim meta in
  let k := pq_k meta in
  slice_len < k * min_points_per_centroid →
  (∀ trainType, pq_train fuel trainType meta slice_len slice centroids =
     c ← initialize_centroids trainType d (pqBits meta) k slice_len slice centroids;
     mret (false, c, [])) ∧
  (k ≤ slice_len → length slice = slice_len * d → length centroids = k * d →
   rand_perm slice_len (seed + 1) ≡ₚ seq 0 slice_len →
   ∃ c, pq_train fuel TT_DEFAULT meta slice_len slice centroids = Ok (false, c, []) ∧
     length c = k * d ∧
     ∀ i, i < k → ∃ p, rand_perm slice_len (seed + 1) !! i = Some p ∧ p < slice_len ∧
                       row d i c = row d p slice).
Proof.
  intros d k Hlow.
  assert (Hgen : ∀ trainType, pq_train fuel trainType meta slice_len slice centroids =
     c ← initialize_centroids trainType d (pqBits meta) k slice_len slice centroids;
     mret (false, c, [])).
  { intros trainType. unfold pq_train. fold d k.
    destruct (initialize_centroids _ _ _ _ _ _ _) as [c|e]; [|done].
    cbn [mbind result_bind].
    unfold min_points_per_centroid, max_points_per_centroid in *.
    rewrite decide_False by lia.
    by rewrite decide_True by done. }
  split; [done|]. intros Hk Hs Hc Hperm. rewrite Hgen.
  destruct (initialize_default_spec d (pqBits meta) k slice_len slice centroids Hk Hs Hc
              Hperm) as (c & -> & Hl & Hrows).
  exists c. done.
Qed.
End LowData.

Section LowDataWitness.
Import IEEE.

Lemma low_data_call_overwrites_table_witness :
  (∀ trainType, pq_train 0 trainType meta_2_1 3 x_3x2 centroids_2x2 =
     c ← initialize_centroids trainType 2 1 2 3 x_3x2 centroids_2x2;
     mret (false, c, [])) ∧
  ∃ c, pq_train 0 TT_DEFAULT meta_2_1 3 x_3x2 centroids_2x2 = Ok (false, c, []) ∧
     length c = 2 * 2 ∧
     ∀ i, i < 2 → ∃ p, rand_perm 3 (seed + 1) !! i = Some p ∧ p < 3 ∧
                       row 2 i c = row 2 p x_3x2.
Proof.
  destruct (low_data_call_overwrites_table 0 meta_2_1 3 x_3x2 centroids_2x2)
    as [Hgen Hdef]; [unfold pq_k, min_points_per_centroid; simpl; lia|].
  split; [exact Hgen|].
  apply Hdef; [unfold pq_k; simpl; lia|reflexivity|reflexivity|apply rotation_perm].
Defined.
End LowDataWitness.

(** ** The order of the floats *)

Lemma SFltb_key (a b : spec_float) :
  SFltb a b = true ↔ ∃ ka kb, sf_key a = Some ka ∧ sf_key b = Some kb ∧ key_lt ka kb.
Proof.
  unfold SFltb, key_lt.
  destruct a as [[]|[]| |[] ma ea], b as [[]|[]| |[] mb eb]; simpl;
    try (split; [done|intros (? & ? & ? & ? & ?); simplify_eq/=; lia]);
    try (split; [intros _; eexists _, _; split; [done|]; split; [done|]; simpl; lia|done]).
  - rewrite Pos.compare_cont_spec. simpl.
    destruct (Z.compare_spec ea eb), (Pos.compare_spec ma mb); simpl;
    (split; [first [done|intros _; eexists _, _; split; [done|]; split; [done|]; simpl; lia]
            |intros (? & ? & ? & ? & ?); simplify_eq/=; first [done|lia]]).
  - rewrite Pos.compare_cont_spec. simpl.
    destruct (Z.compare_spec ea eb), (Pos.compare_spec ma mb); simpl;
    (split; [first [done|intros _; eexists _, _; split; [done|]; split; [done|]; simpl; lia]
            |intros (? & ? & ? & ? & ?); simplify_eq/=; first [done|lia]]).
Qed.

Lemma SFltb_false_key (a b : spec_float) ka kb :
  sf_key a = Some ka → sf_key b = Some kb → SFltb a b = false → ¬ key_lt ka kb.
Proof.
  intros Ha Hb Hf Hlt. assert (SFltb a b = true); [|congruence].
  apply SFltb_key. eauto.
Qed.

Lemma SFeqb_refl_key (a : spec_float) : SFeqb a a = true ↔ is_Some (sf_key a).
Proof.
  unfold SFeqb. destruct a as [[]|[]| |[] m e]; simpl;
    rewrite ?Z.compare_refl, ?Pos.compare_cont_refl; simpl;
    split; try done; try (intros _; eauto); try by intros [? ?].
Qed.

Section IEEEOrder.
Import IEEE.

Lemma ieee_lt_irreflexive : lt_irreflexive.
Proof.
  intros a. destruct (SFltb a a) eqn:E; [|done].
  apply SFltb_key in E as (ka & kb & Ha & Hb & Hlt). simplify_eq.
  unfold key_lt in Hlt. lia.
Qed.

Lemma ieee_lt_not_below : lt_not_below.
Proof.
  intros a b c Hab Hcb. simpl in *.
  destruct (SFltb a c) eqn:E; [|done].
  apply SFltb_key in E as (ka & kc & Ha & Hc & Hac).
  apply SFltb_key in Hcb as (kc' & kb & Hc' & Hb & Hcb). simplify_eq.
  pose proof (SFltb_false_key a b ka kb Ha Hb Hab) as Hn.
  unfold key_lt in *. lia.
Qed.

Lemma ieee_lt_below_rest : lt_below_rest.
Proof.
  intros a b c Hcb Hab Haa. simpl in *.
  apply SFeqb_refl_key in Haa as [ka Ha].
  apply SFltb_key in Hcb as (kc & kb & Hc & Hb & Hcb).
  pose proof (SFltb_false_key a b ka kb Ha Hb Hab) as Hn.
  apply SFltb_key. exists kc, ka. split; [done|]. split; [done|].
  unfold key_lt in *. lia.
Qed.
End IEEEOrder.

(** ** calculate_distances: the nearest centroid *)

Section Nearest.
Context {C D : Type} `{Arith C D} `{Special C D} `{Extern C}.

Lemma nearest_scan (meta : HnswMetadata) (centroids x_i : list C) :
  lt_irreflexive → lt_not_below →
  pq_k meta * pqSubdim meta ≤ length centroids →
  ∃ md mi, nearest meta centroids x_i = Ok (md, mi) ∧ mi < pq_k meta ∧
    (∀ j, j < pq_k meta → clt (centroid_dist meta centroids x_i j) md = false) ∧
    ((md = HUGE_VALF ∧ mi = 0) ∨ md = centroid_dist meta centroids x_i mi) ∧
    (lt_below_rest → ∀ j, j < mi →
       ceqb (centroid_dist meta centroids x_i j) (centroid_dist meta centroids x_i j) = true →
       clt md (centroid_dist meta centroids x_i j) = true).
Proof.
  intros Hirr Hnb Hlen. unfold nearest.
  set (dist := centroid_dist meta centroids x_i).
  edestruct (for_range_total (λ j '(m, idx),
      (idx < pq_k meta) ∧
      (∀ j', j' < j → clt (dist j') m = false) ∧
      ((m = HUGE_VALF ∧ idx = 0) ∨ (idx < j ∧ m = dist idx)) ∧
      (lt_below_rest → ∀ j', j' < idx → ceqb (dist j') (dist j') = true →
         clt m (dist j') = true)) 0 (pq_k meta)) as ([md mi] & Hrun & Hinv);
    [| |exists md, mi; split; [exact Hrun|]].
  - split; [apply pq_k_pos|]. split; [intros; lia|]. split; [by left|]. intros; lia.
  - intros j [m idx] Hj (Hidx & Hlow & Hcase & Hfirst).
    rewrite rd_block_row by nia. cbn [mbind result_bind mret result_ret].
    change (hnsw_dist_func _ _ _ _) with (dist j).
    destruct (clt (dist j) m) eqn:Hlt; eexists; (split; [done|]).
    + split; [lia|]. split.
      { intros j' Hj'. destruct (decide (j' = j)) as [->|]; [apply Hirr|].
        apply (Hnb _ m); [apply Hlow; lia|done]. }
      split; [right; split; [lia|done]|].
      intros Hbr j' Hj' Hself. apply (Hbr _ m); [done|apply Hlow; lia|done].
    + split; [done|]. split.
      { intros j' Hj'. destruct (decide (j' = j)) as [->|]; [done|apply Hlow; lia]. }
      split; [destruct Hcase as [?|[? ?]]; [by left|right; split; [lia|done]]|done].
  - simpl in Hinv. destruct Hinv as (? & ? & Hcase & ?).
    split; [done|]. split; [done|]. split; [|done].
    destruct Hcase as [?|[_ ?]]; [by left|by right].
Qed.
End Nearest.

Section NearestThms.
Context {C D : Type} `{Arith C D} `{Special C D} `{Extern C}.

(** a scan in which no distance is below [HUGE_VALF] never updates *)
Lemma nearest_no_candidate (meta : HnswMetadata) (centroids x_i : list C) :
  pq_k meta * pqSubdim meta ≤ length centroids →
  (∀ j, j < pq_k meta →
     clt (centroid_dist meta centroids x_i j) HUGE_VALF = false) →
  nearest meta centroids x_i = Ok (HUGE_VALF, 0).
Proof.
  intros Hlen Hno. unfold nearest.
  edestruct (for_range_total (λ (_ : nat) (s : C * nat), s = (HUGE_VALF, 0))
               0 (pq_k meta)) as (s & Hrun & ->); [done| |exact Hrun].
  intros j s Hj ->. rewrite rd_block_row by nia.
  cbn [mbind result_bind mret result_ret].
  eexists. split; [done|].
  change (hnsw_dist_func _ _ _ _) with (centroid_dist meta centroids x_i j).
  by rewrite Hno by lia.
Qed.

(** X6: after [calculate_distances], no centroid is strictly nearer to a
    training vector than the distance stored for it, and that distance is
    the one to the assigned centroid (or [HUGE_VALF], with the assignment
    0, when no distance was below [HUGE_VALF]). *)
Theorem assigned_centroid_is_nearest (meta : HnswMetadata) (centroids : list C)
    (nx : nat) (x dis : list C) (assign : list nat) :
  lt_irreflexive → lt_not_below →
  nx * pqSubdim meta ≤ length x →
  pq_k meta * pqSubdim meta ≤ length centroids →
  nx ≤ length dis → nx ≤ length assign →
  ∃ dis' assign',
    calculate_distances meta centroids nx x dis assign = Ok (dis', assign') ∧
    ∀ i, i < nx → ∃ md mi,
      dis' !! i = Some md ∧ assign' !! i = Some mi ∧ mi < pq_k meta ∧
      (∀ j, j < pq_k meta →
         clt (centroid_dist meta centroids (row (pqSubdim meta) i x) j) md = false) ∧
      ((md = HUGE_VALF ∧ mi = 0) ∨
       md = centroid_dist meta centroids (row (pqSubdim meta) i x) mi).
Proof.
  intros Hirr Hnb Hx Hc Hdis Hassign.
  destruct (calculate_distances_spec meta centroids nx x dis assign)
    as (dis' & assign' & Hrun & _ & _ & Hnear & _); [done..|].
  exists dis', assign'. split; [done|]. intros i Hi.
  destruct (Hnear i Hi) as (md & mi & Hn & Hmi & Hd & Ha).
  destruct (nearest_scan meta centroids (row (pqSubdim meta) i x) Hirr Hnb Hc)
    as (md' & mi' & Hn' & _ & Hlow & Hcase & _).
  rewrite Hn in Hn'. injection Hn' as <- <-.
  exists md, mi. done.
Qed.

(** X7: when several centroids are nearest, the lowest index is assigned:
    every centroid before the assigned one is strictly farther, unless its
    distance is not a number. *)
Theorem nearest_ties_go_to_lowest_index (meta : HnswMetadata) (centroids : list C)
    (nx : nat) (x dis : list C) (assign : list nat) :
  lt_irreflexive → lt_not_below → lt_below_rest →
  nx * pqSubdim meta ≤ length x →
  pq_k meta * pqSubdim meta ≤ length centroids →
  nx ≤ length dis → nx ≤ length assign →
  ∃ dis' assign',
    calculate_distances meta centroids nx x dis assign = Ok (dis', assign') ∧
    ∀ i, i < nx → ∃ md mi,
      dis' !! i = Some md ∧ assign' !! i = Some mi ∧
      ∀ j, j < mi →
        let dj := centroid_dist meta centroids (row (pqSubdim meta) i x) j in
        ceqb dj dj = true → clt md dj = true.
Proof.
  intros Hirr Hnb Hbr Hx Hc Hdis Hassign.
  destruct (calculate_distances_spec meta centroids nx x dis assign)
    as (dis' & assign' & Hrun & _ & _ & Hnear & _); [done..|].
  exists dis', assign'. split; [done|]. intros i Hi.
  destruct (Hnear i Hi) as (md & mi & Hn & Hmi & Hd & Ha).
  destruct (nearest_scan meta centroids (row (pqSubdim meta) i x) Hirr Hnb Hc)
    as (md' & mi' & Hn' & _ & _ & _ & Hfirst).
  rewrite Hn in Hn'. injection Hn' as <- <-.
  exists md, mi. split; [done|]. split; [done|]. intros j Hj dj. by apply Hfirst.
Qed.

(** X8: a training vector none of whose distances is below [HUGE_VALF]
    (they are infinite or not numbers) is assigned to centroid 0 with the
    distance [HUGE_VALF]. *)
Theorem unreachable_vector_goes_to_centroid_zero (meta : HnswMetadata)
    (centroids : list C) (nx : nat) (x dis : list C) (assign : list nat) (i : nat) :
  nx * pqSubdim meta ≤ length x →
  pq_k meta * pqSubdim meta ≤ length centroids →
  nx ≤ length dis → nx ≤ length assign → i < nx →
  (∀ j, j < pq_k meta →
     clt (centroid_dist meta centroids (row (pqSubdim meta) i x) j) HUGE_VALF = false) →
  ∃ dis' assign',
    calculate_distances meta centroids nx x dis assign = Ok (dis', assign') ∧
    dis' !! i = Some HUGE_VALF ∧ assign' !! i = Some 0.
Proof.
  intros Hx Hc Hdis Hassign Hi Hno.
  destruct (calculate_distances_spec meta centroids nx x dis assign)
    as (dis' & assign' & Hrun & _ & _ & Hnear & _); [done..|].
  exists dis', assign'. split; [done|].
  destruct (Hnear i Hi) as (md & mi & Hn & Hmi & Hd & Ha).
  rewrite (nearest_no_candidate meta centroids _ Hc Hno) in Hn.
  by injection Hn as <- <-.
Qed.
End NearestThms.

Section NearestWitness.
Import IEEE.

Lemma assigned_centroid_is_nearest_witness :
  ∃ dis' assign',
    calculate_distances meta_2_1 centroids_2x2 3 y_3x2
      (replicate 3 czero) (replicate 3 0) = Ok (dis', assign') ∧
    ∀ i, i < 3 → ∃ md mi,
      dis' !! i = Some md ∧ assign' !! i = Some mi ∧ mi < pq_k meta_2_1 ∧
      (∀ j, j < pq_k meta_2_1 →
         clt (centroid_dist meta_2_1 centroids_2x2 (row 2 i y_3x2) j) md = false) ∧
      ((md = HUGE_VALF ∧ mi = 0) ∨
       md = centroid_dist meta_2_1 centroids_2x2 (row 2 i y_3x2) mi).
Proof.
  apply (assigned_centroid_is_nearest meta_2_1 centroids_2x2 3 y_3x2
           (replicate 3 czero) (replicate 3 0) ieee_lt_irreflexive ieee_lt_not_below);
    simpl; lia.
Defined.

Lemma nearest_ties_go_to_lowest_index_witness :
  ∃ dis' assign',
    calculate_distances meta_2_1 centroids_2x2 3 y_3x2
      (replicate 3 czero) (replicate 3 0) = Ok (dis', assign') ∧
    ∀ i, i < 3 → ∃ md mi,
      dis' !! i = Some md ∧ assign' !! i = Some mi ∧
      ∀ j, j < mi →
        let dj := centroid_dist meta_2_1 centroids_2x2 (row 2 i y_3x2) j in
        ceqb dj dj = true → clt md dj = true.
Proof.
  apply (nearest_ties_go_to_lowest_index meta_2_1 centroids_2x2 3 y_3x2
           (replicate 3 czero) (replicate 3 0)
           ieee_lt_irreflexive ieee_lt_not_below ieee_lt_below_rest);
    simpl; lia.
Defined.

Lemma unreachable_vector_goes_to_centroid_zero_witness :
  ∃ dis' assign',
    calculate_distances meta_2_1 centroids_2x2 1 x_nan_1x2 [czero] [7]
      = Ok (dis', assign') ∧
    dis' !! 0 = Some HUGE_VALF ∧ assign' !! 0 = Some 0.
Proof.
  apply (unreachable_vector_goes_to_centroid_zero meta_2_1 centroids_2x2 1 x_nan_1x2
           [czero] [7] 0); simpl; try lia.
  intros [|[|j]] Hj; [reflexivity..|]. unfold pq_k in Hj. simpl in Hj. lia.
Defined.
End NearestWitness.

(** ** init_hypercube *)

(** [for (j = lo; j < lo + n; j++) buf[off + j] = g j src[j]] *)
Lemma for_range_fill {A B : Type} (g : nat → B → A) (src : list B) (off lo n : nat)
    (buf : list A) :
  lo + n ≤ length src → off + lo + n ≤ length buf →
  ∃ buf', for_range lo n (λ j buf, m ← rd src j; wr buf (off + j) (g j m)) buf
          = Ok buf' ∧
    length buf' = length buf ∧
    ∀ idx, buf' !! idx = if decide (off + lo ≤ idx < off + lo + n)
                         then g (idx - off) <$> src !! (idx - off) else buf !! idx.
Proof.
  intros Hs Hb.
  destruct (for_range_total
    (λ j b, length b = length buf ∧
       ∀ idx, b !! idx = if decide (off + lo ≤ idx < off + j)
                         then g (idx - off) <$> src !! (idx - off) else buf !! idx)
    lo n (λ j buf, m ← rd src j; wr buf (off + j) (g j m)) buf)
    as (buf' & Hrun & Hl & Hlook).
  - split; [done|]. intros idx. case_decide; [lia|done].
  - intros j b Hj [Hl Hlook].
    destruct (rd_lt src j) as (m & -> & Hm); [lia|]. simpl.
    rewrite wr_lt by lia. eexists. split; [done|].
    split; [by rewrite length_insert|].
    intros idx. destruct (decide (idx = off + j)) as [->|Hne].
    + rewrite list_lookup_insert_eq by lia. rewrite decide_True by lia.
      replace (off + j - off) with j by lia. by rewrite Hm.
    + rewrite list_lookup_insert_ne by done. rewrite Hlook.
      repeat case_decide; done || lia.
  - exists buf'. split; [done|]. split; [done|].
    intros idx. rewrite Hlook. replace (off + (lo + n)) with (off + lo + n) by lia. done.
Qed.

Section Hypercube.
Context {C D : Type} `{Arith C D}.

Lemma length_vsum (d : nat) (rows : list (list C)) :
  Forall (λ r, length r = d) rows → length (vsum d rows) = d.
Proof.
  unfold vsum. induction rows as [|r rows IH] using rev_ind; intros Hrows; simpl.
  - by rewrite length_replicate.
  - apply Forall_app in Hrows as [Hrows Hr]. rewrite foldl_app. simpl.
    unfold vadd at 1. rewrite length_zip_with, IH by done.
    rewrite Forall_singleton in Hr. lia.
Qed.

Lemma length_vsum_rows (d n : nat) (x : list C) :
  n * d ≤ length x → length (vsum d ((λ i, row d i x) <$> seq 0 n)) = d.
Proof.
  intros Hx. apply length_vsum, Forall_fmap, Forall_forall.
  intros i Hi%elem_of_seq. simpl. apply length_row. nia.
Qed.

(** the accumulation of the column sums (lines 210-212) *)
Lemma column_sums_spec (d n : nat) (x : list C) :
  n * d ≤ length x →
  for_range 0 n (λ i mean,
    for_range 0 d (λ j mean,
      m ← rd mean j;
      v ← rd x (i * d + j);
      wr mean j (cadd m v)) mean) (replicate d czero)
  = Ok (vsum d ((λ i, row d i x) <$> seq 0 n)).
Proof.
  intros Hx.
  destruct (for_range_total
    (λ i mean, mean = vsum d ((λ i, row d i x) <$> seq 0 i)) 0 n
    (λ i mean, for_range 0 d (λ j mean,
      m ← rd mean j; v ← rd x (i * d + j); wr mean j (cadd m v)) mean)
    (replicate d czero)) as (mean & Hrun & ->); [done| |done].
  intros i mean Hi ->.
  set (m0 := vsum d ((λ i, row d i x) <$> seq 0 i)).
  assert (Hlen : length m0 = d) by (apply length_vsum_rows; nia).
  destruct (add_row_spec d 0 i x m0) as (m1 & Hrun & Hl1 & Hrows); [nia|lia|].
  simpl in Hrun. exists m1. split; [exact Hrun|].
  specialize (Hrows 0). rewrite decide_True in Hrows by done.
  unfold row in Hrows at 1 2. simpl in Hrows. rewrite !drop_0, !take_ge in Hrows by lia.
  rewrite Hrows. rewrite seq_S, fmap_app. unfold vsum. rewrite foldl_app. done.
Qed.

(** the division by [n] and the scan for the largest coordinate (lines
    214-219) *)
Lemma divide_scan_spec (n : nat) (mean : list C) :
  for_range 0 (length mean) (λ j '(mean, maxm),
    m ← rd mean j;
    let m := cdiv m (c_of_Z (Z.of_nat n)) in
    mean ← wr mean j m;
    mret (mean, if clt maxm (cabs m) then cabs m else maxm)) (mean, czero)
  = Ok ((λ s, cdiv s (c_of_Z (Z.of_nat n))) <$> mean,
        max_abs ((λ s, cdiv s (c_of_Z (Z.of_nat n))) <$> mean)).
Proof.
  set (dv := λ s, cdiv s (c_of_Z (Z.of_nat n))).
  edestruct (for_range_total
    (λ j '(mn, maxm), mn = (dv <$> take j mean) ++ drop j mean ∧
                      maxm = max_abs (dv <$> take j mean))
    0 (length mean)) as ([mn maxm] & Hrun & Hinv);
    [| |rewrite Hrun; simpl in Hinv; destruct Hinv as [-> ->];
        by rewrite drop_all, take_ge, app_nil_r by lia].
  - by rewrite take_0, drop_0.
  - intros j [mn maxm] Hj [-> ->].
    destruct (lookup_lt_is_Some_2 mean j) as [m Hm]; [lia|].
    assert (Hjl : length (dv <$> take j mean) = j).
    { rewrite length_fmap, length_take. lia. }
    assert (Hrd : ((dv <$> take j mean) ++ drop j mean) !! j = Some m).
    { rewrite lookup_app_r by lia. rewrite Hjl, Nat.sub_diag, lookup_drop.
      by rewrite Nat.add_0_r. }
    rewrite (proj2 (rd_Ok _ _ _) Hrd). cbn [mbind result_bind].
    rewrite wr_lt by (rewrite length_app, length_drop; lia).
    cbn [mbind result_bind mret result_ret]. eexists (_, _). split; [done|].
    rewrite (take_S_r _ _ _ Hm), fmap_app. simpl. split.
    + rewrite insert_app_r_alt by lia. rewrite Hjl, Nat.sub_diag.
      rewrite (drop_S _ _ _ Hm). simpl. by rewrite <- app_assoc.
    + unfold max_abs. by rewrite foldl_app.
Qed.

(** the corners (lines 221-227), around any [mean] and for any [maxm] *)
Lemma corners_spec (d nbits kk : nat) (mean : list C) (maxm : C) (cent : list C) :
  length mean = d → nbits ≤ d → kk * d ≤ length cent →
  ∃ c', for_range 0 kk (λ i centroids,
      centroids ← for_range 0 nbits (λ j centroids,
        m ← rd mean j;
        wr centroids (i * d + j) (cadd m (cmul (c_of_Z (corner_sign i j)) maxm)))
        centroids;
      for_range nbits (d - nbits) (λ j centroids,
        m ← rd mean j;
        wr centroids (i * d + j) m) centroids) cent = Ok c' ∧
    length c' = length cent ∧
    (∀ i, i < kk →
       row d i c' = imap (λ j m, if decide (j < nbits)
                                 then cadd m (cmul (c_of_Z (corner_sign i j)) maxm)
                                 else m) mean) ∧
    (∀ idx, kk * d ≤ idx → c' !! idx = cent !! idx).
Proof.
  intros Hmean Hnb Hc.
  set (corner := λ i, imap (λ j m, if decide (j < nbits)
                                 then cadd m (cmul (c_of_Z (corner_sign i j)) maxm)
                                 else m) mean).
  edestruct (for_range_total
    (λ i c, length c = length cent ∧ (∀ i', i' < i → row d i' c = corner i') ∧
            (∀ idx, i * d ≤ idx → c !! idx = cent !! idx)) 0 kk)
    as (c' & Hrun & Hinv); [| |exists c'; split; [exact Hrun|exact Hinv]].
  - split; [done|]. split; [intros; lia|done].
  - intros i c Hi (Hl & Hrows & Hrest). cbv beta.
    destruct (for_range_fill (λ j m, cadd m (cmul (c_of_Z (corner_sign i j)) maxm))
                mean (i * d) 0 nbits c) as (c1 & -> & Hl1 & Hlook1); [lia|nia|].
    cbn [mbind result_bind].
    destruct (for_range_fill (λ j (m : C), m) mean (i * d) nbits (d - nbits) c1)
      as (c2 & -> & Hl2 & Hlook2); [lia|nia|].
    exists c2. split; [done|]. split; [lia|]. split.
    + intros i' Hi'. apply list_eq. intros j. rewrite row_lookup.
      destruct (decide (i' = i)) as [->|Hne].
      * unfold corner. rewrite list_lookup_imap. case_decide as Hj.
        -- rewrite Hlook2. case_decide.
           ++ replace (i * d + j - i * d) with j by lia.
              destruct (mean !! j); simpl; [|done]. by rewrite decide_False by lia.
           ++ rewrite Hlook1, decide_True by lia.
              replace (i * d + j - i * d) with j by lia.
              destruct (mean !! j); simpl; [|done]. by rewrite decide_True by lia.
        -- by rewrite lookup_ge_None_2 by lia.
      * rewrite <- Hrows by lia. rewrite row_lookup. case_decide; [|done].
        rewrite Hlook2, decide_False by nia. rewrite Hlook1, decide_False by nia. done.
    + intros idx Hidx. rewrite Hlook2, decide_False by lia.
      rewrite Hlook1, decide_False by lia. apply Hrest. lia.
Qed.

Lemma init_hypercube_spec (d nbits n : nat) (x centroids : list C) :
  nbits ≤ d → n * d ≤ length x → 2 ^ nbits * d ≤ length centroids →
  ∃ c', init_hypercube d nbits n x centroids = Ok c' ∧
    length c' = length centroids ∧
    (∀ i, i < 2 ^ nbits → row d i c' = hypercube_corner nbits i (column_mean d n x)) ∧
    (∀ idx, 2 ^ nbits * d ≤ idx → c' !! idx = centroids !! idx).
Proof.
  intros Hnb Hx Hc. unfold init_hypercube.
  rewrite column_sums_spec by done. cbn [mbind result_bind].
  pose proof (divide_scan_spec n (vsum d ((λ i, row d i x) <$> seq 0 n))) as Hdiv.
  rewrite length_vsum_rows in Hdiv by done. cbv zeta in Hdiv. rewrite Hdiv.
  cbn [mbind result_bind].
  apply corners_spec; [|done..].
  by rewrite length_fmap, length_vsum_rows.
Qed.
End Hypercube.

(** A loop fails only with an error of its body. *)
Lemma for_range_Err {St : Type} (P : error → Prop) (lo n : nat)
    (body : nat → St → result St) (s : St) (e : error) :
  (∀ i s e, body i s = Err e → P e) → for_range lo n body s = Err e → P e.
Proof.
  intros Hbody. revert lo s. induction n as [|n IH]; intros lo s; simpl; [done|].
  destruct (body lo s) as [s1|e1] eqn:Hb; simpl.
  - apply IH.
  - intros [= <-]. by apply (Hbody lo s).
Qed.

Lemma rd_Err {A : Type} (buf : list A) (i : nat) (e : error) :
  rd buf i = Err e → e = OutOfBounds.
Proof. unfold rd. destruct (buf !! i); congruence. Qed.

Lemma wr_Err {A : Type} (buf : list A) (i : nat) (v : A) (e : error) :
  wr buf i v = Err e → e = OutOfBounds.
Proof. unfold wr. case_decide; congruence. Qed.

Lemma bind_Err {A B : Type} (m : result A) (f : A → result B) (e : error) :
  m ≫= f = Err e ↔ m = Err e ∨ ∃ a, m = Ok a ∧ f a = Err e.
Proof.
  destruct m as [a|e1]; simpl.
  - split; [intros Hf; right; by exists a|intros [[=]|(a' & [= <-] & Hf)]; done].
  - split; [intros [= <-]; by left|intros [[= <-]|(a' & [=] & _)]; done].
Qed.

Section HypercubeCorners.
Context {C D : Type} `{Arith C D} `{Special C D} `{Extern C}.

Lemma init_hypercube_small_dimension (d nbits n : nat) (x centroids : list C) :
  d < nbits → init_hypercube d nbits n x centroids = Err OutOfBounds.
Proof.
  intros Hd. unfold init_hypercube.
  destruct (for_range 0 n _ (replicate d czero)) as [mean|e] eqn:E1; simpl.
  2:{ f_equal. revert E1.
      apply (for_range_Err (λ e, e = OutOfBounds)). intros i s e1.
      apply (for_range_Err (λ e, e = OutOfBounds)). intros j s1 e2.
      intros [?%rd_Err|(m & _ & [?%rd_Err|(v & _ & ?%wr_Err)]%bind_Err)]%bind_Err; done. }
  assert (Hl1 : length mean = d).
  { replace n with (0 + n) in E1 by done.
    apply (for_range_Ok_inv (λ _ m, length m = d) _ _ _ _ _ E1);
      [by rewrite length_replicate|].
    intros i s s' _ Hin Hs.
    replace d with (0 + d) in Hin at 1 by done.
    apply (for_range_Ok_inv (λ _ m, length m = d) _ _ _ _ _ Hin); [done|].
    intros j s1 s1' _ (m & _ & (v & _ & [_ ->]%wr_Ok)%bind_Ok)%bind_Ok Hs1.
    by rewrite length_insert. }
  destruct (for_range 0 d _ (mean, czero)) as [[mean2 maxm]|e] eqn:E2; simpl.
  2:{ f_equal. revert E2.
      apply (for_range_Err (λ e, e = OutOfBounds)). intros j [s mx] e1.
      intros [?%rd_Err|(m & _ & [?%wr_Err|(v & _ & ?)]%bind_Err)]%bind_Err; done. }
  assert (Hl2 : length mean2 = d).
  { replace d with (0 + d) in E2 at 1 by done.
    apply (for_range_Ok_inv (λ _ '(m, _), length m = d) _ _ _ _ _ E2); [done|].
    intros j [s mx] [s' mx'] _ (m & _ & (v & [_ ->]%wr_Ok & [= <- _])%bind_Ok)%bind_Ok Hs.
    by rewrite length_insert. }
  apply (for_range_out_of_bounds 0 (2 ^ nbits) 0).
  - pose proof (Nat.pow_nonzero 2 nbits). lia.
  - intros s.
    rewrite (for_range_out_of_bounds 0 nbits d); [done|lia| |].
    + intros s1. by rewrite rd_ge by lia.
    + intros j s1 e [?%rd_Err|(m & _ & ?%wr_Err)]%bind_Err; done.
  - intros i s e [He|(s1 & _ & He)]%bind_Err; revert He;
      apply (for_range_Err (λ e, e = OutOfBounds));
      intros j s2 e2 [?%rd_Err|(m & _ & ?%wr_Err)]%bind_Err; done.
Qed.

(** X1: the hypercube initialisation writes the [2 ^ nbits] corners of a
    hypercube around the mean of the training vectors: centroid [i] is the
    mean, moved on each of the first [nbits] coordinates by the largest
    absolute coordinate of the mean, up where bit [j] of [i] is set and
    down where it is not; the other coordinates are those of the mean. *)
Theorem hypercube_corners (d nbits nx : nat) (x centroids : list C) :
  nbits ≤ d → nx * d ≤ length x → length centroids = 2 ^ nbits * d →
  ∃ c', initialize_centroids TT_HYPERCUBE d nbits (2 ^ nbits) nx x centroids = Ok c' ∧
    length c' = 2 ^ nbits * d ∧
    ∀ i, i < 2 ^ nbits →
      row d i c' = hypercube_corner nbits i (column_mean d nx x).
Proof.
  intros Hnb Hx Hc. cbn [initialize_centroids].
  destruct (init_hypercube_spec d nbits nx x centroids)
    as (c' & Hrun & Hl & Hrows & _); [done|done|lia|].
  exists c'. split; [done|]. split; [lia|done].
Qed.

(** X2: the hypercube initialisation needs [pqBits <= pqSubdim]: with more
    bits than dimensions it reads [mean[j]] for [j >= d], past the end of
    the vector of [d] means, whatever the training set. *)
Theorem hypercube_needs_bits_within_dimension (fuel : nat) (meta : HnswMetadata)
    (slice_len : nat) (slice centroids : list C) :
  pqSubdim meta < pqBits meta →
  pq_train fuel TT_HYPERCUBE meta slice_len slice centroids = Err OutOfBounds.
Proof.
  intros Hd. unfold pq_train. cbn [initialize_centroids].
  by rewrite init_hypercube_small_dimension.
Qed.
End HypercubeCorners.

Section HypercubeCornersWitness.
Import IEEE.

(** the vectors (1, 2) and (3, 6), two bits: the mean is (2, 4), its
    largest coordinate 4, and the four corners are (2 - 4, 4 - 4),
    (2 + 4, 4 - 4), (2 - 4, 4 + 4) and (2 + 4, 4 + 4) *)
Lemma hypercube_corners_witness :
  initialize_centroids TT_HYPERCUBE 2 2 (2 ^ 2) 2 x_2x2 (replicate 8 (f32_of_Z 0))
  = Ok (f32_of_Z <$> [-2; 0; 6; 0; -2; 8; 6; 8]%Z) ∧
  column_mean 2 2 x_2x2 = f32_of_Z <$> [2; 4]%Z ∧
  ∀ i, i < 2 ^ 2 →
    row 2 i (f32_of_Z <$> [-2; 0; 6; 0; -2; 8; 6; 8]%Z)
    = hypercube_corner 2 i (f32_of_Z <$> [2; 4]%Z).
Proof.
  destruct (hypercube_corners 2 2 2 x_2x2 (replicate 8 (f32_of_Z 0)))
    as (c' & Hrun & _ & Hrows); [simpl; lia..|].
  assert (Hmean : column_mean 2 2 x_2x2 = f32_of_Z <$> [2; 4]%Z)
    by (vm_compute; reflexivity).
  assert (Hc' : c' = f32_of_Z <$> [-2; 0; 6; 0; -2; 8; 6; 8]%Z).
  { assert (Hout : Ok c' = Ok (f32_of_Z <$> [-2; 0; 6; 0; -2; 8; 6; 8]%Z))
      by (rewrite <- Hrun; vm_compute; reflexivity).
    by injection Hout. }
  rewrite <- Hc', <- Hmean. split; [exact Hrun|]. split; [reflexivity|exact Hrows].
Defined.

Lemma hypercube_needs_bits_within_dimension_witness :
  pq_train 0 TT_HYPERCUBE meta_1_2 1 [f32_of_Z 5] (replicate 4 czero)
  = Err OutOfBounds.
Proof.
  apply (hypercube_needs_bits_within_dimension 0 meta_1_2 1 [f32_of_Z 5]
           (replicate 4 czero)).
  simpl. lia.
Defined.
End HypercubeCornersWitness.

(** a table whose rows are all the same constant row *)
Lemma rows_replicate {A : Type} (d k : nat) (v : A) (c : list A) :
  length c = k * d → (∀ i, i < k → row d i c = replicate d v) →
  c = replicate (k * d) v.
Proof.
  intros Hl Hrows. apply list_eq. intros idx.
  destruct (decide (idx < k * d)) as [Hi|Hi].
  - assert (0 < d) by nia.
    assert (idx `div` d < k) by (apply Nat.Div0.div_lt_upper_bound; lia).
    pose proof (Nat.mod_upper_bound idx d ltac:(lia)).
    pose proof (Nat.div_mod_eq idx d).
    pose proof (f_equal (λ r, r !! (idx `mod` d)) (Hrows (idx `div` d) ltac:(done))) as Hr.
    simpl in Hr. rewrite row_lookup, decide_True in Hr by done.
    replace (idx `div` d * d + idx `mod` d) with idx in Hr by lia.
    rewrite Hr. rewrite !lookup_replicate_2; [done|lia..].
  - rewrite !lookup_ge_None_2; [done|rewrite length_replicate; lia|lia].
Qed.

(** in IEEE arithmetic, whatever the collaborators are *)
Section HypercubeEmpty.
Context {E : Extern spec_float}.
#[local] Existing Instance IEEE.arith.
#[local] Existing Instance IEEE.special.

Lemma max_abs_nan (d : nat) : max_abs (replicate d S754_nan) = czero.
Proof. unfold max_abs. induction d as [|d IH]; [done|]. simpl. exact IH. Qed.

Lemma column_mean_empty (d : nat) (x : list spec_float) :
  column_mean d 0 x = replicate d S754_nan.
Proof. unfold column_mean, vsum. simpl. by rewrite fmap_replicate. Qed.

Lemma hypercube_corner_nan (d nbits i : nat) :
  hypercube_corner nbits i (replicate d S754_nan) = replicate d S754_nan.
Proof.
  apply list_eq. intros j. unfold hypercube_corner.
  rewrite list_lookup_imap. destruct (decide (j < d)).
  - rewrite !lookup_replicate_2 by done. simpl. by case_decide.
  - by rewrite !lookup_ge_None_2 by (rewrite length_replicate; lia).
Qed.

(** X3: on an empty training set the hypercube initialisation divides
    zero by zero: in IEEE arithmetic every coordinate of every centroid is
    then not a number, and [pq_train] returns false with that table. *)
Theorem hypercube_of_empty_set_is_nan (fuel : nat) (meta : HnswMetadata)
    (slice centroids : list spec_float) :
  pqBits meta ≤ pqSubdim meta →
  length centroids = pq_k meta * pqSubdim meta →
  pq_train fuel TT_HYPERCUBE meta 0 slice centroids
  = Ok (false, replicate (pq_k meta * pqSubdim meta) S754_nan, []).
Proof.
  intros Hb Hl. unfold pq_train. cbn [initialize_centroids].
  destruct (init_hypercube_spec (pqSubdim meta) (pqBits meta) 0 slice centroids)
    as (c' & -> & Hl' & Hrows & _); [done|simpl; lia|unfold pq_k in Hl; lia|].
  cbn [mbind result_bind].
  pose proof (pq_k_pos meta).
  rewrite decide_False by lia. rewrite decide_True by (unfold min_points_per_centroid; lia).
  cbv [mret result_ret]. do 3 f_equal.
  apply rows_replicate; [lia|]. intros i Hi.
  rewrite Hrows by done. by rewrite column_mean_empty, hypercube_corner_nan.
Qed.
End HypercubeEmpty.

Section HypercubeEmptyWitness.
Import IEEE.

Lemma hypercube_of_empty_set_is_nan_witness :
  pq_train 0 TT_HYPERCUBE meta_2_1 0 [] centroids_2x2
  = Ok (false, replicate (pq_k meta_2_1 * pqSubdim meta_2_1) S754_nan, []).
Proof.
  apply (hypercube_of_empty_set_is_nan 0 meta_2_1 [] centroids_2x2).
  - simpl. lia.
  - reflexivity.
Defined.
End HypercubeEmptyWitness.

(** ** init_hypercube_pca *)

Section Pca.
Context {C D : Type} `{Arith C D} `{Special C D} `{Extern C}.

Lemma pca_corner_S (d k i : nat) (pca : PCAMatrix C) (ev : C) :
  pca_eigenvalues pca !! k = Some ev →
  pca_corner d (S k) i pca =
  zip_with (λ c pm, pca_accum c ev pm (corner_sign i k)) (pca_corner d k i pca)
           (row d k (pca_PCAMat pca)).
Proof.
  intros Hev. unfold pca_corner.
  rewrite (take_S_r _ _ _ Hev), imap_app, foldl_app. simpl.
  rewrite length_take_le by (apply lookup_lt_Some in Hev; lia).
  by rewrite Nat.add_0_r.
Qed.

Lemma length_pca_corner (d k i : nat) (pca : PCAMatrix C) :
  d ≤ length (pca_mean pca) → k ≤ length (pca_eigenvalues pca) →
  k * d ≤ length (pca_PCAMat pca) →
  length (pca_corner d k i pca) = d.
Proof.
  intros Hm. induction k as [|k IH]; intros Hev Hpm.
  - unfold pca_corner. rewrite take_0. simpl. by rewrite length_take_le.
  - destruct (lookup_lt_is_Some_2 (pca_eigenvalues pca) k) as [ev Hk]; [lia|].
    rewrite (pca_corner_S _ _ _ _ _ Hk), length_zip_with, IH, length_row by lia. lia.
Qed.

(** one cell of the table (lines 244-248) *)
Lemma pca_cell_spec (d nbits i j : nat) (pca : PCAMatrix C) (cent : list C) :
  j < d → d ≤ length (pca_mean pca) → nbits ≤ length (pca_eigenvalues pca) →
  nbits * d ≤ length (pca_PCAMat pca) → i * d + j < length cent →
  ∃ c',
    (m ← rd (pca_mean pca) j;
     centroids ← wr cent (i * d + j) m;
     for_range 0 nbits (λ k centroids,
       cent ← rd centroids (i * d + j);
       ev ← rd (pca_eigenvalues pca) k;
       pm ← rd (pca_PCAMat pca) (j + k * d);
       wr centroids (i * d + j) (pca_accum cent ev pm (corner_sign i k)))
       centroids) = Ok c' ∧
    length c' = length cent ∧
    c' !! (i * d + j) = pca_corner d nbits i pca !! j ∧
    ∀ idx, idx ≠ i * d + j → c' !! idx = cent !! idx.
Proof.
  intros Hj Hm Hev Hpm Hc.
  destruct (rd_lt (pca_mean pca) j) as (m & -> & Hmj); [lia|].
  cbn [mbind result_bind]. rewrite wr_lt by done. cbn [mbind result_bind].
  edestruct (for_range_total
    (λ k c, length c = length cent ∧
            c !! (i * d + j) = pca_corner d k i pca !! j ∧
            ∀ idx, idx ≠ i * d + j → c !! idx = cent !! idx) 0 nbits)
    as (c' & Hrun & Hinv); [| |exists c'; split; [exact Hrun|exact Hinv]].
  - split; [by rewrite length_insert|]. split.
    + rewrite list_lookup_insert_eq by done. unfold pca_corner.
      rewrite take_0. simpl. by rewrite lookup_take_lt.
    + intros idx Hne. by rewrite list_lookup_insert_ne.
  - intros k c Hk (Hl & Hcell & Hrest).
    destruct (rd_lt c (i * d + j)) as (cv & -> & Hcv); [lia|].
    destruct (rd_lt (pca_eigenvalues pca) k) as (ev & -> & Hevk); [lia|].
    destruct (rd_lt (pca_PCAMat pca) (j + k * d)) as (pm & -> & Hpmk); [nia|].
    cbn [mbind result_bind]. rewrite wr_lt by lia.
    eexists. split; [done|]. split; [by rewrite length_insert|]. split.
    + rewrite list_lookup_insert_eq by lia.
      rewrite (pca_corner_S _ _ _ _ _ Hevk), lookup_zip_with.
      rewrite <- Hcell, Hcv. simpl. rewrite row_lookup, decide_True by done.
      by rewrite (Nat.add_comm (k * d)), Hpmk.
    + intros idx Hne. rewrite list_lookup_insert_ne by done. by apply Hrest.
Qed.

Lemma init_hypercube_pca_spec (d nbits n : nat) (x centroids : list C) :
  let pca := pca_train d nbits n x in
  d ≤ length (pca_mean pca) → nbits ≤ length (pca_eigenvalues pca) →
  nbits * d ≤ length (pca_PCAMat pca) → 2 ^ nbits * d ≤ length centroids →
  ∃ c', init_hypercube_pca d nbits n x centroids = Ok c' ∧
    length c' = length centroids ∧
    (∀ i, i < 2 ^ nbits → row d i c' = pca_corner d nbits i pca) ∧
    (∀ idx, 2 ^ nbits * d ≤ idx → c' !! idx = centroids !! idx).
Proof.
  intros pca Hm Hev Hpm Hc. unfold init_hypercube_pca. fold pca.
  edestruct (for_range_total
    (λ i c, length c = length centroids ∧
            (∀ i', i' < i → row d i' c = pca_corner d nbits i' pca) ∧
            (∀ idx, i * d ≤ idx → c !! idx = centroids !! idx)) 0 (2 ^ nbits))
    as (c' & Hrun & Hinv); [| |exists c'; split; [exact Hrun|exact Hinv]].
  - split; [done|]. split; [intros; lia|done].
  - intros i c Hi (Hl & Hrows & Hrest). cbv beta.
    edestruct (for_range_total
      (λ j c1, length c1 = length c ∧
               (∀ j', j' < j → c1 !! (i * d + j') = pca_corner d nbits i pca !! j') ∧
               (∀ idx, ¬ (i * d ≤ idx < i * d + j) → c1 !! idx = c !! idx)) 0 d)
      as (c1 & Hrun1 & Hl1 & Hcells & Hothers);
      [| |exists c1; split; [exact Hrun1|]].
    + split; [done|]. split; [intros; lia|done].
    + intros j c1 Hj (Hl1 & Hcells & Hothers).
      destruct (pca_cell_spec d nbits i j pca c1) as (c2 & Hrun2 & Hl2 & Hcell & Hrest2);
        [lia|done|done|done|nia|].
      exists c2. split; [exact Hrun2|]. split; [lia|]. split.
      * intros j' Hj'. destruct (decide (j' = j)) as [->|]; [done|].
        rewrite Hrest2 by lia. apply Hcells. lia.
      * intros idx Hidx. rewrite Hrest2 by lia. apply Hothers. lia.
    + split; [lia|]. split.
      * intros i' Hi'. destruct (decide (i' = i)) as [->|Hne].
        -- apply list_eq. intros j. rewrite row_lookup. case_decide.
           ++ apply Hcells. lia.
           ++ symmetry. apply lookup_ge_None_2.
              rewrite length_pca_corner; [lia|done..].
        -- rewrite <- Hrows by lia. apply list_eq. intros j.
           rewrite !row_lookup. case_decide; [|done]. apply Hothers. nia.
      * intros idx Hidx. rewrite Hothers by lia. apply Hrest. lia.
Qed.
End Pca.

Section PcaCorners.
Context {C D : Type} `{Arith C D} `{Special C D} `{Extern C}.

(** X4: the PCA initialisation writes the [2 ^ nbits] corners spanned by
    the principal axes: centroid [i] is the PCA mean, moved along each axis
    [k] by the square root of its eigenvalue, forward where bit [k] of [i]
    is set and backward where it is not. The cell-by-cell loop of the code
    gives the same table as adding the axes one after the other. *)
Theorem pca_hypercube_corners (d nbits nx : nat) (x centroids : list C) :
  let pca := pca_train d nbits nx x in
  d ≤ length (pca_mean pca) → nbits ≤ length (pca_eigenvalues pca) →
  nbits * d ≤ length (pca_PCAMat pca) → length centroids = 2 ^ nbits * d →
  ∃ c', initialize_centroids TT_HYPERCUBE_PCA d nbits (2 ^ nbits) nx x centroids
          = Ok c' ∧
    length c' = 2 ^ nbits * d ∧
    ∀ i, i < 2 ^ nbits → row d i c' = pca_corner d nbits i pca.
Proof.
  intros pca Hm Hev Hpm Hc. cbn [initialize_centroids].
  destruct (init_hypercube_pca_spec d nbits nx x centroids)
    as (c' & Hrun & Hl & Hrows & _); [done|done|done|lia|].
  exists c'. split; [done|]. split; [lia|done].
Qed.
End PcaCorners.

Section PcaCornersWitness.
#[local] Existing Instance IEEE.arith.
#[local] Existing Instance IEEE.special.
#[local] Existing Instance fixed_pca.

(** the mean (1, 2), the eigenvalues 4 and 9 and the axes (1, 1) and
    (-1, 1): the four corners are (1, 2) - 2 (1, 1) - 3 (-1, 1) = (2, -3),
    (1, 2) + 2 (1, 1) - 3 (-1, 1) = (6, 1), (1, 2) - 2 (1, 1) + 3 (-1, 1)
    = (-4, 3) and (1, 2) + 2 (1, 1) + 3 (-1, 1) = (0, 7) *)
Lemma pca_hypercube_corners_witness :
  initialize_centroids TT_HYPERCUBE_PCA 2 2 (2 ^ 2) 3 x_3x2
    (replicate 8 (IEEE.f32_of_Z 0))
  = Ok (IEEE.f32_of_Z <$> [2; -3; 6; 1; -4; 3; 0; 7]%Z) ∧
  ∀ i, i < 2 ^ 2 →
    row 2 i (IEEE.f32_of_Z <$> [2; -3; 6; 1; -4; 3; 0; 7]%Z)
    = pca_corner 2 2 i (pca_train 2 2 3 x_3x2).
Proof.
  destruct (pca_hypercube_corners 2 2 3 x_3x2 (replicate 8 (IEEE.f32_of_Z 0)))
    as (c' & Hrun & _ & Hrows); [simpl; lia..|].
  assert (Hc' : c' = IEEE.f32_of_Z <$> [2; -3; 6; 1; -4; 3; 0; 7]%Z).
  { assert (Hout : Ok c' = Ok (IEEE.f32_of_Z <$> [2; -3; 6; 1; -4; 3; 0; 7]%Z))
      by (rewrite <- Hrun; vm_compute; reflexivity).
    by injection Hout. }
  rewrite <- Hc'. split; [exact Hrun|exact Hrows].
Defined.
End PcaCornersWitness.
(** ** The default initialisation *)

Section DefaultInit.
Context {C D : Type} `{Arith C D} `{Special C D} `{Extern C}.

(** X5: with at least [k] training vectors, the default initialisation
    makes the centroids [k] training vectors with pairwise different
    indices: centroid [i] is the row [perm[i]] of the training set, for
    the permutation drawn with the seed [seed + 1]. *)
Theorem default_initialisation_picks_distinct_rows (d nbits k nx : nat)
    (x centroids : list C) :
  k ≤ nx → length x = nx * d → length centroids = k * d →
  rand_perm nx (seed + 1) ≡ₚ seq 0 nx →
  ∃ c', initialize_centroids TT_DEFAULT d nbits k nx x centroids = Ok c' ∧
    length c' = k * d ∧
    let picks := take k (rand_perm nx (seed + 1)) in
    length picks = k ∧ NoDup picks ∧
    ∀ i p, picks !! i = Some p → p < nx ∧ row d i c' = row d p x.
Proof.
  intros Hk Hx Hc Hperm.
  destruct (initialize_default_spec d nbits k nx x centroids Hk Hx Hc Hperm)
    as (c' & Hrun & Hl & Hrows).
  exists c'. split; [done|]. split; [done|]. cbv zeta.
  assert (Hpl : length (rand_perm nx (seed + 1)) = nx).
  { by rewrite Hperm, length_seq. }
  split; [rewrite length_take; lia|]. split.
  - assert (Hnd : NoDup (rand_perm nx (seed + 1))) by (rewrite Hperm; apply NoDup_seq).
    rewrite <- (take_drop k) in Hnd. by apply NoDup_app in Hnd as [? _].
  - intros i p Hp. apply lookup_take_Some in Hp as [Hp Hi].
    destruct (Hrows i Hi) as (p' & Hp' & Hlt & Hrow). by simplify_eq.
Qed.
End DefaultInit.

Section DefaultInitWitness.
Import IEEE.

Lemma default_initialisation_picks_distinct_rows_witness :
  ∃ c', initialize_centroids TT_DEFAULT 2 1 2 3 x_3x2 centroids_2x2 = Ok c' ∧
    length c' = 2 * 2 ∧
    let picks := take 2 (rand_perm 3 (seed + 1)) in
    length picks = 2 ∧ NoDup picks ∧
    ∀ i p, picks !! i = Some p → p < 3 ∧ row 2 i c' = row 2 p x_3x2.
Proof.
  apply (default_initialisation_picks_distinct_rows 2 1 2 3 x_3x2 centroids_2x2);
    [lia|reflexivity|reflexivity|apply rotation_perm].
Defined.
End DefaultInitWitness.

(** ** compute_centroids: the assertion and the histogram *)

(** A loop whose body fails at one index with [e], and before it either
    keeps the invariant or fails with [e], fails with [e]. *)
Lemma for_range_fails {St : Type} (Inv : nat → St → Prop) (e : error) (lo n bad : nat)
    (body : nat → St → result St) (s : St) :
  lo ≤ bad < lo + n → Inv lo s →
  (∀ i s, lo ≤ i < bad → Inv i s →
     body i s = Err e ∨ ∃ s', body i s = Ok s' ∧ Inv (S i) s') →
  (∀ s, Inv bad s → body bad s = Err e) →
  for_range lo n body s = Err e.
Proof.
  revert lo s. induction n as [|n IH]; intros lo s Hbad Hs Hstep Hfail; [lia|].
  simpl. destruct (decide (lo = bad)) as [->|Hne].
  - by rewrite Hfail.
  - destruct (Hstep lo s) as [->|(s1 & -> & Hs1)]; [lia|done|done|]. simpl.
    apply IH; [lia|done| |done]. intros i s2 Hi. apply Hstep. lia.
Qed.

Section Histogram.
Context {C D : Type} `{Arith C D}.

(** X9: an assignment that is not below [k] stops [compute_centroids] at
    [assert(ci < k)] (in a build with assertions), before the histogram or
    the table is touched at that index. *)
Theorem compute_centroids_rejects_bad_assignment (d k n : nat) (x : list C)
    (assign : list nat) (hassign centroids : list C) (i ci : nat) :
  n * d ≤ length x → length hassign = k → k * d ≤ length centroids →
  i < n → assign !! i = Some ci → k ≤ ci →
  compute_centroids d k n x assign hassign centroids = Err AssertionFailed.
Proof.
  intros Hx Hh Hc Hi Hci Hbad. unfold compute_centroids.
  destruct (wr_block centroids 0 (replicate (d * k) czero)) as [c0|e] eqn:Hw.
  2:{ unfold wr_block in Hw. rewrite length_replicate in Hw.
      rewrite decide_True in Hw by lia. done. }
  pose proof (length_wr_block _ _ _ _ Hw) as Hl0.
  cbn [mbind result_bind]. unfold accumulate.
  rewrite (for_range_fails
    (λ _ '(h, c), length h = k ∧ length c = length centroids) AssertionFailed 0 n i);
    [done|lia|done| |].
  - intros i' [h c] Hi' [Hlh Hlc].
    destruct (lookup_lt_is_Some_2 assign i') as [ci' Hci'].
    { apply lookup_lt_Some in Hci. lia. }
    rewrite (proj2 (rd_Ok _ _ _) Hci'). cbn [mbind result_bind].
    case_decide as Hin; [|by left]. right.
    destruct (rd_lt h ci') as (hv & -> & _); [lia|]. cbn [mbind result_bind].
    rewrite wr_lt by lia. cbn [mbind result_bind].
    destruct (add_row_spec d ci' i' x c) as (c2 & -> & Hc2 & _); [nia|nia|].
    cbn [mbind result_bind mret result_ret].
    eexists (_, _). split; [done|]. split; [by rewrite length_insert|lia].
  - intros [h c] _. rewrite (proj2 (rd_Ok _ _ _) Hci). cbn [mbind result_bind].
    by rewrite decide_False by lia.
Qed.

Lemma sum_list_indicator (k ci : nat) :
  ci < k →
  sum_list ((λ c, if decide (Some ci = Some c) then 1 else 0) <$> seq 0 k) = 1.
Proof.
  induction k as [|k IH]; intros Hci; [lia|].
  rewrite seq_S, fmap_app, sum_list_with_app. simpl.
  destruct (decide (ci = k)) as [->|Hne].
  - rewrite decide_True by done.
    assert (Hz : ∀ m, m ≤ k →
              sum_list ((λ c, if decide (Some k = Some c) then 1 else 0) <$> seq 0 m) = 0).
    { induction m as [|m IHm]; intros Hm; [done|].
      rewrite seq_S, fmap_app, sum_list_with_app. simpl.
      rewrite IHm by lia. rewrite decide_False; [done|]. intros [=]. lia. }
    rewrite Hz by done. done.
  - rewrite IH by lia. rewrite decide_False; [done|]. by intros [=].
Qed.

Lemma members_partition (k n : nat) (assign : list nat) :
  (∀ i, i < n → ∃ ci, assign !! i = Some ci ∧ ci < k) →
  sum_list ((λ c, length (members c n assign)) <$> seq 0 k) = n.
Proof.
  induction n as [|n IH]; intros Hassign.
  - unfold members. simpl. induction (seq 0 k) as [|c l IHl]; [done|].
    simpl. exact IHl.
  - destruct (Hassign n) as (ci & Hci & Hlt); [lia|].
    transitivity (sum_list ((λ c, length (members c n assign)) <$> seq 0 k) +
                  sum_list ((λ c, if decide (Some ci = Some c) then 1 else 0) <$> seq 0 k)).
    + clear IH Hlt. induction (seq 0 k) as [|c l IHl]; [done|].
      rewrite !fmap_cons. cbn [sum_list sum_list_with]. rewrite IHl.
      rewrite members_S, length_app, Hci.
      destruct (decide (Some ci = Some c)); simpl; lia.
    + rewrite IH by (intros i Hi; apply Hassign; lia).
      rewrite sum_list_indicator by done. lia.
Qed.

End Histogram.

(** in IEEE arithmetic *)
Section HistogramIEEE.
#[local] Existing Instance IEEE.arith.

(** X10: started on a zero histogram, [compute_centroids] in IEEE-754
    arithmetic leaves in [hassign], for each cluster, the number of
    training vectors assigned to it as a float (exact up to [2 ^ 24]), and
    these [k] numbers add up to [n]: every training vector is counted in
    exactly one cluster. For [n < 2 ^ 24] the floats are the counts
    themselves, and their values add up to [n]. *)
Theorem histogram_counts_every_vector (d k n : nat) (x : list spec_float)
    (assign : list nat) (centroids : list spec_float) :
  n * d ≤ length x → k * d ≤ length centroids →
  (∀ i, i < n → ∃ ci, assign !! i = Some ci ∧ ci < k) →
  ∃ hassign' centroids' counts,
    compute_centroids d k n x assign (replicate k (IEEE.f32_of_Z 0)) centroids
      = Ok (hassign', centroids') ∧
    hassign' = float_count <$> counts ∧
    length counts = k ∧
    (∀ c, c < k → counts !! c = Some (length (members c n assign))) ∧
    sum_list counts = n ∧
    ((Z.of_nat n < 2 ^ 24)%Z →
     hassign' = (λ m, IEEE.f32_of_Z (Z.of_nat m)) <$> counts ∧
     (total sf_value hassign' == inject_Z (Z.of_nat n))%Q).
Proof.
  intros Hx Hc Hassign.
  destruct (compute_centroids_spec d k n x assign (replicate k (IEEE.f32_of_Z 0))
              centroids)
    as (h' & c' & Hrun & Hlh & _ & Hrows); [done|done|by rewrite length_replicate|done|].
  set (counts := (λ c, length (members c n assign)) <$> seq 0 k).
  assert (Hh' : h' = float_count <$> counts).
  { apply list_eq. intros c. unfold counts. rewrite list_lookup_fmap, list_lookup_fmap.
    destruct (decide (c < k)) as [Hck|Hck].
    + destruct (Hrows c Hck) as (h0 & Hh0 & Hh' & _).
      rewrite lookup_replicate_2 in Hh0 by done. injection Hh0 as <-.
      change (IEEE.f32_of_Z 0) with (@czero _ _ IEEE.arith) in Hh'.
      rewrite incr_count in Hh'.
      rewrite Hh', lookup_seq_lt by done. done.
    + rewrite lookup_ge_None_2 by lia.
      by rewrite lookup_seq_ge by lia. }
  assert (Hsum : sum_list counts = n) by (by apply members_partition).
  exists h', c', counts.
  split; [done|]. split; [done|]. split; [by unfold counts; rewrite length_fmap, length_seq|].
  split; [|split; [done|]].
  - intros c Hck. unfold counts. by rewrite list_lookup_fmap, lookup_seq_lt.
  - intros Hn.
    assert (Hsmall : Forall (λ m, (Z.of_nat m < 2 ^ 24)%Z) counts).
    { apply Forall_forall. intros m Hm%list_elem_of_fmap. destruct Hm as (c & -> & _).
      pose proof (length_members c n assign) as Hle. cbv beta. lia. }
    assert (Heq : h' = (λ m, IEEE.f32_of_Z (Z.of_nat m)) <$> counts).
    { rewrite Hh'. apply Forall_fmap_ext_1. eapply Forall_impl; [exact Hsmall|].
      intros m Hm. cbv beta in Hm. unfold float_count. by rewrite Z.min_l by lia. }
    split; [done|]. rewrite Heq, total_f32_of_Z by done. by rewrite Hsum.
Qed.
End HistogramIEEE.

Section HistogramWitness.
Import IEEE.

Lemma compute_centroids_rejects_bad_assignment_witness :
  compute_centroids 2 2 3 x_3x2 [1; 2; 0] (replicate 2 czero) centroids_2x2
  = Err AssertionFailed.
Proof.
  apply (compute_centroids_rejects_bad_assignment 2 2 3 x_3x2 [1; 2; 0]
           (replicate 2 czero) centroids_2x2 1 2); simpl; (lia || reflexivity).
Defined.

(** the assignment 1, 0, 1 of three vectors to two clusters: the counts
    are 1 and 2 *)
Lemma histogram_counts_every_vector_witness :
  ∃ centroids',
    compute_centroids 2 2 3 x_3x2 assign_101 (replicate 2 (f32_of_Z 0)) centroids_2x2
      = Ok (f32_of_Z <$> [1; 2]%Z, centroids') ∧
    (total sf_value (f32_of_Z <$> [1; 2]%Z) == 3)%Q.
Proof.
  destruct (histogram_counts_every_vector 2 2 3 x_3x2 assign_101 centroids_2x2)
    as (h' & c' & counts & Hrun & _ & _ & _ & _ & Hsmall); [simpl; lia|simpl; lia| |].
  { intros [|[|[|i]]] Hi; [exists 1|exists 0|exists 1|lia]; (split; [reflexivity|lia]). }
  assert (Hh : h' = f32_of_Z <$> [1; 2]%Z).
  { vm_compute in Hrun. injection Hrun as <- _. reflexivity. }
  exists c'. rewrite <- Hh. split; [exact Hrun|].
  exact (proj2 (Hsmall eq_refl)).
Defined.
End HistogramWitness.

(** ** split_clusters: the number of repairs *)

Section SplitCount.
Context {C D : Type} `{Arith C D} `{Extern C}.

(** X11: on a histogram without an empty cluster, [split_clusters] draws
    no random number, changes nothing and returns 0. *)
Theorem split_clusters_without_empty (fuel d k n : nat) (hassign centroids : list C) :
  k ≤ length hassign →
  (∀ c h, c < k → hassign !! c = Some h → ceqb h czero = false) →
  split_clusters fuel d k n hassign centroids = Ok (0, hassign, centroids).
Proof.
  intros Hk Hnz. unfold split_clusters.
  edestruct (for_range_total
    (λ (_ : nat) (st : nat * nat * list C * list C), st = (0, 0, hassign, centroids))
    0 k) as (st & Hrun & ->); [done| |by rewrite Hrun].
  intros c st Hc ->. exists (0, 0, hassign, centroids). split; [|done].
  unfold split_step.
  destruct (rd_lt hassign c) as (h & -> & Hh); [lia|]. cbn [mbind result_bind].
  by rewrite (Hnz c h) by (done || lia).
Qed.

Lemma split_prefix_count (fuel d k n ci : nat) (hassign centroids : list C)
    (ns t : nat) (h c : list C) :
  draws_not_negative → accepted_above_one → positive_not_zero →
  ci ≤ k → length hassign = k → k * d ≤ length centroids →
  for_range 0 ci (split_step fuel d k n) (0, 0, hassign, centroids) = Ok (ns, t, h, c) →
  ns = empty_clusters (take ci hassign).
Proof.
  intros Hrng Hacc Hpos. revert ns t h c.
  induction ci as [|ci IH]; intros ns t h c Hci Hh Hc Hrun.
  - simpl in Hrun. injection Hrun as <- _ _ _. by rewrite take_0.
  - replace (S ci) with (ci + 1) in Hrun by lia.
    apply for_range_split_Ok in Hrun as ([[[ns1 t1] h1] c1] & Hpre & Hstep).
    cbn [for_range] in Hstep. apply bind_Ok in Hstep as (st' & Hstep & Heq).
    pose proof (IH _ _ _ _ ltac:(lia) Hh Hc Hpre) as ->.
    pose proof (split_prefix_inv fuel d k n ci hassign centroids _ Hrng Hacc Hpos
                  ltac:(lia) Hh Hc Hpre) as (Hl1 & Hlc1 & Hcur & Hinit).
    destruct (lookup_lt_is_Some_2 hassign ci) as [h0 Hh0]; [lia|].
    rewrite (take_S_r _ _ _ Hh0). unfold empty_clusters.
    rewrite filter_app, length_app.
    assert (Hlc : k * d ≤ length c1) by lia.
    destruct st' as [[[ns' t'] h'] c'].
    destruct (split_step_Ok fuel d k n ci _ _ _ _ _ _ _ _ Hrng Hacc ltac:(lia) Hl1
                Hlc Hstep)
      as (hc & Hhc & [(Hnz & -> & _)|(Hz & cj & hj & _ & _ & _ & _ & _ & _ & _ & -> & _)]);
      injection Heq as <- _ _ _.
    + destruct (ceqb h0 czero) eqn:Hz0.
      * rewrite (Hinit ci h0 ltac:(lia) Hh0 Hz0) in Hhc. injection Hhc as <-. congruence.
      * rewrite filter_cons_False, filter_nil by (simpl; congruence).
        unfold empty_clusters. simpl. lia.
    + destruct (Hcur ci ltac:(lia)) as (h1' & Hh1' & Horig).
      rewrite Hhc in Hh1'. injection Hh1' as <-.
      destruct (Horig Hz) as [_ Ho]. rewrite Hh0 in Ho. injection Ho as ->.
      rewrite filter_cons_True, filter_nil by done. unfold empty_clusters. simpl. lia.
Qed.

(** X12: the value that [split_clusters] returns is the number of
    clusters that were empty on entry: a repair never empties a donor and
    never fills a cluster that is still to be visited. *)
Theorem split_count_is_number_of_empty (fuel d k n nsplit : nat)
    (hassign centroids hassign' centroids' : list C) :
  draws_not_negative → accepted_above_one → positive_not_zero →
  length hassign = k → length centroids = k * d →
  split_clusters fuel d k n hassign centroids = Ok (nsplit, hassign', centroids') →
  nsplit = empty_clusters hassign.
Proof.
  intros Hrng Hacc Hpos Hh Hc Hrun.
  apply split_clusters_Ok in Hrun as [t Hrun].
  rewrite (split_prefix_count fuel d k n k hassign centroids nsplit t hassign' centroids'
             Hrng Hacc Hpos ltac:(lia) Hh ltac:(lia) Hrun).
  by rewrite take_ge by lia.
Qed.
End SplitCount.

Section SplitCountWitness.
Import Exact.

Lemma split_clusters_without_empty_witness :
  split_clusters 0 2 4 8 [2; 5; 1; 3]%Q centroids_4x2
  = Ok (0, [2; 5; 1; 3]%Q, centroids_4x2).
Proof.
  apply (split_clusters_without_empty 0 2 4 8 [2; 5; 1; 3]%Q centroids_4x2);
    [simpl; lia|].
  intros c h Hc Hl.
  do 4 (destruct c as [|c]; [injection Hl as <-; reflexivity|]). lia.
Defined.

Lemma split_count_is_number_of_empty_witness :
  ∃ nsplit hassign' centroids',
    split_clusters 8 2 4 8 hassign_0503 centroids_4x2
      = Ok (nsplit, hassign', centroids') ∧
    nsplit = empty_clusters hassign_0503.
Proof.
  destruct (split_clusters 8 2 4 8 hassign_0503 centroids_4x2)
    as [[[nsplit h'] c']|e] eqn:Hrun; [|vm_compute in Hrun; discriminate].
  exists nsplit, h', c'. split; [reflexivity|].
  exact (split_count_is_number_of_empty 8 2 4 8 nsplit hassign_0503 centroids_4x2
           h' c' exact_draws_not_negative exact_accepted_above_one
           exact_positive_not_zero eq_refl eq_refl Hrun).
Defined.
End SplitCountWitness.


(** ** compute_centroids followed by split_clusters, as the loop runs them *)

(** in IEEE arithmetic, whatever the collaborators are *)
Section RecomputeAndRepair.
Context {E : Extern spec_float}.
#[local] Existing Instance IEEE.arith.

(** X20: the recomputation and the repair of one iteration (lines 320-331)
    in IEEE-754 arithmetic, with draws of the generator that are not
    negative: if [split_clusters] returns, every cluster has a histogram
    entry above zero, and for fewer than [2 ^ 24] training vectors the
    values of the entries add up to [n]. The only
    assumptions are on the inputs of the iteration: the sizes of the
    buffers and assignments below [k]. *)
Theorem iteration_leaves_no_empty_cluster (fuel d k n nsplit : nat)
    (x : list spec_float) (assign : list nat)
    (centroids h1 c1 h2 c2 : list spec_float) :
  draws_not_negative →
  length x = n * d → length centroids = k * d →
  (∀ i, i < n → ∃ ci, assign !! i = Some ci ∧ ci < k) →
  compute_centroids d k n x assign (replicate k (IEEE.f32_of_Z 0)) centroids
    = Ok (h1, c1) →
  split_clusters fuel d k n h1 c1 = Ok (nsplit, h2, c2) →
  (∀ c, c < k → ∃ h, h2 !! c = Some h ∧
                     SFeqb h (IEEE.f32_of_Z 0) = false ∧ sf_positive h = true) ∧
  ((Z.of_nat n < 2 ^ 24)%Z → (total sf_value h2 == inject_Z (Z.of_nat n))%Q).
Proof.
  intros Hrng Hx Hc Hassign Hcomp Hsplit.
  destruct (compute_centroids_leaves_counts d k n x assign centroids h1 c1)
    as (Hlh & Hlc & Hh1 & Hval); [lia|lia|done|done|].
  apply split_clusters_Ok in Hsplit as [tk Hrun].
  destruct (valid_counts_binary32s h1 Hval) as [Hbin Hfin].
  pose proof (ieee_split_prefix_inv fuel d k n k h1 c1 _ Hrng Hbin
                ltac:(lia) Hlh ltac:(lia) Hrun)
    as ((_ & _ & Hcur & _) & _ & Htot & Hval').
  cbn [fst snd] in Hval', Htot. specialize (Hval' Hval).
  destruct (Htot Hfin) as [_ Htot']. split.
  - intros c Hck. destruct (Hcur c Hck) as (h & Hh & Hzero). exists h.
    split; [done|].
    assert (Hnz : SFeqb h (IEEE.f32_of_Z 0) = false).
    { destruct (SFeqb h (IEEE.f32_of_Z 0)) eqn:Hz; [|done].
      destruct (Hzero Hz); lia. }
    split; [done|]. apply valid_count_nonzero; [|done].
    apply (proj1 (Forall_lookup _ _) Hval' c h Hh).
  - intros Hn. rewrite Htot', Hh1.
    assert (Heq : (λ c, float_count (length (members c n assign))) <$> seq 0 k
                  = (λ m, IEEE.f32_of_Z (Z.of_nat m))
                      <$> ((λ c, length (members c n assign)) <$> seq 0 k)).
    { rewrite <- list_fmap_compose. apply list_fmap_ext. intros _ c _.
      unfold float_count. simpl. rewrite Z.min_l; [done|].
      pose proof (length_members c n assign). lia. }
    rewrite Heq, total_f32_of_Z.
    + by rewrite members_partition.
    + apply Forall_fmap, Forall_forall. intros c _. cbv beta.
      pose proof (length_members c n assign). simpl. lia.
Qed.
End RecomputeAndRepair.

Section RecomputeAndRepairWitness.
Import IEEE.

(** four values for two clusters, all assigned to cluster 0: the
    recomputation leaves the counts 4 and 0 and the centroids 4 and 0, the
    repair the counts 2 and 2 and the centroids 4 * 1023/1024 and
    4 * 1025/1024 *)
Lemma iteration_leaves_no_empty_cluster_witness :
  compute_centroids 1 2 4 (f32_of_Z <$> [2; 4; 6; 4]%Z) [0; 0; 0; 0]
    (replicate 2 (f32_of_Z 0)) (f32_of_Z <$> [9; 9]%Z)
  = Ok (f32_of_Z <$> [4; 0]%Z, f32_of_Z <$> [4; 0]%Z) ∧
  split_clusters 4 1 2 4 (f32_of_Z <$> [4; 0]%Z) (f32_of_Z <$> [4; 0]%Z)
  = Ok (1, f32_of_Z <$> [2; 2]%Z,
        (λ z, SFdiv prec32 emax32 (f32_of_Z z) (f32_of_Z 1024)) <$> [4092; 4100]%Z) ∧
  (total sf_value (f32_of_Z <$> [2; 2]%Z) == 4)%Q.
Proof.
  assert (Hcomp : compute_centroids 1 2 4 (f32_of_Z <$> [2; 4; 6; 4]%Z) [0; 0; 0; 0]
            (replicate 2 (f32_of_Z 0)) (f32_of_Z <$> [9; 9]%Z)
          = Ok (f32_of_Z <$> [4; 0]%Z, f32_of_Z <$> [4; 0]%Z))
    by (vm_compute; reflexivity).
  assert (Hsplit : split_clusters 4 1 2 4 (f32_of_Z <$> [4; 0]%Z) (f32_of_Z <$> [4; 0]%Z)
          = Ok (1, f32_of_Z <$> [2; 2]%Z,
                (λ z, SFdiv prec32 emax32 (f32_of_Z z) (f32_of_Z 1024))
                  <$> [4092; 4100]%Z))
    by (vm_compute; reflexivity).
  split; [exact Hcomp|]. split; [exact Hsplit|].
  refine (proj2 (iteration_leaves_no_empty_cluster 4 1 2 4 1
                   (f32_of_Z <$> [2; 4; 6; 4]%Z) [0; 0; 0; 0] (f32_of_Z <$> [9; 9]%Z)
                   _ _ _ _ ieee_draws_not_negative eq_refl eq_refl _ Hcomp Hsplit)
                eq_refl).
  intros i Hi. exists 0. split; [|lia].
  do 4 (destruct i as [|i]; [reflexivity|]). lia.
Defined.
End RecomputeAndRepairWitness.
(** ** pq_train: every access stays inside its buffer *)

(** A loop whose body, under an invariant, either keeps it or runs out of
    fuel, ends with the invariant or runs out of fuel. *)
Lemma for_range_fuel {St : Type} (Inv : nat → St → Prop) (lo n : nat)
    (body : nat → St → result St) (s : St) :
  Inv lo s →
  (∀ i s, lo ≤ i < lo + n → Inv i s →
     body i s = Err OutOfFuel ∨ ∃ s', body i s = Ok s' ∧ Inv (S i) s') →
  for_range lo n body s = Err OutOfFuel ∨
  ∃ s', for_range lo n body s = Ok s' ∧ Inv (lo + n) s'.
Proof.
  revert lo s. induction n as [|n IH]; intros lo s Hs Hbody; simpl.
  - right. exists s. by rewrite Nat.add_0_r.
  - destruct (Hbody lo s) as [->|(s1 & -> & Hs1)]; [lia|done|by left|]. simpl.
    destruct (IH (S lo) s1) as [->|(s' & Hrun & Hs')]; [done| |by left|].
    + intros i s2 Hi. apply Hbody. lia.
    + right. exists s'. split; [done|]. by replace (lo + S n) with (S lo + n) by lia.
Qed.

Section Safety.
Context {C D : Type} `{Arith C D} `{Special C D} `{Extern C}.

Lemma find_donor_fuel_or_index (fuel k n : nat) (hassign : list C) (cj t : nat) :
  cj < k → length hassign = k →
  find_donor fuel k n hassign cj t = Err OutOfFuel ∨
  ∃ cj' t', find_donor fuel k n hassign cj t = Ok (cj', t') ∧ cj' < k.
Proof.
  intros Hcj Hh. revert cj t Hcj.
  induction fuel as [|fuel IH]; intros cj t Hcj; simpl; [by left|].
  destruct (rd_lt hassign cj) as (h & -> & _); [lia|]. cbn [mbind result_bind].
  destruct (clt _ _); [right; by exists cj, (S t)|].
  apply IH. apply Nat.mod_upper_bound. lia.
Qed.

(** the perturbation loop stays in the table, also when donor and slot
    are the same row *)
Lemma perturb_total (d k ci cj : nat) (cent : list C) :
  ci < k → cj < k → k * d ≤ length cent →
  ∃ cent', perturb d ci cj cent = Ok cent' ∧ length cent' = length cent.
Proof.
  intros Hci Hcj Hc. unfold perturb.
  apply (for_range_total (λ _ c, length c = length cent)); [done|].
  intros j c Hj Hl.
  destruct (rd_lt c (ci * d + j)) as (a & -> & _); [nia|]. cbn [mbind result_bind].
  rewrite wr_lt by nia. cbn [mbind result_bind].
  destruct (rd_lt (<[ci * d + j:=if Nat.even j then scale_up a else scale_down a]> c)
              (cj * d + j)) as (b & -> & _); [rewrite length_insert; nia|].
  cbn [mbind result_bind]. rewrite wr_lt by (rewrite length_insert; nia).
  eexists. split; [done|]. by rewrite !length_insert.
Qed.

Lemma split_step_fuel_or_lengths (fuel d k n ci : nat)
    (st : nat * nat * list C * list C) :
  ci < k → length st.1.2 = k → k * d ≤ length st.2 →
  split_step fuel d k n ci st = Err OutOfFuel ∨
  ∃ st', split_step fuel d k n ci st = Ok st' ∧
    length st'.1.2 = k ∧ length st'.2 = length st.2.
Proof.
  destruct st as [[[ns t] h] c]. simpl. intros Hci Hh Hc.
  destruct (rd_lt h ci) as (h0 & -> & _); [lia|]. cbn [mbind result_bind].
  destruct (ceqb h0 czero); [|right; eexists; split; [done|]; simpl; lia].
  unfold split_one.
  destruct (find_donor_fuel_or_index fuel k n h 0 t) as [->|(cj & t' & -> & Hcj)];
    [lia|done|by left|]. cbn [mbind result_bind].
  destruct (memcpy_row d ci cj c c) as (c1 & -> & Hl1 & _); [nia|nia|].
  cbn [mbind result_bind].
  destruct (perturb_total d k ci cj c1) as (c2 & -> & Hl2); [done|done|lia|].
  cbn [mbind result_bind].
  destruct (rd_lt h cj) as (hj & -> & _); [lia|]. cbn [mbind result_bind].
  rewrite wr_lt by lia. cbn [mbind result_bind].
  destruct (rd_lt (<[ci:=cdiv hj (c_of_Z 2)]> h) cj) as (hj' & -> & _);
    [rewrite length_insert; lia|]. cbn [mbind result_bind].
  destruct (rd_lt (<[ci:=cdiv hj (c_of_Z 2)]> h) ci) as (hi' & -> & _);
    [rewrite length_insert; lia|]. cbn [mbind result_bind].
  rewrite wr_lt by (rewrite length_insert; lia). cbn [mbind result_bind mret result_ret].
  right. eexists. split; [done|]. simpl. rewrite !length_insert. lia.
Qed.

Lemma split_clusters_fuel_or_lengths (fuel d k n : nat) (hassign centroids : list C) :
  length hassign = k → k * d ≤ length centroids →
  split_clusters fuel d k n hassign centroids = Err OutOfFuel ∨
  ∃ ns h' c', split_clusters fuel d k n hassign centroids = Ok (ns, h', c') ∧
    length h' = k ∧ length c' = length centroids.
Proof.
  intros Hh Hc. unfold split_clusters.
  destruct (for_range_fuel
    (λ _ (st : nat * nat * list C * list C),
       length st.1.2 = k ∧ length st.2 = length centroids)
    0 k (split_step fuel d k n) (0, 0, hassign, centroids))
    as [->|([[[ns t] h'] c'] & -> & Hl)]; [done| |by left|].
  - intros ci st Hci [Hl1 Hl2].
    destruct (split_step_fuel_or_lengths fuel d k n ci st) as [?|(st' & ? & ? & ?)];
      [lia|done|lia|by left|]. right. exists st'. split; [done|]. split; [done|lia].
  - right. exists ns, h', c'. done.
Qed.

Lemma objective_total (nx : nat) (dis : list C) :
  nx ≤ length dis → ∃ obj, objective nx dis = Ok obj.
Proof.
  intros Hd. unfold objective.
  destruct (for_range_total (λ (_ : nat) (_ : D), True) 0 nx
    (λ j obj, dj ← rd dis j; mret (dadd obj (c2d dj))) (d_of_Z 0))
    as (obj & Hrun & _); [done| |by exists obj].
  intros j obj Hj _. destruct (rd_lt dis j) as (dj & -> & _); [lia|].
  eexists. done.
Qed.

Lemma kmeans_iterations_within_bounds (fuel iters i : nat) (meta : HnswMetadata)
    (nx : nat) (x : list C) (prev : D) (centroids dis : list C) (assign : list nat)
    (log : list (event D)) :
  nx * pqSubdim meta ≤ length x →
  length centroids = pq_k meta * pqSubdim meta →
  nx ≤ length dis → nx ≤ length assign →
  kmeans_iterations fuel iters i meta nx x prev centroids dis assign log
    = Err OutOfFuel ∨
  ∃ c' log', kmeans_iterations fuel iters i meta nx x prev centroids dis assign log
               = Ok (c', log') ∧
    length c' = pq_k meta * pqSubdim meta.
Proof.
  intros Hx. revert i prev centroids dis assign log.
  induction iters as [|iters IH]; intros i prev centroids dis assign log Hc Hd Ha.
  - right. by exists centroids, log.
  - cbn [kmeans_iterations].
    destruct (calculate_distances_spec meta centroids nx x dis assign)
      as (dis' & assign' & -> & Hld & Hla & Hnear & _); [done|lia|done|done|].
    cbn [mbind result_bind].
    destruct (objective_total nx dis') as (obj & ->); [lia|]. cbn [mbind result_bind].
    destruct (small_improvement prev obj); [right; by eexists _, _|].
    destruct (compute_centroids_spec (pqSubdim meta) (pq_k meta) nx x assign'
                (replicate (pq_k meta) czero) centroids)
      as (h1 & c1 & -> & Hlh & Hlc & _);
      [done| |by rewrite length_replicate|lia|].
    { intros j Hj. destruct (Hnear j Hj) as (md & mi & _ & Hmi & _ & Hai). eauto. }
    cbn [mbind result_bind].
    destruct (split_clusters_fuel_or_lengths fuel (pqSubdim meta) (pq_k meta) nx h1 c1)
      as [->|(ns & h2 & c2 & -> & Hlh2 & Hlc2)]; [done|lia|by left|].
    cbn [mbind result_bind]. apply IH; lia.
Qed.

Lemma pq_train_clustering_within_bounds (fuel : nat) (meta : HnswMetadata) (nx : nat)
    (x centroids dis : list C) (assign : list nat) (log : list (event D)) :
  nx * pqSubdim meta ≤ length x →
  length centroids = pq_k meta * pqSubdim meta →
  nx ≤ length dis → nx ≤ length assign →
  within_bounds (pq_train_clustering fuel meta nx x centroids dis assign log).
Proof.
  intros Hx Hc Hd Ha. unfold pq_train_clustering. case_decide as Hk.
  - subst nx. unfold memcpy, rd_block.
    rewrite decide_True by (simpl; lia). cbn [mbind result_bind].
    unfold wr_block. rewrite decide_True; [done|].
    rewrite length_take, length_drop. simpl. lia.
  - destruct (kmeans_iterations_within_bounds fuel max_iterations 0 meta nx x HUGE_VAL
                centroids dis assign log) as [->|(c' & log' & -> & _)]; done.
Qed.

(** X13: with a training slice of [slice_len * d] values, a table of
    [k * d] values and collaborators that keep their contracts
    ([rand_perm] returns a permutation; for the default initialisation at
    least [k] training vectors; for the hypercube [pqBits <= d]; for the
    PCA hypercube a trained PCA of the stated sizes), no access of
    [pq_train] or of the functions it calls falls outside its buffer and
    the assertion of [compute_centroids] holds: the call returns, unless a
    donor loop of [split_clusters] never accepts. *)
Theorem pq_train_within_bounds (fuel : nat) (trainType : TrainType)
    (meta : HnswMetadata) (slice_len : nat) (slice centroids : list C) :
  let d := pqSubdim meta in
  let k := pq_k meta in
  length slice = slice_len * d → length centroids = k * d →
  rand_perm slice_len seed ≡ₚ seq 0 slice_len →
  match trainType with
  | TT_DEFAULT => k ≤ slice_len ∧ rand_perm slice_len (seed + 1) ≡ₚ seq 0 slice_len
  | TT_HYPERCUBE => pqBits meta ≤ d
  | TT_HYPERCUBE_PCA =>
    let pca := pca_train d (pqBits meta) slice_len slice in
    d ≤ length (pca_mean pca) ∧ pqBits meta ≤ length (pca_eigenvalues pca) ∧
    pqBits meta * d ≤ length (pca_PCAMat pca)
  end →
  within_bounds (pq_train fuel trainType meta slice_len slice centroids).
Proof.
  intros d k Hs Hc Hperm Hinit. unfold pq_train. fold d k.
  assert (∃ c0, initialize_centroids trainType d (pqBits meta) k slice_len slice centroids
                  = Ok c0 ∧ length c0 = k * d) as (c0 & -> & Hc0).
  { destruct trainType.
    - destruct Hinit as [Hk Hperm1].
      destruct (initialize_default_spec d (pqBits meta) k slice_len slice centroids)
        as (c0 & ? & ? & _); [done..|]. by exists c0.
    - cbn [initialize_centroids].
      destruct (init_hypercube_spec d (pqBits meta) slice_len slice centroids)
        as (c0 & ? & ? & _); [done|lia|unfold k, pq_k in Hc; lia|].
      exists c0. split; [done|lia].
    - cbn [initialize_centroids]. destruct Hinit as (? & ? & ?).
      destruct (init_hypercube_pca_spec d (pqBits meta) slice_len slice centroids)
        as (c0 & ? & ? & _); [done|done|done|unfold k, pq_k in Hc; lia|].
      exists c0. split; [done|lia]. }
  cbn [mbind result_bind]. case_decide as Hbig.
  - destruct (subsample_training_set_spec d k slice_len slice) as (x_new & -> & Hl & _);
      [lia|done|done|]. cbn [mbind result_bind].
    apply pq_train_clustering_within_bounds; rewrite ?length_replicate; lia.
  - case_decide; [done|].
    apply pq_train_clustering_within_bounds; rewrite ?length_replicate; lia.
Qed.
End Safety.

Section SafetyWitness.
Import IEEE.

Lemma pq_train_within_bounds_witness :
  within_bounds (pq_train 4 TT_DEFAULT meta_1_1 128 (replicate 128 (f32_of_Z 1024))
                   (f32_of_Z <$> [0; 0]%Z)).
Proof.
  apply (pq_train_within_bounds 4 TT_DEFAULT meta_1_1 128
           (replicate 128 (f32_of_Z 1024)) (f32_of_Z <$> [0; 0]%Z));
    [reflexivity|reflexivity|apply rotation_perm|].
  split; [unfold pq_k; simpl; lia|apply rotation_perm].
Defined.
End SafetyWitness.

(** ** pq_train: the lines on stderr *)

Section Log.
Context {C D : Type} `{Arith C D} `{Special C D} `{Extern C}.

Lemma subsample_training_set_size (d k nx nx' : nat) (x x_new : list C) :
  subsample_training_set d k nx x = Ok (nx', x_new) →
  nx' = k * max_points_per_centroid.
Proof.
  unfold subsample_training_set. by intros (? & _ & [= <- _])%bind_Ok.
Qed.

(** the log of a training call: nothing on the low-data return, else the
    lines of [training_log] for objectives that the loop accepts *)
Lemma pq_train_log (fuel : nat) (trainType : TrainType) (meta : HnswMetadata)
    (slice_len : nat) (slice centroids : list C) (b : bool) (c' : list C)
    (log : list (event D)) :
  pq_train fuel trainType meta slice_len slice centroids = Ok (b, c', log) →
  (b = false ∧ log = []) ∨
  (b = true ∧ ∃ objs, log = training_log meta slice_len objs ∧
                      objective_trace HUGE_VAL objs max_iterations).
Proof.
  pose proof (pq_k_pos meta) as Hk.
  assert (Hclu : ∀ nx x c dis assign log0,
    nx ≠ pq_k meta →
    pq_train_clustering fuel meta nx x c dis assign log0 = Ok (b, c', log) →
    b = true ∧ ∃ objs, log = log0 ++ imap (λ j obj, LogIteration j obj) objs ∧
                       objective_trace HUGE_VAL objs max_iterations).
  { intros nx x c dis assign log0 Hne. unfold pq_train_clustering. cbv zeta.
    rewrite decide_False by done.
    intros ([c1 log1] & Hrun & [= <- <- <-])%bind_Ok. split; [done|].
    apply kmeans_iterations_log in Hrun as (objs & -> & Htrace).
    by exists objs. }
  unfold pq_train, training_log. cbv zeta.
  intros (c0 & _ & Hrest)%bind_Ok. revert Hrest. case_decide as Hbig.
  - intros ([nx x_new] & Hsub & Hrun)%bind_Ok. right.
    apply subsample_training_set_size in Hsub as ->.
    apply Hclu in Hrun; [done|]. unfold max_points_per_centroid. lia.
  - case_decide as Hlow.
    + intros [= <- <- <-]. by left.
    + intros Hrun. right. apply Hclu in Hrun; [done|].
      unfold min_points_per_centroid in Hlow. lia.
Qed.

(** X14: a call that returns false has written nothing to stderr; a call
    that returns true has written the subsampling notice (if and only if
    [slice_len > k * 256], with the size [k * 256]) followed by one line
    per iteration, numbered 0, 1, 2, ... without a gap: at least one and at
    most 25 of them. *)
Theorem training_log_shape (fuel : nat) (trainType : TrainType) (meta : HnswMetadata)
    (slice_len : nat) (slice centroids : list C) (b : bool) (c' : list C)
    (log : list (event D)) :
  pq_train fuel trainType meta slice_len slice centroids = Ok (b, c', log) →
  if b then ∃ objs, log = training_log meta slice_len objs ∧
                    1 ≤ length objs ≤ max_iterations
  else log = [].
Proof.
  intros [[-> ->]|(-> & objs & -> & Htrace)]%pq_train_log; [done|].
  exists objs. split; [done|].
  apply objective_trace_length in Htrace as [? Hpos].
  unfold max_iterations in *. lia.
Qed.
End Log.

Section LogWitness.
Import IEEE.

Lemma training_log_shape_witness :
  ∃ b c' log,
    pq_train 4 TT_DEFAULT meta_1_1 128 (replicate 128 (f32_of_Z 1024))
      (f32_of_Z <$> [0; 0]%Z) = Ok (b, c', log) ∧
    if b then ∃ objs, log = training_log meta_1_1 128 objs ∧
                      1 ≤ length objs ≤ max_iterations
    else log = [].
Proof.
  destruct (pq_train 4 TT_DEFAULT meta_1_1 128 (replicate 128 (f32_of_Z 1024))
              (f32_of_Z <$> [0; 0]%Z)) as [[[b c'] log]|e] eqn:Hrun;
    [|vm_compute in Hrun; discriminate].
  exists b, c', log. split; [reflexivity|].
  exact (training_log_shape 4 TT_DEFAULT meta_1_1 128 _ _ b c' log Hrun).
Defined.
End LogWitness.

(** in IEEE arithmetic, whatever the collaborators are *)
Section LogIEEE.
Context {E : Extern spec_float}.
#[local] Existing Instance IEEE.arith.
#[local] Existing Instance IEEE.special.

(** [(HUGE_VAL - obj) / HUGE_VAL] is not a number, whatever [obj] is *)
Lemma first_objective_never_small (obj : spec_float) :
  small_improvement HUGE_VAL obj = false.
Proof. by destruct obj as [[]|[]| |[] m e]. Qed.

(** X15: in IEEE arithmetic the first iteration never stops the loop,
    since [(HUGE_VAL - obj) / HUGE_VAL] is not a number and compares false
    with [min_improvement]: a call that returns true has updated the
    centroids at least once and logged at least two iterations. *)
Theorem first_iteration_never_stops (fuel : nat) (trainType : TrainType)
    (meta : HnswMetadata) (slice_len : nat) (slice centroids c' : list spec_float)
    (log : list (event spec_float)) :
  pq_train fuel trainType meta slice_len slice centroids = Ok (true, c', log) →
  ∃ objs, log = training_log meta slice_len objs ∧ 2 ≤ length objs ≤ max_iterations.
Proof.
  intros [[[=] _]|(_ & objs & -> & Htrace)]%pq_train_log.
  exists objs. split; [done|].
  pose proof (objective_trace_length _ _ _ Htrace) as [Hle _].
  split; [|done].
  destruct objs as [|obj objs]; [done|]. unfold max_iterations in Htrace.
  cbn [objective_trace] in Htrace. rewrite first_objective_never_small in Htrace.
  apply objective_trace_length in Htrace as [_ Hpos]. simpl. lia.
Qed.
End LogIEEE.

Section LogIEEEWitness.
Import IEEE.

Lemma first_iteration_never_stops_witness :
  ∃ c' log,
    pq_train 4 TT_DEFAULT meta_1_1 128 (replicate 128 (f32_of_Z 1024))
      (f32_of_Z <$> [0; 0]%Z) = Ok (true, c', log) ∧
    ∃ objs, log = training_log meta_1_1 128 objs ∧ 2 ≤ length objs ≤ max_iterations.
Proof.
  destruct (pq_train 4 TT_DEFAULT meta_1_1 128 (replicate 128 (f32_of_Z 1024))
              (f32_of_Z <$> [0; 0]%Z)) as [[[[] c'] log]|e] eqn:Hrun;
    [|vm_compute in Hrun; discriminate..].
  exists c', log. split; [reflexivity|].
  exact (first_iteration_never_stops 4 TT_DEFAULT meta_1_1 128 _ _ c' log Hrun).
Defined.
End LogIEEEWitness.

(** ** pq_train: the arrays [assign] and [dis] *)

Lemma for_range_result_rel {S1 S2 : Type} (R : nat → S1 → S2 → Prop) (lo n : nat)
    (f : nat → S1 → result S1) (g : nat → S2 → result S2) (s1 : S1) (s2 : S2) :
  R lo s1 s2 →
  (∀ i a b, lo ≤ i < lo + n → R i a b → result_rel (R (S i)) (f i a) (g i b)) →
  result_rel (R (lo + n)) (for_range lo n f s1) (for_range lo n g s2).
Proof.
  revert lo s1 s2. induction n as [|n IH]; intros lo s1 s2 HR Hstep; simpl.
  - by rewrite Nat.add_0_r.
  - pose proof (Hstep lo s1 s2 ltac:(lia) HR) as Hb.
    destruct (f lo s1) as [a|e1], (g lo s2) as [b|e2]; simpl in *; try done.
    replace (lo + S n) with (S lo + n) by lia.
    apply IH; [done|]. intros i a' b' Hi. apply Hstep. lia.
Qed.

Lemma wr_ge {A : Type} (buf : list A) (i : nat) (v : A) :
  length buf ≤ i → wr buf i v = Err OutOfBounds.
Proof. intros Hi. unfold wr. by rewrite decide_False by lia. Qed.

Section Scratch.
Context {C D : Type} `{Arith C D} `{Special C D} `{Extern C}.

Lemma calculate_distances_overwrites (meta : HnswMetadata) (centroids : list C)
    (nx : nat) (x dis1 dis2 : list C) (assign1 assign2 : list nat) :
  length dis1 = length dis2 → length assign1 = length assign2 →
  result_rel (λ '(d1, a1) '(d2, a2),
                agree (length dis1) nx d1 d2 ∧ agree (length assign1) nx a1 a2)
    (calculate_distances meta centroids nx x dis1 assign1)
    (calculate_distances meta centroids nx x dis2 assign2).
Proof.
  intros Hd Ha. unfold calculate_distances.
  apply (for_range_result_rel
    (λ i '(d1, a1) '(d2, a2),
       agree (length dis1) i d1 d2 ∧ agree (length assign1) i a1 a2) 0 nx).
  - split; (split; [done|]; split; [done|]; intros; lia).
  - intros i [d1 a1] [d2 a2] Hi [Hda Haa].
    destruct (rd_block x _ _) as [x_i|e]; simpl; [|done].
    destruct (nearest meta centroids x_i) as [[md mi]|e]; simpl; [|done].
    destruct Hda as (Hl1 & Hl2 & Hdl), Haa as (Hl3 & Hl4 & Hal).
    destruct (decide (i < length dis1)).
    2:{ rewrite (wr_ge d1), (wr_ge d2) by lia. done. }
    rewrite (wr_lt d1), (wr_lt d2) by lia. cbn [mbind result_bind].
    destruct (decide (i < length assign1)).
    2:{ rewrite (wr_ge a1), (wr_ge a2) by lia. done. }
    rewrite (wr_lt a1), (wr_lt a2) by lia. cbn [mbind result_bind mret result_ret].
    cbn [result_rel].
    split; (split; [by rewrite length_insert|]; split; [by rewrite length_insert|]).
    + intros idx Hidx. destruct (decide (idx = i)) as [->|].
      * by rewrite !list_lookup_insert_eq by lia.
      * rewrite !list_lookup_insert_ne by done. apply Hdl. lia.
    + intros idx Hidx. destruct (decide (idx = i)) as [->|].
      * by rewrite !list_lookup_insert_eq by lia.
      * rewrite !list_lookup_insert_ne by done. apply Hal. lia.
Qed.

Lemma objective_reads_prefix (nx : nat) (dis1 dis2 : list C) :
  (∀ j, j < nx → dis1 !! j = dis2 !! j) → objective nx dis1 = objective nx dis2.
Proof.
  intros Hag. unfold objective. apply for_range_ext. intros j obj Hj.
  unfold rd. by rewrite Hag by lia.
Qed.

Lemma compute_centroids_reads_prefix (d k n : nat) (x : list C)
    (assign1 assign2 : list nat) (hassign centroids : list C) :
  (∀ i, i < n → assign1 !! i = assign2 !! i) →
  compute_centroids d k n x assign1 hassign centroids =
  compute_centroids d k n x assign2 hassign centroids.
Proof.
  intros Hag. unfold compute_centroids.
  destruct (wr_block _ _ _) as [c0|e]; simpl; [|done].
  f_equal. unfold accumulate. apply for_range_ext. intros i [h c] Hi.
  assert (rd assign1 i = rd assign2 i) as -> by (unfold rd; by rewrite Hag by lia).
  done.
Qed.

Lemma kmeans_iterations_scratch (fuel iters i : nat) (meta : HnswMetadata) (nx : nat)
    (x : list C) (prev : D) (centroids dis1 dis2 : list C) (assign1 assign2 : list nat)
    (log : list (event D)) :
  length dis1 = length dis2 → length assign1 = length assign2 →
  kmeans_iterations fuel iters i meta nx x prev centroids dis1 assign1 log =
  kmeans_iterations fuel iters i meta nx x prev centroids dis2 assign2 log.
Proof.
  revert i prev centroids dis1 dis2 assign1 assign2 log.
  induction iters as [|iters IH];
    intros i prev centroids dis1 dis2 assign1 assign2 log Hd Ha; [done|].
  cbn [kmeans_iterations].
  pose proof (calculate_distances_overwrites meta centroids nx x dis1 dis2
                assign1 assign2 Hd Ha) as Hrel.
  destruct (calculate_distances meta centroids nx x dis1 assign1) as [[d1 a1]|e1],
           (calculate_distances meta centroids nx x dis2 assign2) as [[d2 a2]|e2];
    simpl in Hrel; try done; [|by subst].
  destruct Hrel as [(Hl1 & Hl2 & Hdl) (Hl3 & Hl4 & Hal)].
  cbn [mbind result_bind].
  rewrite (objective_reads_prefix nx d1 d2 Hdl).
  destruct (objective nx d2) as [obj|e]; [|done]. cbn [mbind result_bind].
  destruct (small_improvement prev obj); [done|].
  rewrite (compute_centroids_reads_prefix _ _ nx x a1 a2 _ _ Hal).
  destruct (compute_centroids _ _ _ _ a2 _ _) as [[h1 c1]|e]; [|done].
  cbn [mbind result_bind].
  destruct (split_clusters _ _ _ _ _ _) as [[[ns h2] c2]|e]; [|done].
  cbn [mbind result_bind]. apply IH; lia.
Qed.

(** X16: the arrays [assign] and [dis] come from [new[]] without
    initialisation; lines 298-334 never read an entry of them before
    writing it: the outcome (result or error) is the same for any two
    initial contents of the arrays. *)
Theorem scratch_arrays_written_before_read (fuel : nat) (meta : HnswMetadata)
    (nx : nat) (x centroids dis1 dis2 : list C) (assign1 assign2 : list nat)
    (log : list (event D)) :
  length dis1 = length dis2 → length assign1 = length assign2 →
  pq_train_clustering fuel meta nx x centroids dis1 assign1 log =
  pq_train_clustering fuel meta nx x centroids dis2 assign2 log.
Proof.
  intros Hd Ha. unfold pq_train_clustering. cbv zeta. case_decide; [done|].
  by rewrite (kmeans_iterations_scratch fuel max_iterations 0 meta nx x HUGE_VAL
                centroids dis1 dis2 assign1 assign2 log Hd Ha).
Qed.
End Scratch.

Section ScratchWitness.
Import IEEE.

Lemma scratch_arrays_written_before_read_witness :
  pq_train_clustering 4 meta_1_1 3 (f32_of_Z <$> [1; 5; 9]%Z) (f32_of_Z <$> [0; 10]%Z)
    (replicate 3 czero) (replicate 3 0) [] =
  pq_train_clustering 4 meta_1_1 3 (f32_of_Z <$> [1; 5; 9]%Z) (f32_of_Z <$> [0; 10]%Z)
    (f32_of_Z <$> [7; 7; 7]%Z) [1; 1; 1] [].
Proof.
  apply (scratch_arrays_written_before_read 4 meta_1_1 3 (f32_of_Z <$> [1; 5; 9]%Z)
           (f32_of_Z <$> [0; 10]%Z) (replicate 3 czero) (f32_of_Z <$> [7; 7; 7]%Z)
           (replicate 3 0) [1; 1; 1] []); reflexivity.
Defined.
End ScratchWitness.

(** ** pq_train: the objective of the returned table *)

(** A loop whose body keeps the length of a buffer keeps it. *)
Lemma for_range_length {A : Type} (lo n : nat) (body : nat → list A → result (list A))
    (s s' : list A) :
  (∀ i s s', body i s = Ok s' → length s' = length s) →
  for_range lo n body s = Ok s' → length s' = length s.
Proof.
  intros Hbody Hrun.
  apply (for_range_Ok_inv (λ _ b, length b = length s) lo n body s s' Hrun); [done|].
  intros i s1 s2 _ Hb Hl. by rewrite (Hbody i s1 s2 Hb).
Qed.

Lemma length_wr {A : Type} (buf buf' : list A) (i : nat) (v : A) :
  wr buf i v = Ok buf' → length buf' = length buf.
Proof. intros [_ ->]%wr_Ok. by rewrite length_insert. Qed.

Lemma length_memcpy {A : Type} (dst dst' src : list A) (doff soff n : nat) :
  memcpy dst doff src soff n = Ok dst' → length dst' = length dst.
Proof. unfold memcpy. intros (blk & _ & Hw)%bind_Ok. by apply length_wr_block in Hw. Qed.

Section Early.
Context {C D : Type} `{Arith C D} `{Special C D} `{Extern C}.

(** the initialisations write into the table, they do not resize it *)
Lemma length_initialize_centroids (trainType : TrainType) (d nbits k nx : nat)
    (x centroids c' : list C) :
  initialize_centroids trainType d nbits k nx x centroids = Ok c' →
  length c' = length centroids.
Proof.
  destruct trainType; cbn [initialize_centroids].
  - apply for_range_length. intros i s s' (p & _ & Hm)%bind_Ok.
    by apply length_memcpy in Hm.
  - unfold init_hypercube.
    intros (mean & _ & ([mean2 maxm] & _ & Hrun)%bind_Ok)%bind_Ok. revert Hrun.
    apply for_range_length. intros i s s' (s1 & Hlo & Hhi)%bind_Ok.
    apply for_range_length in Hlo, Hhi.
    + lia.
    + intros j b b' (m & _ & Hw)%bind_Ok. by apply length_wr in Hw.
    + intros j b b' (m & _ & Hw)%bind_Ok. by apply length_wr in Hw.
  - unfold init_hypercube_pca. apply for_range_length. intros i s s'.
    apply for_range_length. intros j b b' (m & _ & (b1 & Hw & Hrun)%bind_Ok)%bind_Ok.
    apply length_wr in Hw. rewrite <- Hw. revert Hrun.
    apply for_range_length.
    intros kk b2 b3 (cv & _ & (ev & _ & (pm & _ & Hw3)%bind_Ok)%bind_Ok)%bind_Ok.
    by apply length_wr in Hw3.
Qed.

(** what is in [dis] after [calculate_distances] does not depend on what
    was in the arrays, nor on their lengths *)
Lemma table_objective_of_run (meta : HnswMetadata) (nx : nat)
    (x centroids dis dis' : list C) (assign assign' : list nat) (obj : D) :
  nx * pqSubdim meta ≤ length x →
  pq_k meta * pqSubdim meta ≤ length centroids →
  nx ≤ length dis → nx ≤ length assign →
  calculate_distances meta centroids nx x dis assign = Ok (dis', assign') →
  objective nx dis' = Ok obj →
  table_objective meta nx x centroids = Ok obj.
Proof.
  intros Hx Hc Hd Ha Hrun Hobj. unfold table_objective.
  destruct (calculate_distances_spec meta centroids nx x dis assign)
    as (d1 & a1 & Hrun1 & _ & _ & Hnear1 & _); [done..|].
  rewrite Hrun in Hrun1. injection Hrun1 as <- <-.
  destruct (calculate_distances_spec meta centroids nx x (replicate nx czero)
              (replicate nx 0))
    as (d2 & a2 & -> & _ & _ & Hnear2 & _); [done|done|by rewrite length_replicate..|].
  cbn [mbind result_bind]. rewrite <- Hobj. apply objective_reads_prefix.
  intros j Hj.
  destruct (Hnear1 j Hj) as (md & mi & Hn & _ & -> & _).
  destruct (Hnear2 j Hj) as (md' & mi' & Hn' & _ & -> & _).
  rewrite Hn in Hn'. by injection Hn' as <- <-.
Qed.

Lemma kmeans_early_stop (fuel iters i : nat) (meta : HnswMetadata) (nx : nat)
    (x : list C) (prev : D) (c dis : list C) (assign : list nat)
    (log log' : list (event D)) (c' : list C) :
  nx * pqSubdim meta ≤ length x →
  length c = pq_k meta * pqSubdim meta →
  nx ≤ length dis → nx ≤ length assign →
  kmeans_iterations fuel iters i meta nx x prev c dis assign log = Ok (c', log') →
  ∃ objs, log' = log ++ imap (λ j obj, LogIteration (i + j) obj) objs ∧
    (length objs < iters →
     ∃ obj, last objs = Some obj ∧ table_objective meta nx x c' = Ok obj).
Proof.
  intros Hx. revert i prev c dis assign log.
  induction iters as [|iters IH]; intros i prev c dis assign log Hc Hd Ha.
  - intros [= <- <-]. exists []. rewrite app_nil_r. split; [done|]. simpl. lia.
  - cbn [kmeans_iterations].
    destruct (calculate_distances_spec meta c nx x dis assign)
      as (dis1 & assign1 & Hcd & Hld & Hla & Hnear & _); [done|lia|done|done|].
    rewrite Hcd. cbn [mbind result_bind].
    intros (obj & Hobj & Hrest)%bind_Ok. revert Hrest.
    destruct (small_improvement prev obj).
    + intros [= <- <-]. exists [obj]. split; [simpl; by rewrite Nat.add_0_r|].
      intros _. exists obj. split; [done|].
      apply (table_objective_of_run meta nx x c dis dis1 assign assign1);
        done || lia.
    + destruct (compute_centroids_spec (pqSubdim meta) (pq_k meta) nx x assign1
                  (replicate (pq_k meta) czero) c)
        as (h1 & c1 & -> & Hlh & Hlc & _);
        [done| |by rewrite length_replicate|lia|].
      { intros j Hj. destruct (Hnear j Hj) as (md & mi & _ & Hmi & _ & Hai). eauto. }
      cbn [mbind result_bind].
      destruct (split_clusters_fuel_or_lengths fuel (pqSubdim meta) (pq_k meta) nx h1 c1)
        as [->|(ns & h2 & c2 & -> & Hlh2 & Hlc2)]; [done|lia|done|].
      cbn [mbind result_bind].
      intros (objs & -> & Hlast)%IH; [|lia..].
      exists (obj :: objs). split.
      * rewrite <- app_assoc. simpl. rewrite Nat.add_0_r. do 2 f_equal.
        apply imap_ext. intros j o _. simpl. f_equal. lia.
      * intros Hlen. destruct Hlast as (o & Hlast & Hto); [simpl in Hlen; lia|].
        exists o. split; [|done]. destruct objs; [done|]. done.
Qed.

(** X19: when the loop stops before its 25th iteration, the last
    objective on stderr is the objective of the table that is returned:
    the iteration that breaks does not touch the centroids. The training
    set is the subsample if the slice was subsampled. *)
Theorem early_stop_reports_returned_table (fuel : nat) (trainType : TrainType)
    (meta : HnswMetadata) (slice_len : nat) (slice centroids c' : list C)
    (log : list (event D)) (nx : nat) (x : list C) :
  length slice = slice_len * pqSubdim meta →
  length centroids = pq_k meta * pqSubdim meta →
  rand_perm slice_len seed ≡ₚ seq 0 slice_len →
  pq_train fuel trainType meta slice_len slice centroids = Ok (true, c', log) →
  training_set meta slice_len slice = Ok (nx, x) →
  length (objectives log) < max_iterations →
  ∃ obj, last (objectives log) = Some obj ∧ table_objective meta nx x c' = Ok obj.
Proof.
  intros Hs Hc Hperm Hrun Hset Hlen.
  pose proof (pq_k_pos meta) as Hk.
  assert (Hclu : ∀ nx0 x0 c0 dis assign log0,
    nx0 ≠ pq_k meta → objectives log0 = [] →
    nx0 * pqSubdim meta ≤ length x0 → length c0 = pq_k meta * pqSubdim meta →
    nx0 ≤ length dis → nx0 ≤ length assign →
    pq_train_clustering fuel meta nx0 x0 c0 dis assign log0 = Ok (true, c', log) →
    ∃ obj, last (objectives log) = Some obj ∧ table_objective meta nx0 x0 c' = Ok obj).
  { intros nx0 x0 c0 dis assign log0 Hne Hlog0 Hx0 Hc0 Hd Ha.
    unfold pq_train_clustering. cbv zeta. rewrite decide_False by done.
    intros ([c1 log1] & Hkm & [= -> ->])%bind_Ok.
    apply kmeans_early_stop in Hkm as (objs & -> & Hlast); [|done..].
    rewrite objectives_app, Hlog0, (objectives_iterations 0) in Hlen |- *.
    simpl in *. by apply Hlast. }
  revert Hrun Hset. unfold pq_train, training_set. cbv zeta.
  intros (c0 & Hinit%length_initialize_centroids & Hrest)%bind_Ok. revert Hrest.
  case_decide as Hbig.
  - intros ([nx1 x1] & Hsub & Hrun)%bind_Ok. rewrite Hsub. intros [= <- <-].
    destruct (subsample_training_set_spec (pqSubdim meta) (pq_k meta) slice_len slice)
      as (x_new & Hsub' & Hl & _); [lia|done|done|].
    rewrite Hsub in Hsub'. injection Hsub' as -> ->.
    apply Hclu in Hrun; [done|unfold max_points_per_centroid; lia|done|lia|lia|..];
      rewrite length_replicate; lia.
  - case_decide as Hlow; [done|]. intros Hrun [= <- <-].
    apply Hclu in Hrun; [done|unfold min_points_per_centroid in Hlow; lia|done|lia|lia|..];
      rewrite length_replicate; lia.
Qed.
End Early.

Section EarlyWitness.
Import IEEE.

Lemma early_stop_reports_returned_table_witness :
  ∃ obj,
    last (objectives [LogIteration 0 (f64_of_Z 0); LogIteration 1 (f64_of_Z 128)])
      = Some obj ∧
    table_objective meta_1_1 128 (replicate 128 (f32_of_Z 1024))
      (f32_of_Z <$> [1023; 1025]%Z) = Ok obj.
Proof.
  apply (early_stop_reports_returned_table 4 TT_DEFAULT meta_1_1 128
           (replicate 128 (f32_of_Z 1024)) (f32_of_Z <$> [0; 0]%Z)
           (f32_of_Z <$> [1023; 1025]%Z)
           [LogIteration 0 (f64_of_Z 0); LogIteration 1 (f64_of_Z 128)]
           128 (replicate 128 (f32_of_Z 1024)));
    [reflexivity|reflexivity|apply rotation_perm|vm_compute; reflexivity|reflexivity|].
  simpl. unfold max_iterations. lia.
Defined.
End EarlyWitness.

